(** * Bulk sender scripts: batching, allowance guard, batch driver,
      sampling verifier and offline reconciliation.

    A shallow embedding of the TypeScript sources
      - test/helpers.ts            ([parseWeiAmount], [createBatches]),
      - scripts/verify-transfers   ([loadRecipients], [verifyTransfers]),
      - scripts/helpers/contractHelpers.ts ([checkTokenBalance],
        [checkTokenAllowance], [waitForTransactionConfirmation]),
      - scripts/helpers/transferHelpers.ts and its earlier copy
        ([processTransferBatches], [processSingleBatch], ...),
      - the gas helper ([estimateGasCosts]),
      - contracts/BulkSender.sol   (the distribution loop of
        [bulkSendERC20Different]),
    then of further functions of the same files
      - test/helpers.ts            ([validateAndParseRow], [loadCSVData],
        [storeInitialBalances]),
      - scripts/verify-transfers   ([loadStartBalances], [loadEndBalances],
        the figures of [generateReport]),
      - the balance reader script  ([saveToCSV]),
      - contracts/BulkSender.sol   ([bulkSendERC20Equal], [bulkSendERC721],
        [bulkSendERC1155], [bulkSendERC1155Different], [setRecipientLimit],
        [setPaused]),
    followed by the properties proved about them.

    Conventions.  A [bigint] is a [Z].  A JavaScript string is the list of
    its UTF-16 code units.  A [Map] is an association list in insertion
    order whose keys are kept unique by [map_set].  Asynchronous code is
    sequential here: every [await] is a call that transforms the state of
    the outside world. *)

From Stdlib Require Import String Ascii.
From Stdlib Require Import ZArith NArith Bool Lia PeanoNat List SpecFloat.
Import ListNotations.
Local Open Scope Z_scope.

(* ================================================================== *)
(** * Part I — definitions                                              *)
(* ================================================================== *)

(** ** JavaScript strings *)

Definition jschar := N.
Definition jsstring := list jschar.

(** Literals: the code units of an ASCII [string]. *)
Definition js (s : string) : jsstring :=
  map N_of_ascii (list_ascii_of_string s).

Fixpoint str_eqb (a b : jsstring) : bool :=
  match a, b with
  | [], [] => true
  | x :: a', y :: b' => N.eqb x y && str_eqb a' b'
  | _, _ => false
  end.

Definition in_range (lo hi c : N) : bool := (N.leb lo c && N.leb c hi)%bool.

(** The class [\s] of a JavaScript regular expression. *)
Definition is_js_whitespace (c : jschar) : bool :=
  (in_range 9 13 c || N.eqb c 32 || N.eqb c 160 || N.eqb c 5760
   || in_range 8192 8202 c || N.eqb c 8232 || N.eqb c 8233
   || N.eqb c 8239 || N.eqb c 8287 || N.eqb c 12288 || N.eqb c 65279)%bool.

(** The class [\d]: the ASCII digits only. *)
Definition is_digit (c : jschar) : bool := in_range 48 57 c.

Definition is_ascii_letter (c : jschar) : bool :=
  (in_range 65 90 c || in_range 97 122 c)%bool.

Definition ch_dquote : jschar := 34%N.
Definition ch_squote : jschar := 39%N.
Definition ch_comma : jschar := 44%N.
Definition ch_minus : jschar := 45%N.
Definition ch_plus : jschar := 43%N.
Definition ch_dot : jschar := 46%N.

(** [s.replace(/re/g, '')] for a one-character class: drop the matches. *)
Definition remove_all (cls : jschar -> bool) (s : jsstring) : jsstring :=
  filter (fun c => negb (cls c)) s.

(** [/^\d+$/.test(s)]: non-empty and digits only ([$] has no multiline
    flag, so it matches at the very end only). *)
Definition matches_digits (s : jsstring) : bool :=
  match s with
  | [] => false
  | _ => forallb is_digit s
  end.

(** [String.prototype.toLowerCase] for text all of whose code units are
    below 128, as addresses are (ASCII hexadecimal text): the letters A
    to Z are lowered.  A cased letter outside ASCII, which the built-in
    would lower too, is left as it is here; the statements below use the
    function only through equations between lowered texts, and compute
    it on ASCII text only. *)
Definition lower_char (c : jschar) : jschar :=
  if in_range 65 90 c then (c + 32)%N else c.

Definition toLowerCase (s : jsstring) : jsstring := map lower_char s.

(** [s.includes(t)] *)
Fixpoint starts_with (t s : jsstring) : bool :=
  match t, s with
  | [], _ => true
  | x :: t', y :: s' => N.eqb x y && starts_with t' s'
  | _ :: _, [] => false
  end.

Fixpoint includes (s t : jsstring) : bool :=
  starts_with t s ||
  match s with
  | [] => false
  | _ :: s' => includes s' t
  end.

(** ** [BigInt(string)] (StringToBigInt of ECMA-262) *)

Definition digit_value (radix : Z) (c : jschar) : option Z :=
  let v :=
    if in_range 48 57 c then Some (Z.of_N c - 48)
    else if in_range 97 122 c then Some (Z.of_N c - 87)
    else if in_range 65 90 c then Some (Z.of_N c - 55)
    else None in
  match v with
  | Some d => if d <? radix then Some d else None
  | None => None
  end.

Fixpoint digits_value (radix : Z) (acc : Z) (s : jsstring) : option Z :=
  match s with
  | [] => Some acc
  | c :: s' =>
      match digit_value radix c with
      | Some d => digits_value radix (acc * radix + d) s'
      | None => None
      end
  end.

(** At least one digit of the radix, nothing else. *)
Definition parse_radix (radix : Z) (s : jsstring) : option Z :=
  match s with
  | [] => None
  | _ => digits_value radix 0 s
  end.

Fixpoint drop_while (p : jschar -> bool) (s : jsstring) : jsstring :=
  match s with
  | [] => []
  | c :: s' => if p c then drop_while p s' else s
  end.

Definition trim (s : jsstring) : jsstring :=
  rev (drop_while is_js_whitespace (rev (drop_while is_js_whitespace s))).

(** [None] is the [SyntaxError] that [BigInt] throws. *)
Definition BigInt (s : jsstring) : option Z :=
  match trim s with
  | [] => Some 0
  | c0 :: rest =>
      match rest with
      | c1 :: body =>
          if (N.eqb c0 48 && (N.eqb c1 120 || N.eqb c1 88))%bool then parse_radix 16 body
          else if (N.eqb c0 48 && (N.eqb c1 111 || N.eqb c1 79))%bool then parse_radix 8 body
          else if (N.eqb c0 48 && (N.eqb c1 98 || N.eqb c1 66))%bool then parse_radix 2 body
          else if N.eqb c0 ch_minus then option_map Z.opp (parse_radix 10 rest)
          else if N.eqb c0 ch_plus then parse_radix 10 rest
          else parse_radix 10 (c0 :: rest)
      | [] => parse_radix 10 [c0]
      end
  end.

(** ** Errors *)

Definition Address := jsstring.
Definition Hash := jsstring.

Inductive Error : Type :=
| ExternalError (message : jsstring)
    (* thrown by a collaborator: the RPC client, the contract call *)
| SyntaxError
| TypeError
| InvalidAmountFormat (amountString : jsstring)
| InsufficientTokenBalance (required available : Z)
| ApprovalFailed (expected got : Z)
| TransactionReverted (hash : Hash)
| TransferVerificationFailed (address : Address).

(** ** test/helpers.ts *)

Record TransferData := mkTransferData { address : Address; amount : Z }.

Definition is_quote_or_space (c : jschar) : bool :=
  (N.eqb c ch_dquote || N.eqb c ch_squote || is_js_whitespace c)%bool.

Definition is_comma (c : jschar) : bool := N.eqb c ch_comma.

Definition parseWeiAmount (amountString : jsstring) : Error + Z :=
  let cleaned := remove_all is_quote_or_space amountString in
  let cleaned := remove_all is_comma cleaned in
  if negb (matches_digits cleaned) then inl (InvalidAmountFormat amountString)
  else match BigInt cleaned with
       | Some v => inr v
       | None => inl SyntaxError
       end.

(** [Array.prototype.slice(start, end)], negative positions counting from
    the end. *)
Definition slice {T} (a : list T) (start stop : Z) : list T :=
  let len := Z.of_nat (length a) in
  let k := if start <? 0 then Z.max (len + start) 0 else Z.min start len in
  let final := if stop <? 0 then Z.max (len + stop) 0 else Z.min stop len in
  firstn (Z.to_nat (final - k)) (skipn (Z.to_nat k) a).

(** The [for] loop of [createBatches]; [None] when the loop is still
    running after [fuel] iterations. *)
Fixpoint createBatches_loop {T} (fuel : nat) (array : list T) (batchSize : Z)
    (i : Z) (batches : list (list T)) : option (list (list T)) :=
  if i <? Z.of_nat (length array) then
    match fuel with
    | O => None
    | S fuel' =>
        createBatches_loop fuel' array batchSize (i + batchSize)
          (batches ++ [slice array i (i + batchSize)])
    end
  else Some batches.

Definition createBatches {T} (fuel : nat) (array : list T) (batchSize : Z)
    : option (list (list T)) :=
  createBatches_loop fuel array batchSize 0 [].

(** ** Maps (insertion order, unique keys) *)

Definition Map (V : Type) := list (jsstring * V).

Fixpoint map_get {V} (k : jsstring) (m : Map V) : option V :=
  match m with
  | [] => None
  | (k', v) :: m' => if str_eqb k k' then Some v else map_get k m'
  end.

(** [m.set(k, v)]: an existing key keeps its place and takes the new
    value, a new key goes to the end. *)
Fixpoint map_set {V} (k : jsstring) (v : V) (m : Map V) : Map V :=
  match m with
  | [] => [(k, v)]
  | (k', v') :: m' =>
      if str_eqb k k' then (k', v) :: m' else (k', v') :: map_set k v m'
  end.

(** ** scripts/verify-transfers *)

Record VerificationResult := mkVerificationResult {
  vr_address : Address;
  startBalance : Z;
  expectedAmount : Z;
  endBalance : Z;
  calculatedEnd : Z;
  matches : bool;
  difference : option Z
}.

(** [x || 0n]: [undefined] and [0n] are the falsy values of the type. *)
Definition or_0n (x : option Z) : Z :=
  match x with
  | Some v => if v =? 0 then 0 else v
  | None => 0
  end.

(** One parsed CSV record: its columns. *)
Definition CsvRecord := list jsstring.

(** One turn of the loop: [record[1].replace] and [BigInt] come first,
    [record[0].toLowerCase()] after them; a missing column is a
    [TypeError], an amount that [BigInt] refuses a [SyntaxError]. *)
Definition loadRecipients_step (recipientMap : Map Z) (record : CsvRecord)
    : Error + Map Z :=
  match nth_error record 1 with
  | None => inl TypeError
  | Some col =>
      match BigInt (remove_all is_comma col) with
      | None => inl SyntaxError
      | Some amount =>
          match nth_error record 0 with
          | None => inl TypeError
          | Some address =>
              inr (map_set (toLowerCase address) amount recipientMap)
          end
      end
  end.

Fixpoint loadRecipients_from (recipientMap : Map Z) (records : list CsvRecord)
    : Error + Map Z :=
  match records with
  | [] => inr recipientMap
  | record :: records' =>
      match loadRecipients_step recipientMap record with
      | inr m => loadRecipients_from m records'
      | inl e => inl e
      end
  end.

(** [loadRecipients] after the CSV text has been split into records. *)
Definition loadRecipients (records : list CsvRecord) : Error + Map Z :=
  loadRecipients_from [] records.

Definition verifyTransfers_entry (startBalances endBalances : Map Z)
    (entry : jsstring * Z) : VerificationResult :=
  let '(address, expectedAmount) := entry in
  let startBalance := or_0n (map_get address startBalances) in
  let endBalance := or_0n (map_get address endBalances) in
  let calculatedEnd := startBalance + expectedAmount in
  let matches := endBalance =? calculatedEnd in
  let difference := if matches then None else Some (endBalance - calculatedEnd) in
  mkVerificationResult address startBalance expectedAmount endBalance
    calculatedEnd matches difference.

Definition verifyTransfers (startBalances endBalances recipients : Map Z)
    : list VerificationResult :=
  map (verifyTransfers_entry startBalances endBalances) recipients.

(** ** Decimal text of an integer ([BigInt.prototype.toString]) *)

(** Decimal text of a non-negative integer, as [n.toString()] writes
    it. *)
Definition digit_char (d : Z) : jschar := Z.to_N (48 + d).

Fixpoint decimal_fuel (fuel : nat) (n : Z) : jsstring :=
  match fuel with
  | O => []
  | S fuel' =>
      if n <? 10 then [digit_char n]
      else decimal_fuel fuel' (n / 10) ++ [digit_char (n mod 10)]
  end.

Definition decimal (n : Z) : jsstring :=
  decimal_fuel (S (Z.to_nat (Z.log2 n))) n.

Definition bigint_to_string (z : Z) : jsstring :=
  if z <? 0 then ch_minus :: decimal (- z) else decimal z.

(** ** contracts/BulkSender.sol: [bulkSendERC20Different]

    Addresses and amounts are the [uint160] and [uint256] values of the
    call.  The token is an external contract: the function is modelled by
    the token calls it makes when none of them reverts, or by its revert
    reason. *)

Inductive TokenCall : Type :=
| SafeTransferFrom (from to : Z) (value : Z)
| SafeTransfer (to : Z) (value : Z).

Record BulkSender := mkBulkSender {
  this : Z;
  paused : bool;
  recipientLimit : Z
}.

Definition uint256_max : Z := 2 ^ 256 - 1.

(** First loop: every amount positive, checked sum. *)
Fixpoint sum_amounts (amounts : list Z) (totalAmount : Z) : string + Z :=
  match amounts with
  | [] => inr totalAmount
  | a :: rest =>
      if negb (a >? 0) then inl "BulkSender: Amount must be greater than 0"%string
      else if totalAmount + a >? uint256_max then inl "panic: arithmetic overflow"%string
      else sum_amounts rest (totalAmount + a)
  end.

(** Second loop: one [safeTransfer] per position. *)
Fixpoint distribute (recipients amounts : list Z) : string + list TokenCall :=
  match recipients, amounts with
  | r :: recipients', a :: amounts' =>
      if r =? 0 then inl "BulkSender: Invalid recipient"%string
      else match distribute recipients' amounts' with
           | inr calls => inr (SafeTransfer r a :: calls)
           | inl reason => inl reason
           end
  | _, _ => inr []
  end.

Definition bulkSendERC20Different (c : BulkSender) (sender token : Z)
    (allowance senderBalance : Z) (recipients amounts : list Z)
    : string + list TokenCall :=
  if paused c then inl "EnforcedPause"%string
  else if negb (Z.of_nat (length recipients) >? 0)
  then inl "BulkSender: Empty array"%string
  else if negb (Z.of_nat (length recipients) <=? recipientLimit c)
  then inl "BulkSender: Exceeds recipient limit"%string
  else if negb (length recipients =? length amounts)%nat
  then inl "BulkSender: Array length mismatch"%string
  else match sum_amounts amounts 0 with
       | inl reason => inl reason
       | inr totalAmount =>
           if token =? 0 then inl "BulkSender: Invalid token address"%string
           else if negb (totalAmount >? 0)
           then inl "BulkSender: Total amount must be greater than 0"%string
           else if negb (allowance >=? totalAmount)
           then inl "BulkSender: Insufficient allowance"%string
           else if negb (senderBalance >=? totalAmount)
           then inl "BulkSender: Insufficient balance"%string
           else match distribute recipients amounts with
                | inl reason => inl reason
                | inr calls =>
                    inr (SafeTransferFrom sender (this c) totalAmount :: calls)
                end
       end.

(** ** The outside world

    The scripts talk to a token contract, the bulk sender contract, a
    public client and the random number generator.  Each such call is a
    function of the state of the world that answers or throws and leaves a
    new state of the world.  [Chain] is that interface; the contract
    handles and the signer of the source are fixed by the instance. *)

Inductive ReceiptStatus : Type := success | reverted.

Record Receipt := mkReceipt { status : ReceiptStatus; blockNumber : Z }.

Class Chain (W : Type) : Type := {
  (* tokenContract.read.balanceOf([account]) *)
  read_balanceOf : Address -> W -> (Error + Z) * W;
  (* tokenContract.read.allowance([owner, spender]) *)
  read_allowance : Address -> Address -> W -> (Error + Z) * W;
  (* tokenContract.write.approve([spender, amount], { account }) *)
  write_approve : Address -> Z -> W -> (Error + Hash) * W;
  (* publicClient.waitForTransactionReceipt({ hash, confirmations: 1 }) *)
  waitForTransactionReceipt : Hash -> W -> (Error + Receipt) * W;
  (* bulkSenderContract.simulate.bulkSendERC20Different([token, recipients, amounts]) *)
  simulate_bulkSend : list Address -> list Z -> W -> (Error + unit) * W;
  (* bulkSenderContract.estimateGas.bulkSendERC20Different(...) *)
  estimateGas_bulkSend : list Address -> list Z -> W -> (Error + Z) * W;
  (* bulkSenderContract.write.bulkSendERC20Different(..., { account, gas }) *)
  write_bulkSend : list Address -> list Z -> Z -> W -> (Error + Hash) * W;
  (* Math.random(): the environment's next draw *)
  Math_random : W -> N * W
}.

(** What the run does to the world and prints, in the order it happens. *)
Inductive ChainCall : Type :=
| CallBalanceOf (account : Address)
| CallAllowance (owner spender : Address)
| CallApprove (spender : Address) (value : Z)
| CallWaitReceipt (hash : Hash)
| CallSimulate (recipients : list Address) (amounts : list Z)
| CallEstimateGas (recipients : list Address) (amounts : list Z)
| CallBulkSend (recipients : list Address) (amounts : list Z) (gas : Z)
| CallRandom.

Inductive Level : Type := LogLevel | WarnLevel | ErrorLevel.

Inductive LogArg : Type :=
| ArgZ (z : Z)
| ArgS (s : jsstring)
| ArgE (e : Error).

Inductive Event : Type :=
| Call (c : ChainCall)
| Console (level : Level) (template : string) (args : list LogArg).

Record State (W : Type) := mkState { world : W; trace : list Event }.
Arguments mkState {W} _ _.
Arguments world {W} _.
Arguments trace {W} _.

(** The result of running a piece of code: it returns, it throws, or it is
    still running when the iteration budget of a loop is used up. *)
Inductive Outcome (A : Type) : Type :=
| Returned (a : A)
| Thrown (e : Error)
| Running.
Arguments Returned {A} _.
Arguments Thrown {A} _.
Arguments Running {A}.

Definition M (W A : Type) : Type := State W -> Outcome A * State W.

Definition ret {W A} (a : A) : M W A := fun st => (Returned a, st).

Definition bind {W A B} (c : M W A) (k : A -> M W B) : M W B :=
  fun st =>
    match c st with
    | (Returned a, st') => k a st'
    | (Thrown e, st') => (Thrown e, st')
    | (Running, st') => (Running, st')
    end.

Definition throw {W A} (e : Error) : M W A := fun st => (Thrown e, st).

Definition running {W A} : M W A := fun st => (Running, st).

(** [try { body } catch (e) { handler }]: the handler starts from the
    state in which the body threw. *)
Definition try_catch {W A} (body : M W A) (handler : Error -> M W A) : M W A :=
  fun st =>
    match body st with
    | (Thrown e, st') => handler e st'
    | other => other
    end.

Declare Scope chain_scope.
Delimit Scope chain_scope with chain.
Notation "x <- c ;; k" := (bind c (fun x => k))
  (at level 61, c at next level, right associativity) : chain_scope.
Notation "c ;; k" := (bind c (fun _ => k))
  (at level 61, right associativity) : chain_scope.
Local Open Scope chain_scope.

Definition emit {W} (ev : Event) : M W unit :=
  fun st => (Returned tt, mkState (world st) (trace st ++ [ev])).

Definition console {W} (level : Level) (template : string)
    (args : list LogArg) : M W unit :=
  emit (Console level template args).

(** A call to a collaborator: recorded, then answered by the world. *)
Definition call {W A} (c : ChainCall) (op : W -> (Error + A) * W) : M W A :=
  fun st =>
    let '(answer, w') := op (world st) in
    let st' := mkState w' (trace st ++ [Call c]) in
    match answer with
    | inr a => (Returned a, st')
    | inl e => (Thrown e, st')
    end.

Definition balanceOf {W} `{Chain W} (account : Address) : M W Z :=
  call (CallBalanceOf account) (read_balanceOf account).

Definition allowance {W} `{Chain W} (owner spender : Address) : M W Z :=
  call (CallAllowance owner spender) (read_allowance owner spender).

Definition approve {W} `{Chain W} (spender : Address) (value : Z) : M W Hash :=
  call (CallApprove spender value) (write_approve spender value).

Definition waitReceipt {W} `{Chain W} (hash : Hash) : M W Receipt :=
  call (CallWaitReceipt hash) (waitForTransactionReceipt hash).

Definition simulate {W} `{Chain W} (recipients : list Address)
    (amounts : list Z) : M W unit :=
  call (CallSimulate recipients amounts) (simulate_bulkSend recipients amounts).

Definition estimateGas {W} `{Chain W} (recipients : list Address)
    (amounts : list Z) : M W Z :=
  call (CallEstimateGas recipients amounts)
       (estimateGas_bulkSend recipients amounts).

Definition bulkSend {W} `{Chain W} (recipients : list Address)
    (amounts : list Z) (gas : Z) : M W Hash :=
  call (CallBulkSend recipients amounts gas)
       (write_bulkSend recipients amounts gas).

(** [Math.floor(Math.random() * n)].  [Math.random()] lies in [0, 1), so
    the result is an index below [n] that the environment chooses (and 0
    when [n] is 0); the raw draw of the world is reduced modulo [n] to say
    so. *)
Definition random_index {W} `{Chain W} (n : nat) : M W nat :=
  fun st =>
    let '(raw, w') := Math_random (world st) in
    let index := match n with
                 | O => O
                 | S _ => (N.to_nat raw mod n)%nat
                 end in
    (Returned index, mkState w' (trace st ++ [Call CallRandom])).

(** The chain calls of a trace, in order. *)
Definition calls_of (tr : list Event) : list ChainCall :=
  flat_map (fun ev => match ev with
                      | Call c => [c]
                      | Console _ _ _ => []
                      end) tr.

(** ** scripts/helpers/contractHelpers.ts *)

Definition checkTokenBalance {W} `{Chain W} (signer : Address)
    (requiredAmount : Z) : M W Z :=
  balance <- balanceOf signer ;;
  if balance <? requiredAmount
  then throw (InsufficientTokenBalance requiredAmount balance)
  else
    console LogLevel "Token balance: {}" [ArgZ balance] ;;
    ret balance.

Definition waitForTransactionConfirmation {W} `{Chain W} (hash : Hash)
    : M W Receipt :=
  console LogLevel "Waiting for transaction {} to be confirmed..." [ArgS hash] ;;
  receipt <- waitReceipt hash ;;
  match status receipt with
  | reverted => throw (TransactionReverted hash)
  | success =>
      console LogLevel "Transaction {} confirmed in block {}"
        [ArgS hash; ArgZ (blockNumber receipt)] ;;
      ret receipt
  end.

Definition checkTokenAllowance {W} `{Chain W} (signer spender : Address)
    (requiredAmount : Z) : M W Z :=
  currentAllowance <- allowance signer spender ;;
  console LogLevel "Current allowance: {}" [ArgZ currentAllowance] ;;
  (if currentAllowance <? requiredAmount then
     console LogLevel
       "Insufficient allowance. Approving {} tokens for BulkSender..."
       [ArgZ requiredAmount] ;;
     (if currentAllowance >? 0 then
        console LogLevel "Resetting existing allowance to 0..." [] ;;
        resetHash <- approve spender 0 ;;
        console LogLevel "Reset approval transaction: {}" [ArgS resetHash] ;;
        waitForTransactionConfirmation resetHash ;;
        ret tt
      else ret tt) ;;
     approvalHash <- approve spender requiredAmount ;;
     console LogLevel "Approval transaction: {}" [ArgS approvalHash] ;;
     waitForTransactionConfirmation approvalHash ;;
     newAllowance <- allowance signer spender ;;
     if newAllowance <? requiredAmount
     then throw (ApprovalFailed requiredAmount newAllowance)
     else
       console LogLevel "Approval successful. New allowance: {}"
         [ArgZ newAllowance]
   else
     console LogLevel "Sufficient allowance already exists: {}"
       [ArgZ currentAllowance]) ;;
  ret currentAllowance.

(** ** The gas helper *)

Definition estimateGasCosts {W} `{Chain W} (recipients : list Address)
    (amounts : list Z) : M W (option Z) :=
  try_catch
    (gasEstimate <- estimateGas recipients amounts ;;
     console LogLevel "Estimated gas: {}" [ArgZ gasEstimate] ;;
     ret (Some gasEstimate))
    (fun error =>
       console WarnLevel "Could not estimate gas:" [ArgE error] ;;
       ret None).

Definition calculateGasCosts (gasEstimate gasPrice : Z) : Z :=
  gasEstimate * gasPrice.

(** ** Floating point: [Math.ceil(n * 0.1)]

    [n] is an array length, an integer below [2^32], so its conversion to
    a double is exact.  The double nearest to 0.1 is
    [3602879701896397 / 2^55].  The product of two doubles is the exact
    product rounded to 53 significant bits, ties to even; here it is
    carried as a numerator over [2^55]. *)

Definition tenth_numerator : Z := 3602879701896397.

Definition round_to_53_bits (p : Z) : Z :=
  let bits := Z.log2 p + 1 in
  if bits <=? 53 then p
  else
    let s := bits - 53 in
    let q := Z.shiftr p s in
    let r := p - Z.shiftl q s in
    let half := 2 ^ (s - 1) in
    let q' := if ((r >? half) || ((r =? half) && Z.odd q))%bool
              then q + 1 else q in
    Z.shiftl q' s.

(** [n * 0.1] as a numerator over [2^55]. *)
Definition times_tenth (n : Z) : Z := round_to_53_bits (n * tenth_numerator).

(** [Math.ceil] of a value given as a numerator over [2^55]. *)
Definition ceil_over_2_55 (v : Z) : Z := - ((- v) / 2 ^ 55).

Definition Math_ceil_tenth (n : Z) : Z := ceil_over_2_55 (times_tenth n).

(** ** scripts/helpers/transferHelpers.ts *)

Definition Batch := list TransferData.

Definition total_amount (batches : list Batch) : Z :=
  fold_left (fun sum entry => sum + amount entry) (concat batches) 0.

(** [error.shortMessage || error.message]: the text of an error. *)
Definition error_message (e : Error) : jsstring :=
  match e with
  | ExternalError message => message
  | SyntaxError => js "SyntaxError"
  | TypeError => js "TypeError"
  | InvalidAmountFormat s => js "Invalid amount format: " ++ s
  | InsufficientTokenBalance required available =>
      js "Insufficient token balance. Required: " ++ bigint_to_string required
      ++ js ", Available: " ++ bigint_to_string available
  | ApprovalFailed expected got =>
      js "Approval failed. Expected: " ++ bigint_to_string expected
      ++ js ", Got: " ++ bigint_to_string got
  | TransactionReverted hash =>
      js "Transaction " ++ hash ++ js " was reverted"
  | TransferVerificationFailed a =>
      js "Transfer verification failed for " ++ a
  end.

(** [Set.prototype.add] on a set kept in insertion order. *)
Definition set_add (i : nat) (s : list nat) : list nat :=
  if existsb (Nat.eqb i) s then s else s ++ [i].

(** [samplesToCheck]: ten percent of the batch, at least 1, at most 10. *)
Definition samplesToCheck (len : nat) : Z :=
  Z.max 1 (Z.min (Math_ceil_tenth (Z.of_nat len)) 10).

(** Lines 11 to 17 of [processTransferBatches]: the total, the balance
    and allowance checks, and the log lines around them. *)
Definition precheck {W} `{Chain W} (batches : list Batch)
    (signer spender : Address) : M W unit :=
  let totalAmount := total_amount batches in
  console LogLevel "Total amount to transfer: {}" [ArgZ totalAmount] ;;
  checkTokenBalance signer totalAmount ;;
  checkTokenAllowance signer spender totalAmount ;;
  console LogLevel "Processing {} batches..."
    [ArgZ (Z.of_nat (length batches))].

(** The [for] loop of [processTransferBatches] over a single-batch
    procedure: batch [i] (from 0) is processed under the number
    [i + 1]; a batch that throws ends the loop. *)
Fixpoint forBatches {W} (single : Batch -> Z -> M W unit)
    (batches : list Batch) (i : Z) : M W unit :=
  match batches with
  | [] => ret tt
  | batch :: rest =>
      single batch (i + 1) ;;
      forBatches single rest (i + 1)
  end.

Module TransferHelpers.

Record VerificationEntry := mkVerificationEntry {
  ve_address : Address;
  ve_expectedAmount : option Z; (* [amounts[index]], [None] for undefined *)
  ve_initialBalance : Z
}.

(** The [while] loop that draws random indexes until the set has
    [samples] members; [Running] when [fuel] draws did not suffice. *)
Fixpoint selectIndexes {W} `{Chain W} (fuel : nat) (len : nat) (samples : Z)
    (selectedIndexes : list nat) : M W (list nat) :=
  if Z.of_nat (length selectedIndexes) <? samples then
    match fuel with
    | O => running
    | S fuel' =>
        randomIndex <- random_index len ;;
        selectIndexes fuel' len samples (set_add randomIndex selectedIndexes)
    end
  else ret selectedIndexes.

(** The [for ... of selectedIndexes] loop.  An index outside the array
    gives [undefined], which the contract client refuses as an address. *)
Fixpoint readInitialBalances {W} `{Chain W} (recipients : list Address)
    (amounts : list Z) (indexes : list nat)
    (verificationData : list VerificationEntry)
    : M W (list VerificationEntry) :=
  match indexes with
  | [] => ret verificationData
  | index :: rest =>
      match nth_error recipients index with
      | None => throw (ExternalError (js "Address undefined is invalid"))
      | Some address =>
          balance <- balanceOf address ;;
          readInitialBalances recipients amounts rest
            (verificationData
             ++ [mkVerificationEntry address (nth_error amounts index) balance])
      end
  end.

Definition prepareVerificationData {W} `{Chain W} (fuel : nat)
    (recipients : list Address) (amounts : list Z)
    : M W (list VerificationEntry) :=
  let samples := samplesToCheck (length recipients) in
  (* the source prints the share of the batch as a rounded floating-point
     percentage; the line is kept with the count and the batch length *)
  console LogLevel "Pre-selecting {} addresses for verification (of {})..."
    [ArgZ samples; ArgZ (Z.of_nat (length recipients))] ;;
  selectedIndexes <- selectIndexes fuel (length recipients) samples [] ;;
  readInitialBalances recipients amounts selectedIndexes [].

Fixpoint verifyEntries {W} `{Chain W} (verificationData : list VerificationEntry)
    : M W unit :=
  match verificationData with
  | [] => ret tt
  | entry :: rest =>
      currentBalance <- balanceOf (ve_address entry) ;;
      let actualIncrease := currentBalance - ve_initialBalance entry in
      match ve_expectedAmount entry with
      | Some expected =>
          if actualIncrease =? expected then
            console LogLevel "{}: {} -> {} (+{})"
              [ArgS (ve_address entry); ArgZ (ve_initialBalance entry);
               ArgZ currentBalance; ArgZ actualIncrease] ;;
            verifyEntries rest
          else
            console LogLevel "{}: Expected +{}, Got +{}"
              [ArgS (ve_address entry); ArgZ expected; ArgZ actualIncrease] ;;
            throw (TransferVerificationFailed (ve_address entry))
      | None =>
          console LogLevel "{}: Expected +undefined, Got +{}"
            [ArgS (ve_address entry); ArgZ actualIncrease] ;;
          throw (TransferVerificationFailed (ve_address entry))
      end
  end.

Definition verifyBatchTransfers {W} `{Chain W}
    (verificationData : list VerificationEntry) (batchNumber : Z) : M W unit :=
  console LogLevel "Verifying {} pre-selected recipients..."
    [ArgZ (Z.of_nat (length verificationData))] ;;
  verifyEntries verificationData ;;
  console LogLevel "Batch {} verification completed successfully"
    [ArgZ batchNumber].

(** The body of the [try] block: simulate, estimate, and (the submission
    being commented out in the source) verify. *)
Definition tryBlock {W} `{Chain W} (recipients : list Address)
    (amounts : list Z) (verificationData : list VerificationEntry)
    (batchNumber : Z) : M W unit :=
  console LogLevel "Simulating transaction..." [] ;;
  simulate recipients amounts ;;
  console LogLevel "Simulation successful" [] ;;
  console LogLevel "Estimating gas..." [] ;;
  gasEstimate <- estimateGas recipients amounts ;;
  console LogLevel "Estimated gas: {}" [ArgZ gasEstimate] ;;
  console LogLevel "Batch {} sent" [ArgZ batchNumber] ;;
  verifyBatchTransfers verificationData batchNumber.

Definition processSingleBatch {W} `{Chain W} (fuel : nat) (batch : Batch)
    (batchNumber : Z) : M W unit :=
  console LogLevel "Processing batch {} with {} recipients"
    [ArgZ batchNumber; ArgZ (Z.of_nat (length batch))] ;;
  let recipients := map address batch in
  let amounts := map amount batch in
  let batchTotal := fold_left Z.add amounts 0 in
  console LogLevel "Batch total: {}" [ArgZ batchTotal] ;;
  verificationData <- prepareVerificationData fuel recipients amounts ;;
  try_catch
    (tryBlock recipients amounts verificationData batchNumber)
    (fun error =>
       console ErrorLevel "Batch {} failed:"
         [ArgZ batchNumber; ArgS (error_message error)] ;;
       throw error).

Definition processTransferBatches {W} `{Chain W} (fuel : nat)
    (batches : list Batch) (signer spender : Address) : M W unit :=
  precheck batches signer spender ;;
  forBatches (processSingleBatch fuel) batches 0 ;;
  console LogLevel "All transfers completed successfully!" [].

End TransferHelpers.

(** ** The earlier copy of the transfer helpers (the second half of the
    unnamed source file that starts with the gas helper) *)

Module Part001.

(** [for (i < samplesToCheck)]: log the balance of a random recipient. *)
Fixpoint verifyLoop {W} `{Chain W} (recipients : list Address) (samples : nat)
    : M W unit :=
  match samples with
  | O => ret tt
  | S samples' =>
      randomIndex <- random_index (length recipients) ;;
      match nth_error recipients randomIndex with
      | None => throw (ExternalError (js "Address undefined is invalid"))
      | Some recipient =>
          balance <- balanceOf recipient ;;
          console LogLevel "Verified {}: {} tokens"
            [ArgS recipient; ArgZ balance] ;;
          verifyLoop recipients samples'
      end
  end.

Definition verifyBatchTransfers {W} `{Chain W} (recipients : list Address)
    : M W unit :=
  verifyLoop recipients (Nat.min 3 (length recipients)).

Definition tryBlock {W} `{Chain W} (recipients : list Address)
    (amounts : list Z) (batchNumber : Z) : M W unit :=
  console LogLevel "Simulating transaction..." [] ;;
  simulate recipients amounts ;;
  console LogLevel "Estimating gas..." [] ;;
  gasEstimate <- estimateGas recipients amounts ;;
  console LogLevel "Estimated gas: {}" [ArgZ gasEstimate] ;;
  console LogLevel "Executing transaction..." [] ;;
  hash <- bulkSend recipients amounts
            (gasEstimate + Z.quot gasEstimate 10) ;;
  console LogLevel "Batch {} completed. TX: {}" [ArgZ batchNumber; ArgS hash] ;;
  verifyBatchTransfers recipients.

Definition processSingleBatch {W} `{Chain W} (batch : Batch)
    (batchNumber : Z) : M W unit :=
  console LogLevel "Processing batch {} with {} recipients"
    [ArgZ batchNumber; ArgZ (Z.of_nat (length batch))] ;;
  let recipients := map address batch in
  let amounts := map amount batch in
  let batchTotal := fold_left Z.add amounts 0 in
  console LogLevel "Batch total: {}" [ArgZ batchTotal] ;;
  try_catch
    (tryBlock recipients amounts batchNumber)
    (fun error =>
       (if includes (error_message error) (js "simulation")
        then console ErrorLevel "Batch {} simulation failed:"
               [ArgZ batchNumber; ArgS (error_message error)]
        else console ErrorLevel "Batch {} execution failed:"
               [ArgZ batchNumber; ArgE error]) ;;
       throw error).

Definition processTransferBatches {W} `{Chain W}
    (batches : list Batch) (signer spender : Address) : M W unit :=
  precheck batches signer spender ;;
  forBatches processSingleBatch batches 0 ;;
  console LogLevel "All transfers completed successfully!" [].

End Part001.

(** ** Reference notions used in the statements *)

(** The balance of an address in a snapshot, zero when the address is
    absent. *)
Definition balance_or_zero (a : Address) (m : Map Z) : Z :=
  match map_get a m with
  | Some v => v
  | None => 0
  end.

(** Number of entries of a map stored under a key. *)
Definition entries_for {V} (k : jsstring) (m : Map V) : nat :=
  length (filter (fun kv => str_eqb k (fst kv)) m).

(** Keys are unique: no key has more than one entry. *)
Definition unique_keys {V} (m : Map V) : Prop :=
  forall k, (entries_for k m <= 1)%nat.

(** The batch at position [j] for batch size [b], and the number of
    batches: the length divided by the batch size, rounded up. *)
Definition batch_at {T} (b : nat) (array : list T) (j : nat) : list T :=
  firstn b (skipn (j * b) array).

Definition batch_count {T} (b : nat) (array : list T) : nat :=
  ((length array + b - 1) / b)%nat.

(** Thousands separators: a comma before every group of three digits,
    counted from the right. *)
Fixpoint group3_rev (k : nat) (rev_digits : jsstring) : jsstring :=
  match rev_digits with
  | [] => []
  | c :: rest =>
      if (k =? 3)%nat then ch_comma :: c :: group3_rev 1 rest
      else c :: group3_rev (S k) rest
  end.

Definition with_thousands (digits : jsstring) : jsstring :=
  rev (group3_rev 0 (rev digits)).

(** The transfers of a call trace that go to an address, and what a
    standard token credits for them. *)
Definition transfers_to (x : Z) (calls : list TokenCall) : list Z :=
  flat_map (fun call => match call with
                        | SafeTransfer to value => if to =? x then [value] else []
                        | SafeTransferFrom _ _ _ => []
                        end) calls.

Definition credited (x : Z) (calls : list TokenCall) : Z :=
  fold_right Z.add 0 (transfers_to x calls).

(** What a well-formed CSV record contributes to the recipient map: the
    lowercased first column and the amount in the second. *)
Definition record_entry (record : CsvRecord) : option (jsstring * Z) :=
  match nth_error record 0, nth_error record 1 with
  | Some address, Some col =>
      match BigInt (remove_all is_comma col) with
      | Some amount => Some (toLowerCase address, amount)
      | None => None
      end
  | _, _ => None
  end.

Definition well_formed (record : CsvRecord) : Prop :=
  exists k v, record_entry record = Some (k, v).

Definition has_key (k : jsstring) (record : CsvRecord) : Prop :=
  exists v, record_entry record = Some (k, v).

(** The same product by the IEEE 754 specification of the Standard
    Library ([SpecFloat]), for comparison: the double of [n] times the
    double nearest to 0.1, brought over the denominator [2^200]. *)
Definition binary64_times_tenth (n : Z) : option Z :=
  match SFmul 53 1024 (binary_normalize 53 1024 n 0 false)
              (S754_finite false 3602879701896397 (-55)) with
  | S754_zero _ => Some 0
  | S754_finite false m e =>
      if e + 200 <? 0 then None else Some (Z.pos m * 2 ^ (e + 200))
  | _ => None
  end.

(** The world answers an allowance read with [A]. *)
Definition reads_allowance {W} `{Chain W} (signer spender : Address)
    (w : W) (A : Z) (w' : W) : Prop :=
  read_allowance signer spender w = (inr A, w').

(** The world accepts an approve transaction, and its receipt, when
    waited for, is not reverted. *)
Definition accepted_and_confirmed {W} `{Chain W} (spender : Address)
    (value : Z) (w : W) (hash : Hash) (w' : W) : Prop :=
  exists w1 receipt,
    write_approve spender value w = (inr hash, w1)
    /\ waitForTransactionReceipt hash w1 = (inr receipt, w')
    /\ status receipt = success.

(** The approve transactions among chain calls. *)
Definition approve_writes (calls : list ChainCall) : list (Address * Z) :=
  flat_map (fun c => match c with
                     | CallApprove spender value => [(spender, value)]
                     | _ => []
                     end) calls.

(** The bulk transfer submissions among chain calls. *)
Definition submissions (calls : list ChainCall)
    : list (list Address * list Z * Z) :=
  flat_map (fun c => match c with
                     | CallBulkSend recipients amounts gas =>
                         [(recipients, amounts, gas)]
                     | _ => []
                     end) calls.

(** [clamp lo hi x] and the quotient rounded up, as the specification
    writes the sample count: [clamp 1 10 (ceil_div n 10)]. *)
Definition clamp (lo hi x : Z) : Z := Z.max lo (Z.min x hi).

Definition ceil_div (n d : Z) : Z := (n + d - 1) / d.

(** The indexes that the next [k] draws of the world give for an array of
    length [len]. *)
Fixpoint draws {W} `{Chain W} (k : nat) (len : nat) (st : State W) : list nat :=
  match k with
  | O => []
  | S k' =>
      match random_index len st with
      | (Returned i, st') => i :: draws k' len st'
      | (_, _) => []
      end
  end.

(** A computation only appends to the trace, and every event it appends
    satisfies [P]. *)
Definition emits {W A} (P : Event -> Prop) (c : M W A) : Prop :=
  forall st r st',
    c st = (r, st') ->
    exists evs, trace st' = trace st ++ evs /\ Forall P evs.

(** The two log lines that carry a batch number. *)
Definition batch_header (batchNumber : Z) (len : nat) : Event :=
  Console LogLevel "Processing batch {} with {} recipients"
    [ArgZ batchNumber; ArgZ (Z.of_nat len)].

Definition batch_failed (batchNumber : Z) (e : Error) : Event :=
  Console ErrorLevel "Batch {} failed:"
    [ArgZ batchNumber; ArgS (error_message e)].

Definition is_batch_header (ev : Event) : bool :=
  match ev with
  | Console LogLevel template _ =>
      String.eqb template "Processing batch {} with {} recipients"
  | _ => false
  end.

Definition is_submission (ev : Event) : bool :=
  match ev with
  | Call (CallBulkSend _ _ _) => true
  | _ => false
  end.

Definition is_receipt_wait (ev : Event) : bool :=
  match ev with
  | Call (CallWaitReceipt _) => true
  | _ => false
  end.

(** Inside a batch, after its header line, the driver prints no other
    batch header, submits nothing and waits for no receipt. *)
Definition inner_event (ev : Event) : Prop :=
  is_batch_header ev = false /\ is_submission ev = false
  /\ is_receipt_wait ev = false.



(** The sample of the batch is taken: reading the initial balances
    returns the verification data. *)
Definition sample_taken {W} `{Chain W} (fuel : nat) (batch : Batch)
    (batchNumber : Z) (st : State W)
    (data : list TransferHelpers.VerificationEntry) (st' : State W) : Prop :=
  TransferHelpers.prepareVerificationData fuel
    (map address batch) (map amount batch)
    (mkState (world st)
       (trace st
        ++ [batch_header batchNumber (length batch);
            Console LogLevel "Batch total: {}"
              [ArgZ (fold_left Z.add (map amount batch) 0)]]))
  = (Returned data, st').

(** ** A scripted world

    A test double for the collaborators: every kind of call answers with
    the next entry of its script and, once the script is used up, with a
    fixed default. *)

Record Stub := mkStub {
  balances : list (Error + Z);
  allowances : list (Error + Z);
  approvals : list (Error + Hash);
  receipts : list (Error + Receipt);
  simulations : list (Error + unit);
  estimates : list (Error + Z);
  sends : list (Error + Hash);
  randoms : list N
}.

Definition next {A} (default : A) (script : list A) : A * list A :=
  match script with
  | [] => (default, [])
  | a :: rest => (a, rest)
  end.

Definition stub_balanceOf (_ : Address) (w : Stub) : (Error + Z) * Stub :=
  let '(a, rest) := next (inr 0) (balances w) in
  (a, mkStub rest (allowances w) (approvals w) (receipts w) (simulations w)
        (estimates w) (sends w) (randoms w)).

Definition stub_allowance (_ _ : Address) (w : Stub) : (Error + Z) * Stub :=
  let '(a, rest) := next (inr 0) (allowances w) in
  (a, mkStub (balances w) rest (approvals w) (receipts w) (simulations w)
        (estimates w) (sends w) (randoms w)).

Definition stub_approve (_ : Address) (_ : Z) (w : Stub) : (Error + Hash) * Stub :=
  let '(a, rest) := next (inr (js "0xa")) (approvals w) in
  (a, mkStub (balances w) (allowances w) rest (receipts w) (simulations w)
        (estimates w) (sends w) (randoms w)).

Definition stub_receipt (_ : Hash) (w : Stub) : (Error + Receipt) * Stub :=
  let '(a, rest) := next (inr (mkReceipt success 1)) (receipts w) in
  (a, mkStub (balances w) (allowances w) (approvals w) rest (simulations w)
        (estimates w) (sends w) (randoms w)).

Definition stub_simulate (_ : list Address) (_ : list Z) (w : Stub)
    : (Error + unit) * Stub :=
  let '(a, rest) := next (inr tt) (simulations w) in
  (a, mkStub (balances w) (allowances w) (approvals w) (receipts w) rest
        (estimates w) (sends w) (randoms w)).

Definition stub_estimateGas (_ : list Address) (_ : list Z) (w : Stub)
    : (Error + Z) * Stub :=
  let '(a, rest) := next (inr 21000) (estimates w) in
  (a, mkStub (balances w) (allowances w) (approvals w) (receipts w)
        (simulations w) rest (sends w) (randoms w)).

Definition stub_bulkSend (_ : list Address) (_ : list Z) (_ : Z) (w : Stub)
    : (Error + Hash) * Stub :=
  let '(a, rest) := next (inr (js "0x5e")) (sends w) in
  (a, mkStub (balances w) (allowances w) (approvals w) (receipts w)
        (simulations w) (estimates w) rest (randoms w)).

Definition stub_random (w : Stub) : N * Stub :=
  let '(a, rest) := next 0%N (randoms w) in
  (a, mkStub (balances w) (allowances w) (approvals w) (receipts w)
        (simulations w) (estimates w) (sends w) rest).

#[export] Instance Stub_Chain : Chain Stub := {
  read_balanceOf := stub_balanceOf;
  read_allowance := stub_allowance;
  write_approve := stub_approve;
  waitForTransactionReceipt := stub_receipt;
  simulate_bulkSend := stub_simulate;
  estimateGas_bulkSend := stub_estimateGas;
  write_bulkSend := stub_bulkSend;
  Math_random := stub_random
}.

(** A stub with every script empty, and a fresh state around a stub. *)
Definition quiet : Stub := mkStub [] [] [] [] [] [] [] [].

Definition fresh (w : Stub) : State Stub := mkState w [].

(** ** Scenarios on the scripted world *)

Definition the_signer : Address := js "0x00000000000000000000000000000000000000f1".
Definition the_spender : Address := js "0x00000000000000000000000000000000000000f2".
Definition alice : Address := js "0x00000000000000000000000000000000000000a1".
Definition bob : Address := js "0x00000000000000000000000000000000000000b2".
Definition carol : Address := js "0x00000000000000000000000000000000000000c3".

Definition to_alice : Batch := [mkTransferData alice 5].
Definition to_bob : Batch := [mkTransferData bob 7].
Definition to_carol : Batch := [mkTransferData carol 9].

Definition execution_reverted : Error := ExternalError (js "execution reverted").
Definition cannot_estimate : Error := ExternalError (js "cannot estimate gas").

(** The sender holds 100 tokens and has approved 100; the simulation of
    the first batch is refused. *)
Definition first_simulation_refused : Stub :=
  mkStub [inr 100] [inr 100] [] [] [inl execution_reverted] [] [] [].

(** The same, but the first batch goes through (the balance of its
    recipient is read as 0 before and as 5 after) and the simulation of
    the second batch is refused. *)
Definition second_simulation_refused : Stub :=
  mkStub [inr 100; inr 0; inr 5] [inr 100] [] [] [inr tt; inl execution_reverted]
    [] [] [].

(** The gas estimation of the first batch fails. *)
Definition estimation_fails : Stub :=
  mkStub [inr 100] [inr 100] [] [] [] [inl cannot_estimate] [] [].

(* ================================================================== *)
(** * Part I, continued — further functions of the same files          *)
(* ================================================================== *)

(** ** test/helpers.ts: the rows of the recipient file *)

(** The errors of [validateAndParseRow]; each carries the row number it
    prints, [index + 1]. *)
Inductive RowError : Type :=
| MissingColumns (row : Z)
| InvalidAddressFormat (row : Z) (address : jsstring)
| InvalidAmount (row : Z) (amountString : jsstring) (cause : Error)
| AmountNotPositive (row : Z) (amount : Z).

Definition row_number (e : RowError) : Z :=
  match e with
  | MissingColumns row => row
  | InvalidAddressFormat row _ => row
  | InvalidAmount row _ _ => row
  | AmountNotPositive row _ => row
  end.

Definition is_hex_digit (c : jschar) : bool :=
  (in_range 48 57 c || in_range 97 102 c || in_range 65 70 c)%bool.

(** [/^0x[a-fA-F0-9]{40}$/.test(s)] *)
Definition is_address (s : jsstring) : bool :=
  match s with
  | c0 :: c1 :: body =>
      (N.eqb c0 48 && N.eqb c1 120 && (length body =? 40)%nat
       && forallb is_hex_digit body)%bool
  | _ => false
  end.

(** [!s] for a value that is a string or [undefined]. *)
Definition is_falsy (s : option jsstring) : bool :=
  match s with
  | None => true
  | Some [] => true
  | Some (_ :: _) => false
  end.

(** A row is the array that the CSV parser gives without a header line;
    [row[k]?.trim()] is [undefined] for a missing column. *)
Definition validateAndParseRow (row : list jsstring) (index : Z)
    : RowError + TransferData :=
  let address := option_map trim (nth_error row 0) in
  let amountString := option_map trim (nth_error row 1) in
  if (is_falsy address || is_falsy amountString)%bool
  then inl (MissingColumns (index + 1))
  else
    match address, amountString with
    | Some address, Some amountString =>
        if negb (is_address address)
        then inl (InvalidAddressFormat (index + 1) address)
        else
          match parseWeiAmount amountString with
          | inl error => inl (InvalidAmount (index + 1) amountString error)
          | inr amount =>
              if amount <=? 0 then inl (AmountNotPositive (index + 1) amount)
              else inr (mkTransferData address amount)
          end
    | _, _ => inl (MissingColumns (index + 1))
    end.

(** [parsed.data.map((row, index) => validateAndParseRow(row, index))]:
    the first row that throws ends the whole load. *)
Fixpoint loadCSVData_from (rows : list (list jsstring)) (index : Z)
    : RowError + list TransferData :=
  match rows with
  | [] => inr []
  | row :: rest =>
      match validateAndParseRow row index with
      | inl e => inl e
      | inr entry =>
          match loadCSVData_from rest (index + 1) with
          | inl e => inl e
          | inr entries => inr (entry :: entries)
          end
      end
  end.

(** What [Papa.parse] returns for the content of the file: the rows and
    the errors it met.  The parser is a library; its result is what the
    function starts from. *)
Record ParseResult := mkParseResult {
  parsed_data : list (list jsstring);
  parsed_errors : list jsstring
}.

(** The errors of [loadCSVData]: the file does not exist, the parser
    reported errors, or a row was refused. *)
Inductive LoadError : Type :=
| CsvFileNotFound
| CsvParsingErrors (errors : list jsstring)
| RowRefused (e : RowError).

(** [loadCSVData]: [file] is [None] when [fs.existsSync(csvPath)] is false
    and otherwise holds what the parser made of the content.  The two
    checks come before any row is looked at. *)
Definition loadCSVData (file : option ParseResult)
    : LoadError + list TransferData :=
  match file with
  | None => inl CsvFileNotFound
  | Some parsed =>
      if (0 <? length (parsed_errors parsed))%nat
      then inl (CsvParsingErrors (parsed_errors parsed))
      else match loadCSVData_from (parsed_data parsed) 0 with
           | inl e => inl (RowRefused e)
           | inr entries => inr entries
           end
  end.

(** ** scripts/verify-transfers: the balance snapshots and the report *)

(** One turn of the loop of [loadStartBalances] and [loadEndBalances]:
    [BigInt(record[1])] comes first ([BigInt(undefined)] is a
    [TypeError]), [record[0].toLowerCase()] after it. *)
Definition loadBalances_step (balanceMap : Map Z) (record : CsvRecord)
    : Error + Map Z :=
  match nth_error record 1 with
  | None => inl TypeError
  | Some col =>
      match BigInt col with
      | None => inl SyntaxError
      | Some balance =>
          match nth_error record 0 with
          | None => inl TypeError
          | Some address =>
              inr (map_set (toLowerCase address) balance balanceMap)
          end
      end
  end.

Fixpoint loadBalances_from (balanceMap : Map Z) (records : list CsvRecord)
    : Error + Map Z :=
  match records with
  | [] => inr balanceMap
  | record :: records' =>
      match loadBalances_step balanceMap record with
      | inr m => loadBalances_from m records'
      | inl e => inl e
      end
  end.

(** A snapshot file, line by line: an empty line, or a line with the
    record that the parser makes of it (in a file none of whose fields
    holds a line break, every record is one line). *)
Definition CsvLine := option CsvRecord.

(** [skip_empty_lines: true]: the records of the lines that are not
    empty. *)
Definition records_of (lines : list CsvLine) : list CsvRecord :=
  flat_map (fun line => match line with
                        | Some record => [record]
                        | None => []
                        end) lines.

(** [loadStartBalances]: every record of the file. *)
Definition loadStartBalances (lines : list CsvLine) : Error + Map Z :=
  loadBalances_from [] (records_of lines).

(** [loadEndBalances]: [from_line: 2] leaves out the first line of the
    file, whatever it is (a header, a record or an empty line), and the
    rest is read as by [loadStartBalances]. *)
Definition loadEndBalances (lines : list CsvLine) : Error + Map Z :=
  loadBalances_from [] (records_of (tl lines)).

(** The figures that [generateReport] prints: the matching and the
    mismatching results, and the total discrepancy of the mismatches.
    (The lines themselves, with their padding and the success rate as a
    rounded floating-point percentage, are not modelled.) *)
Definition report_matches (results : list VerificationResult)
    : list VerificationResult :=
  filter (fun r => matches r) results.

Definition report_mismatches (results : list VerificationResult)
    : list VerificationResult :=
  filter (fun r => negb (matches r)) results.

Definition totalDiscrepancy (mismatches : list VerificationResult) : Z :=
  fold_left (fun sum result => sum + or_0n (difference result)) mismatches 0.

(** ** The balance reader script: what it writes *)

Record BalanceEntry := mkBalanceEntry {
  be_address : Address;
  currentBalance : jsstring (* the raw balance, [balance.toString()] *)
}.

(** The lines of the file that [saveToCSV] writes: a header line, then
    one line per entry with its two fields; no line is empty. *)
Definition saveToCSV (balances : list BalanceEntry) : list CsvLine :=
  Some [js "address"; js "current_balance"]
  :: map (fun entry => Some [be_address entry; currentBalance entry]) balances.

(** ** contracts/BulkSender.sol: the equal-amount call and the owner's
    functions *)

Fixpoint distributeEqual (recipients : list Z) (amount : Z)
    : string + list TokenCall :=
  match recipients with
  | [] => inr []
  | r :: recipients' =>
      if r =? 0 then inl "BulkSender: Invalid recipient"%string
      else match distributeEqual recipients' amount with
           | inr calls => inr (SafeTransfer r amount :: calls)
           | inl reason => inl reason
           end
  end.

Definition bulkSendERC20Equal (c : BulkSender) (sender token : Z)
    (allowance senderBalance : Z) (recipients : list Z) (amount : Z)
    : string + list TokenCall :=
  if paused c then inl "EnforcedPause"%string
  else if negb (Z.of_nat (length recipients) >? 0)
  then inl "BulkSender: Empty array"%string
  else if negb (Z.of_nat (length recipients) <=? recipientLimit c)
  then inl "BulkSender: Exceeds recipient limit"%string
  else if negb (amount >? 0)
  then inl "BulkSender: Amount must be greater than 0"%string
  else
    let totalAmount := amount * Z.of_nat (length recipients) in
    if totalAmount >? uint256_max then inl "panic: arithmetic overflow"%string
    else if token =? 0 then inl "BulkSender: Invalid token address"%string
    else if negb (totalAmount >? 0)
    then inl "BulkSender: Total amount must be greater than 0"%string
    else if negb (allowance >=? totalAmount)
    then inl "BulkSender: Insufficient allowance"%string
    else if negb (senderBalance >=? totalAmount)
    then inl "BulkSender: Insufficient balance"%string
    else match distributeEqual recipients amount with
         | inl reason => inl reason
         | inr calls =>
             inr (SafeTransferFrom sender (this c) totalAmount :: calls)
         end.

(** The state after the constructor: not paused, limit 200. *)
Definition deployed (address_of_contract : Z) : BulkSender :=
  mkBulkSender address_of_contract false 200.

(** The calls that change the state; [onlyOwner] compares the caller with
    the owner. *)
Inductive AdminCall : Type :=
| SetRecipientLimit (newLimit : Z)
| SetPaused (value : bool).

Definition admin (owner caller : Z) (call : AdminCall) (c : BulkSender)
    : string + BulkSender :=
  if negb (caller =? owner) then inl "OwnableUnauthorizedAccount"%string
  else
    match call with
    | SetRecipientLimit newLimit =>
        if negb (newLimit >? 0)
        then inl "BulkSender: Limit must be greater than 0"%string
        else inr (mkBulkSender (this c) (paused c) newLimit)
    | SetPaused true =>
        if paused c then inl "EnforcedPause"%string
        else inr (mkBulkSender (this c) true (recipientLimit c))
    | SetPaused false =>
        if paused c then inr (mkBulkSender (this c) false (recipientLimit c))
        else inl "ExpectedPause"%string
    end.

(** A sequence of calls by any callers; a call that reverts leaves the
    state as it was. *)
Fixpoint after_calls (owner : Z) (calls : list (Z * AdminCall)) (c : BulkSender)
    : BulkSender :=
  match calls with
  | [] => c
  | (caller, call) :: rest =>
      match admin owner caller call c with
      | inr c' => after_calls owner rest c'
      | inl _ => after_calls owner rest c
      end
  end.

(** The transferred values of a call trace, whoever receives them. *)
Definition sent_values (calls : list TokenCall) : list Z :=
  flat_map (fun call => match call with
                        | SafeTransfer _ value => [value]
                        | SafeTransferFrom _ _ _ => []
                        end) calls.

(** What the call pulls from the sender. *)
Definition pulled_values (calls : list TokenCall) : list Z :=
  flat_map (fun call => match call with
                        | SafeTransferFrom _ _ value => [value]
                        | SafeTransfer _ _ => []
                        end) calls.

Definition sum_list (l : list Z) : Z := fold_right Z.add 0 l.

(** [balanceMap.has(k)] *)
Definition map_has {V} (k : jsstring) (m : Map V) : bool :=
  match map_get k m with
  | Some _ => true
  | None => false
  end.

(** ** test/helpers.ts: [storeInitialBalances]

    The map is the caller's object and is changed in place, so what was
    stored before a failed read is still in it: the run gives the map as
    it is at the end together with the outcome. *)
Fixpoint storeInitialBalances {W} `{Chain W} (recipients : list Address)
    (balanceMap : Map Z) (st : State W) : Outcome unit * Map Z * State W :=
  match recipients with
  | [] => (Returned tt, balanceMap, st)
  | recipient :: rest =>
      if negb (map_has recipient balanceMap) then
        match balanceOf recipient st with
        | (Returned balance, st') =>
            storeInitialBalances rest (map_set recipient balance balanceMap) st'
        | (Thrown e, st') => (Thrown e, balanceMap, st')
        | (Running, st') => (Running, balanceMap, st')
        end
      else storeInitialBalances rest balanceMap st
  end.


(** ** Reference notions for the further properties *)

(** What an accepted row looks like. *)
Definition accepted_row (row : list jsstring) (entry : TransferData) : Prop :=
  exists a s,
    nth_error row 0 = Some a /\ nth_error row 1 = Some s
    /\ address entry = trim a
    /\ is_address (address entry) = true
    /\ parseWeiAmount (trim s) = inr (amount entry)
    /\ 0 < amount entry.

(** A record in which both recipient loaders read the same text: no white
    space around the address, neither quotes nor white space in the
    amount. *)
Definition plain_row (row : list jsstring) : Prop :=
  exists a s,
    nth_error row 0 = Some a /\ nth_error row 1 = Some s
    /\ trim a = a /\ remove_all is_quote_or_space s = s.

(** The map that holds, under each lowercased address, the amount of the
    last entry with that address. *)
Definition recipient_map (entries : list TransferData) (m : Map Z) : Map Z :=
  fold_left (fun m entry =>
               map_set (toLowerCase (address entry)) (amount entry) m)
            entries m.


(** One [safeTransfer] per position of the two arrays. *)
Definition transfers (recipients amounts : list Z) : list TokenCall :=
  map (fun ra => SafeTransfer (fst ra) (snd ra)) (combine recipients amounts).

(** The reasons with which the array checks of the contract refuse a
    call. *)
Definition array_check_reasons : list string :=
  ["BulkSender: Empty array"%string;
   "BulkSender: Exceeds recipient limit"%string;
   "BulkSender: Array length mismatch"%string;
   "BulkSender: Amount must be greater than 0"%string].

(** The accounts whose balance a list of chain calls reads. *)
Definition balance_reads (calls : list ChainCall) : list Address :=
  flat_map (fun c => match c with
                     | CallBalanceOf account => [account]
                     | _ => []
                     end) calls.


(** ** A world in which nothing moves

    Every balance and every allowance is 0 and stays 0, every
    transaction is accepted and confirmed without effect, and the random
    generator always draws 0. *)
#[export] Instance Still_Chain : Chain unit := {
  read_balanceOf := fun _ w => (inr 0, w);
  read_allowance := fun _ _ w => (inr 0, w);
  write_approve := fun _ _ w => (inr (js "0xa"), w);
  waitForTransactionReceipt := fun _ w => (inr (mkReceipt success 1), w);
  simulate_bulkSend := fun _ _ w => (inr tt, w);
  estimateGas_bulkSend := fun _ _ w => (inr 21000, w);
  write_bulkSend := fun _ _ _ w => (inr (js "0x5e"), w);
  Math_random := fun w => (0%N, w)
}.

(** Balance reads that always succeed and give, for each account, a
    balance that does not depend on the state of the world: nothing that
    happens changes a balance. *)
Definition static_balances {W} `{Chain W} (bal : Address -> Z) : Prop :=
  forall a w, fst (read_balanceOf a w) = inr (bal a).


(** An entry of the verification data whose initial balance is the
    static balance of its address and whose expected amount, if any, is
    one of the amounts. *)
Definition read_in_place (bal : Address -> Z) (amounts : list Z)
    (entry : TransferHelpers.VerificationEntry) : Prop :=
  TransferHelpers.ve_initialBalance entry
  = bal (TransferHelpers.ve_address entry)
  /\ forall x, TransferHelpers.ve_expectedAmount entry = Some x -> In x amounts.

(** The world answers a sequence of balance reads, one account after the
    other, with the given values, and is left in the state [w']. *)
Fixpoint answers_balances {W} `{Chain W} (accounts : list Address) (w : W)
    (values : list Z) (w' : W) : Prop :=
  match accounts, values with
  | [], [] => w' = w
  | a :: accounts', v :: values' =>
      exists w1,
        read_balanceOf a w = (inr v, w1)
        /\ answers_balances accounts' w1 values' w'
  | _, _ => False
  end.

(** The current balance of a sampled entry is its initial balance plus
    the amount expected for it. *)
Definition received_expected (entry : TransferHelpers.VerificationEntry)
    (currentBalance : Z) : Prop :=
  TransferHelpers.ve_expectedAmount entry
  = Some (currentBalance - TransferHelpers.ve_initialBalance entry).

(** Every balance read succeeds, in every state of the world. *)
Definition balance_reads_succeed {W} `{Chain W} : Prop :=
  forall a w, exists b w', read_balanceOf a w = (inr b, w').


(** ** contracts/BulkSender.sol: the ERC721 and ERC1155 calls

    As for the ERC20 calls, a call is modelled by the token calls it makes
    and the event it emits when none of the token calls reverts, or by its
    revert reason.  [bytes] are lists of byte values. *)

Inductive NftCall : Type :=
| Erc721SafeTransferFrom (from to tokenId : Z)
| Erc1155SafeTransferFrom (from to id value : Z) (data : list N).

Inductive BulkEvent : Type :=
| BulkERC721Transfer (token sender : Z) (tokenIds recipients : list Z)
| BulkERC1155Transfer (token sender : Z) (tokenIds amounts recipients : list Z).

(** The loop of [bulkSendERC721]. *)
Fixpoint transferERC721 (sender : Z) (recipients tokenIds : list Z)
    : string + list NftCall :=
  match recipients, tokenIds with
  | r :: recipients', tokenId :: tokenIds' =>
      if r =? 0 then inl "BulkSender: Invalid recipient"%string
      else match transferERC721 sender recipients' tokenIds' with
           | inr calls => inr (Erc721SafeTransferFrom sender r tokenId :: calls)
           | inl reason => inl reason
           end
  | _, _ => inr []
  end.

Definition bulkSendERC721 (c : BulkSender) (sender token : Z)
    (recipients tokenIds : list Z) : string + list NftCall * BulkEvent :=
  if paused c then inl "EnforcedPause"%string
  else if negb (Z.of_nat (length recipients) >? 0)
  then inl "BulkSender: Empty array"%string
  else if negb (Z.of_nat (length recipients) <=? recipientLimit c)
  then inl "BulkSender: Exceeds recipient limit"%string
  else if token =? 0 then inl "BulkSender: Invalid token address"%string
  else if negb (length recipients =? length tokenIds)%nat
  then inl "BulkSender: Array length mismatch"%string
  else match transferERC721 sender recipients tokenIds with
       | inl reason => inl reason
       | inr calls =>
           inr (calls, BulkERC721Transfer token sender tokenIds recipients)
       end.

(** The loop of [_executeERC1155Transfers]: one token id for all. *)
Fixpoint _executeERC1155Transfers (sender : Z) (recipients : list Z)
    (tokenId : Z) (amounts : list Z) (data : list N) : string + list NftCall :=
  match recipients, amounts with
  | r :: recipients', a :: amounts' =>
      if r =? 0 then inl "BulkSender: Invalid recipient"%string
      else if negb (a >? 0)
      then inl "BulkSender: Amount must be greater than 0"%string
      else match _executeERC1155Transfers sender recipients' tokenId amounts'
                   data with
           | inr calls =>
               inr (Erc1155SafeTransferFrom sender r tokenId a data :: calls)
           | inl reason => inl reason
           end
  | _, _ => inr []
  end.

(** The loop of [_executeERC1155DifferentTransfers]. *)
Fixpoint _executeERC1155DifferentTransfers (sender : Z)
    (recipients tokenIds amounts : list Z) (data : list N)
    : string + list NftCall :=
  match recipients, tokenIds, amounts with
  | r :: recipients', tokenId :: tokenIds', a :: amounts' =>
      if r =? 0 then inl "BulkSender: Invalid recipient"%string
      else if negb (a >? 0)
      then inl "BulkSender: Amount must be greater than 0"%string
      else match _executeERC1155DifferentTransfers sender recipients' tokenIds'
                   amounts' data with
           | inr calls =>
               inr (Erc1155SafeTransferFrom sender r tokenId a data :: calls)
           | inl reason => inl reason
           end
  | _, _, _ => inr []
  end.

(** [bulkSendERC1155] always passes [sameTokenId = true]: the event
    carries an array that holds the token id once per recipient. *)
Definition bulkSendERC1155 (c : BulkSender) (sender token : Z)
    (recipients : list Z) (tokenId : Z) (amounts : list Z) (data : list N)
    : string + list NftCall * BulkEvent :=
  if paused c then inl "EnforcedPause"%string
  else if negb (Z.of_nat (length recipients) >? 0)
  then inl "BulkSender: Empty array"%string
  else if negb (Z.of_nat (length recipients) <=? recipientLimit c)
  then inl "BulkSender: Exceeds recipient limit"%string
  else if token =? 0 then inl "BulkSender: Invalid token address"%string
  else if negb (length recipients =? length amounts)%nat
  then inl "BulkSender: Array length mismatch"%string
  else match _executeERC1155Transfers sender recipients tokenId amounts data with
       | inl reason => inl reason
       | inr calls =>
           let tokenIds := repeat tokenId (length recipients) in
           inr (calls, BulkERC1155Transfer token sender tokenIds amounts
                         recipients)
       end.

Definition bulkSendERC1155Different (c : BulkSender) (sender token : Z)
    (recipients tokenIds amounts : list Z) (data : list N)
    : string + list NftCall * BulkEvent :=
  if paused c then inl "EnforcedPause"%string
  else if negb (Z.of_nat (length recipients) >? 0)
  then inl "BulkSender: Empty array"%string
  else if negb (Z.of_nat (length recipients) <=? recipientLimit c)
  then inl "BulkSender: Exceeds recipient limit"%string
  else if token =? 0 then inl "BulkSender: Invalid token address"%string
  else if negb ((length recipients =? length tokenIds)%nat
                && (length tokenIds =? length amounts)%nat)
  then inl "BulkSender: Array length mismatch"%string
  else match _executeERC1155DifferentTransfers sender recipients tokenIds
               amounts data with
       | inl reason => inl reason
       | inr calls =>
           inr (calls, BulkERC1155Transfer token sender tokenIds amounts
                         recipients)
       end.

(** The tokens that a list of calls moves: for each call the account it
    takes from and the account it gives to. *)
Definition moves (calls : list NftCall) : list (Z * Z) :=
  map (fun call => match call with
                   | Erc721SafeTransferFrom from to _ => (from, to)
                   | Erc1155SafeTransferFrom from to _ _ _ => (from, to)
                   end) calls.


(** The world, in the state [w], accepts the simulation of a batch, then
    answers its gas estimation with [g], then accepts its submission
    with the gas limit [g + g / 10]. *)
Definition estimated_and_sent {W} `{Chain W} (batch : Batch) (w : W) (g : Z)
    : Prop :=
  exists w1 w2 hash w3,
    simulate_bulkSend (map address batch) (map amount batch) w = (inr tt, w1)
    /\ estimateGas_bulkSend (map address batch) (map amount batch) w1
       = (inr g, w2)
    /\ write_bulkSend (map address batch) (map amount batch)
         (g + Z.quot g 10) w2
       = (inr hash, w3).

(** The earlier copy of the driver processes the batches one after the
    other, from the state [st] to the state [st'], and [gases] holds, for
    each batch in turn, what the gas estimation of that batch returned in
    the world as it was when the batch was started. *)
Fixpoint estimated_in_turn {W} `{Chain W} (batches : list Batch) (i : Z)
    (st : State W) (gases : list Z) (st' : State W) : Prop :=
  match batches, gases with
  | [], [] => st' = st
  | batch :: rest, g :: gases' =>
      exists st1,
        Part001.processSingleBatch batch (i + 1) st = (Returned tt, st1)
        /\ estimated_and_sent batch (world st) g
        /\ estimated_in_turn rest (i + 1) st1 gases' st'
  | _, _ => False
  end.


(* ================================================================== *)
(** * Part II — properties                                              *)
(* ================================================================== *)

Example BigInt_examples :
  BigInt (js "1234") = Some 1234 /\ BigInt (js " -12 ") = Some (-12) /\
  BigInt (js "0x1F") = Some 31 /\ BigInt (js "") = Some 0 /\
  BigInt (js "1.5") = None /\ BigInt (js "-") = None /\ BigInt (js "-0x1") = None.
Proof. repeat split; reflexivity. Qed.

Example parseWeiAmount_examples :
  parseWeiAmount ([32; 34]%N ++ js "1,000,000" ++ [34; 32]%N) = inr 1000000 /\
  parseWeiAmount (js "-5") = inl (InvalidAmountFormat (js "-5")) /\
  parseWeiAmount (js "1.5") = inl (InvalidAmountFormat (js "1.5")) /\
  parseWeiAmount (js "") = inl (InvalidAmountFormat (js "")).
Proof. repeat split; reflexivity. Qed.

Example createBatches_examples :
  createBatches 5 [1;2;3;4;5] 2 = Some [[1;2];[3;4];[5]] /\
  createBatches 100 [1;2;3] 0 = None /\
  createBatches 100 [1;2;3] (-1) = None.
Proof. repeat split; reflexivity. Qed.

(** ** The batch partitioner: [createBatches] *)

Section CreateBatches.
Context {T : Type}.
Implicit Types (array : list T) (B : Z).

(** On positions inside the array [slice] is [firstn] after [skipn]. *)
Lemma slice_inside array (i n : nat) :
  (i <= length array)%nat ->
  slice array (Z.of_nat i) (Z.of_nat i + Z.of_nat n)
  = firstn n (skipn i array).
Proof.
  intros Hi. unfold slice.
  destruct (Z.ltb_spec (Z.of_nat i) 0); [lia|].
  destruct (Z.ltb_spec (Z.of_nat i + Z.of_nat n) 0); [lia|].
  rewrite (Z.min_l (Z.of_nat i)) by lia. rewrite Nat2Z.id.
  destruct (Z.min_spec (Z.of_nat i + Z.of_nat n) (Z.of_nat (length array)))
    as [[Hlt ->]|[Hge ->]].
  - f_equal. lia.
  - rewrite (firstn_all2 (n := n)) by (rewrite length_skipn; lia).
    apply firstn_all2. rewrite length_skipn. lia.
Qed.

Lemma firstn_plus (n m : nat) (l : list T) :
  firstn (n + m) l = firstn n l ++ firstn m (skipn n l).
Proof.
  revert l; induction n as [|n IH]; intros l; simpl; [reflexivity|].
  destruct l as [|x l]; simpl.
  - now rewrite firstn_nil.
  - now rewrite IH.
Qed.

Lemma batch_count_gt (b : nat) array (k : nat) :
  (0 < b)%nat -> (k * b < length array)%nat -> (k < batch_count b array)%nat.
Proof.
  intros Hb Hk. unfold batch_count.
  apply Nat.div_le_lower_bound; lia.
Qed.

Lemma batch_count_le (b : nat) array (k : nat) :
  (0 < b)%nat -> (length array <= k * b)%nat -> (batch_count b array <= k)%nat.
Proof.
  intros Hb Hk. unfold batch_count.
  apply Nat.lt_succ_r, Nat.Div0.div_lt_upper_bound; lia.
Qed.

Lemma batch_count_lt_inv (b : nat) array (k : nat) :
  (0 < b)%nat -> (k < batch_count b array)%nat -> (k * b < length array)%nat.
Proof.
  intros Hb Hk.
  destruct (Nat.lt_ge_cases (k * b) (length array)) as [|Hge]; [assumption|].
  apply (batch_count_le b array k Hb) in Hge. lia.
Qed.

(** The loop, started at the [k]-th multiple of the batch size, appends
    the batches numbered [k], [k+1], ... up to the last one. *)
Lemma createBatches_loop_closed (b : nat) array :
  (0 < b)%nat ->
  forall fuel k acc,
    (length array - k * b <= fuel)%nat ->
    createBatches_loop fuel array (Z.of_nat b) (Z.of_nat (k * b)) acc
    = Some (acc ++ map (batch_at b array)
                       (seq k (batch_count b array - k))).
Proof.
  intros Hb. induction fuel as [|fuel IH]; intros k acc Hfuel.
  - simpl. destruct (Z.ltb_spec (Z.of_nat (k * b)) (Z.of_nat (length array))).
    + lia.
    + replace (batch_count b array - k)%nat with 0%nat
        by (pose proof (batch_count_le b array k Hb); lia).
      simpl. now rewrite app_nil_r.
  - simpl. destruct (Z.ltb_spec (Z.of_nat (k * b)) (Z.of_nat (length array))).
    + assert (Hk : (k < batch_count b array)%nat)
        by (apply batch_count_gt; lia).
      rewrite slice_inside by lia.
      replace (Z.of_nat (k * b) + Z.of_nat b) with (Z.of_nat (S k * b)) by lia.
      rewrite IH by lia.
      replace (batch_count b array - k)%nat
        with (S (batch_count b array - S k)) by lia.
      simpl seq. simpl map. now rewrite <- app_assoc.
    + replace (batch_count b array - k)%nat with 0%nat
        by (pose proof (batch_count_le b array k Hb); lia).
      simpl. now rewrite app_nil_r.
Qed.

Lemma createBatches_closed (b : nat) array fuel :
  (0 < b)%nat -> (length array <= fuel)%nat ->
  createBatches fuel array (Z.of_nat b)
  = Some (map (batch_at b array) (seq 0 (batch_count b array))).
Proof.
  intros Hb Hfuel. unfold createBatches.
  change 0 with (Z.of_nat (0 * b)).
  rewrite createBatches_loop_closed by (simpl; lia).
  now rewrite Nat.sub_0_r.
Qed.

Lemma concat_batches_prefix (b : nat) array (n : nat) :
  concat (map (batch_at b array) (seq 0 n)) = firstn (n * b) array.
Proof.
  induction n as [|n IH].
  - reflexivity.
  - rewrite seq_S, map_app, concat_app, IH. simpl.
    rewrite app_nil_r. unfold batch_at.
    replace (b + n * b)%nat with (n * b + b)%nat by lia.
    now rewrite firstn_plus.
Qed.

Lemma batch_at_length (b : nat) array (k : nat) :
  (0 < b)%nat -> (k < batch_count b array)%nat ->
  length (batch_at b array k)
  = if (S k <? batch_count b array)%nat then b
    else if (length array mod b =? 0)%nat then b
         else (length array mod b)%nat.
Proof.
  intros Hb Hk. unfold batch_at.
  rewrite length_firstn, length_skipn.
  pose proof (batch_count_lt_inv b array k Hb Hk) as Hin.
  destruct (Nat.ltb_spec (S k) (batch_count b array)) as [Hlt|Hge].
  - pose proof (batch_count_lt_inv b array (S k) Hb Hlt). lia.
  - assert (Hlast : (length array <= S k * b)%nat).
    { destruct (Nat.lt_ge_cases (S k * b) (length array)) as [Hc|]; [|assumption].
      apply (batch_count_gt b array (S k) Hb) in Hc. lia. }
    pose proof (Nat.div_mod_eq (length array) b) as Hdm.
    pose proof (Nat.mod_upper_bound (length array) b ltac:(lia)) as Hmod.
    destruct (Nat.eqb_spec (length array mod b) 0) as [Hz|Hnz].
    + assert (length array / b = S k)%nat by nia. nia.
    + assert (length array / b = k)%nat by nia. nia.
Qed.
End CreateBatches.

Lemma batch_count_covers {T} (b : nat) (array : list T) :
  (0 < b)%nat -> (length array <= batch_count b array * b)%nat.
Proof.
  intros Hb.
  destruct (Nat.lt_ge_cases (batch_count b array * b) (length array)) as [Hc|];
    [|assumption].
  apply (batch_count_gt b array _ Hb) in Hc. lia.
Qed.

Lemma nth_error_map_seq {A} (f : nat -> A) (n k : nat) (x : A) :
  nth_error (map f (seq 0 n)) k = Some x -> (k < n)%nat /\ x = f k.
Proof.
  intros H.
  assert (Hk : (k < n)%nat).
  { assert (Hs : nth_error (map f (seq 0 n)) k <> None) by congruence.
    apply nth_error_Some in Hs. now rewrite length_map, length_seq in Hs. }
  split; [assumption|].
  rewrite nth_error_map, nth_error_seq in H.
  destruct (Nat.ltb_spec k n); [|lia]. simpl in H. congruence.
Qed.

(** C2.  For a positive batch size the partition function returns (given
    as many loop iterations as there are entries) a list of batches whose
    concatenation is the input, same elements in the same order, hence the same total
    count; the batch at position [k] is the contiguous run of at most [B]
    entries that starts at entry [k * B] (no gap, no overlap); no batch
    is empty; every batch but the last has exactly [B] entries and the
    last has [len mod B] entries, or [B] when [B] divides [len]. *)
Theorem createBatches_partition {T} (E : list T) (B : Z) (fuel : nat) :
  0 < B -> (length E <= fuel)%nat ->
  exists batches,
    createBatches fuel E B = Some batches
    /\ concat batches = E
    /\ length (concat batches) = length E
    /\ forall k batch,
         nth_error batches k = Some batch ->
         batch = firstn (Z.to_nat B) (skipn (k * Z.to_nat B) E)
         /\ batch <> []
         /\ Z.of_nat (length batch) =
              if (S k <? length batches)%nat then B
              else if Z.of_nat (length E) mod B =? 0 then B
                   else Z.of_nat (length E) mod B.
Proof.
  intros HB Hfuel.
  set (b := Z.to_nat B).
  assert (Hb : (0 < b)%nat) by (subst b; lia).
  assert (HBb : B = Z.of_nat b) by (subst b; lia).
  exists (map (batch_at b E) (seq 0 (batch_count b E))).
  assert (Hcat : concat (map (batch_at b E) (seq 0 (batch_count b E))) = E).
  { rewrite concat_batches_prefix. apply firstn_all2, batch_count_covers, Hb. }
  split; [|split; [|split]].
  - rewrite HBb. now apply createBatches_closed.
  - exact Hcat.
  - now rewrite Hcat.
  - intros k batch Hk.
    apply nth_error_map_seq in Hk. destruct Hk as [Hk ->].
    rewrite length_map, length_seq.
    pose proof (batch_at_length b E k Hb Hk) as Hlen.
    split; [reflexivity|]. split.
    + intros Hnil. rewrite Hnil in Hlen. simpl in Hlen.
      destruct (S k <? batch_count b E)%nat; [lia|].
      destruct (Nat.eqb_spec (length E mod b) 0); lia.
    + rewrite Hlen, HBb.
      destruct (S k <? batch_count b E)%nat; [reflexivity|].
      rewrite <- Nat2Z.inj_mod.
      destruct (Nat.eqb_spec (length E mod b) 0) as [Hz|Hnz].
      * rewrite Hz. reflexivity.
      * destruct (Z.eqb_spec (Z.of_nat (length E mod b)) 0); [lia|reflexivity].
Qed.

Lemma createBatches_partition_witness :
  exists batches,
    createBatches 5 [1; 2; 3; 4; 5] 2 = Some batches
    /\ concat batches = [1; 2; 3; 4; 5].
Proof.
  destruct (createBatches_partition [1; 2; 3; 4; 5] 2 5
              ltac:(lia) ltac:(simpl; lia)) as (batches & Hrun & Hcat & _).
  exists batches. split; assumption.
Defined.

(** With a batch size that is zero or negative the index never passes the
    length of a non-empty array. *)
Lemma createBatches_loop_stuck {T} (array : list T) (B : Z) :
  B <= 0 -> array <> [] ->
  forall fuel i batches, i <= 0 ->
    createBatches_loop fuel array B i batches = None.
Proof.
  intros HB Hne.
  assert (Hlen : 0 < Z.of_nat (length array))
    by (destruct array; [congruence | simpl; lia]).
  induction fuel as [|fuel IH]; intros i batches Hi; simpl;
    destruct (Z.ltb_spec i (Z.of_nat (length array))); try lia.
  - reflexivity.
  - apply IH. lia.
Qed.

(** C10.  Under the precondition [1 <= batchSize] the loop of the
    partition function ends for every array: as many iterations as the
    array has entries are enough, since the index grows by the batch size
    each time.  For a batch size of zero or less and a non-empty array the
    loop is still running after any number of iterations. *)
Theorem createBatches_termination {T} (array : list T) (B : Z) :
  (1 <= B -> forall fuel, (length array <= fuel)%nat ->
     exists batches, createBatches fuel array B = Some batches)
  /\ (B <= 0 -> array <> [] ->
      forall fuel, createBatches fuel array B = None).
Proof.
  split.
  - intros HB fuel Hfuel.
    replace B with (Z.of_nat (Z.to_nat B)) by lia.
    rewrite createBatches_closed by lia. eauto.
  - intros HB Hne fuel. unfold createBatches.
    now apply createBatches_loop_stuck.
Qed.

Lemma createBatches_termination_witness :
  (exists batches, createBatches 3 [1; 2; 3] 2 = Some batches)
  /\ createBatches 1000 [1; 2; 3] 0 = None.
Proof.
  split.
  - apply (proj1 (createBatches_termination [1; 2; 3] 2));
      [lia | simpl; lia].
  - apply (proj2 (createBatches_termination [1; 2; 3] 0));
      [lia | discriminate].
Defined.

(** ** Strings and maps *)

Lemma str_eqb_spec (a b : jsstring) : reflect (a = b) (str_eqb a b).
Proof.
  revert b; induction a as [|x a IH]; intros [|y b]; simpl;
    try (constructor; congruence).
  destruct (N.eqb_spec x y) as [->|Hxy]; simpl.
  - destruct (IH b) as [->|Hab]; constructor; congruence.
  - constructor; congruence.
Qed.

Lemma str_eqb_refl (a : jsstring) : str_eqb a a = true.
Proof. now destruct (str_eqb_spec a a). Qed.

Lemma or_0n_default (a : Address) (m : Map Z) :
  or_0n (map_get a m) = balance_or_zero a m.
Proof.
  unfold or_0n, balance_or_zero. destruct (map_get a m) as [v|]; [|reflexivity].
  destruct (Z.eqb_spec v 0); congruence.
Qed.

Section MapFacts.
Context {V : Type}.
Implicit Types (m : Map V) (k : jsstring).

Lemma map_get_set_same k (v : V) m : map_get k (map_set k v m) = Some v.
Proof.
  induction m as [|[k' v'] m IH]; simpl.
  - now rewrite str_eqb_refl.
  - destruct (str_eqb_spec k k') as [->|Hne]; simpl.
    + now rewrite str_eqb_refl.
    + destruct (str_eqb_spec k k'); [contradiction | assumption].
Qed.

Lemma map_get_set_other k k' (v : V) m :
  k <> k' -> map_get k (map_set k' v m) = map_get k m.
Proof.
  intros Hne. induction m as [|[k0 v0] m IH]; simpl.
  - destruct (str_eqb_spec k k'); [contradiction | reflexivity].
  - destruct (str_eqb_spec k' k0) as [->|Hne0]; simpl.
    + destruct (str_eqb_spec k k0); [contradiction | reflexivity].
    + destruct (str_eqb_spec k k0); [reflexivity | assumption].
Qed.

Lemma entries_for_set_same k (v : V) m :
  unique_keys m -> entries_for k (map_set k v m) = 1%nat.
Proof.
  intros Hu. induction m as [|[k' v'] m IH]; unfold entries_for in *; simpl.
  - now rewrite str_eqb_refl.
  - pose proof (Hu k) as Hk. unfold entries_for in Hk. simpl in Hk.
    destruct (str_eqb_spec k k') as [->|Hne]; simpl.
    + rewrite str_eqb_refl in *. simpl in *. lia.
    + destruct (str_eqb_spec k k'); [contradiction|].
      apply IH. intros k0. specialize (Hu k0).
      unfold entries_for in *. simpl in Hu.
      destruct (str_eqb k0 k'); simpl in Hu; lia.
Qed.

Lemma entries_for_set_other k k' (v : V) m :
  k <> k' -> entries_for k (map_set k' v m) = entries_for k m.
Proof.
  intros Hne. induction m as [|[k0 v0] m IH]; unfold entries_for in *; simpl.
  - destruct (str_eqb_spec k k'); [contradiction | reflexivity].
  - destruct (str_eqb_spec k' k0) as [->|Hne0]; simpl.
    + destruct (str_eqb_spec k k0); [contradiction | reflexivity].
    + destruct (str_eqb k k0); simpl; now rewrite IH.
Qed.

Lemma unique_keys_set k (v : V) m : unique_keys m -> unique_keys (map_set k v m).
Proof.
  intros Hu k0. destruct (str_eqb_spec k0 k) as [->|Hne].
  - now rewrite entries_for_set_same.
  - rewrite entries_for_set_other by assumption. apply Hu.
Qed.

Lemma unique_keys_nil : unique_keys (@nil (jsstring * V)).
Proof. intros k. unfold entries_for. simpl. lia. Qed.
End MapFacts.

(** ** The reconciliation engine: [verifyTransfers] *)

(** C1.  The reconciliation function returns one result per entry of the
    expected-transfer map, in its order.  The result of an address has
    [matches] true exactly when its end balance (zero when absent) equals
    its start balance (zero when absent) plus the expected amount; when
    [matches] is false [difference] is present and is the signed integer
    end - (start + expected); when [matches] is true [difference] is
    absent. *)
Theorem verifyTransfers_correct (startBalances endBalances recipients : Map Z) :
  Forall2
    (fun (entry : jsstring * Z) (r : VerificationResult) =>
       let a := fst entry in
       let s := balance_or_zero a startBalances in
       let e := balance_or_zero a endBalances in
       let x := snd entry in
       vr_address r = a /\ expectedAmount r = x
       /\ startBalance r = s /\ endBalance r = e /\ calculatedEnd r = s + x
       /\ (matches r = true <-> e = s + x)
       /\ (matches r = false -> difference r = Some (e - (s + x)))
       /\ (matches r = true -> difference r = None))
    recipients
    (verifyTransfers startBalances endBalances recipients).
Proof.
  unfold verifyTransfers.
  induction recipients as [|[a x] rest IH]; simpl; constructor; [|exact IH].
  simpl. rewrite !or_0n_default.
  set (s := balance_or_zero a startBalances).
  set (e := balance_or_zero a endBalances).
  repeat split; try reflexivity.
  - intros H. now apply Z.eqb_eq.
  - intros H. now apply Z.eqb_eq.
  - intros H. now rewrite H.
  - intros H. now rewrite H.
Qed.

(** The two scenarios of the specification. *)
Example verifyTransfers_scenarios :
  let addr1 := js "0x01" in
  let addr2 := js "0x02" in
  map (fun r => (matches r, difference r))
      (verifyTransfers [(addr1, 100)] [(addr1, 150)] [(addr1, 50)])
  = [(true, None)]
  /\ map (fun r => (matches r, difference r))
       (verifyTransfers [] [(addr2, 10)] [(addr2, 30)])
     = [(false, Some (-20))].
Proof. split; reflexivity. Qed.

(** ** The recipient loader: [loadRecipients] *)

Lemma loadRecipients_step_entry (m : Map Z) (record : CsvRecord) k v :
  record_entry record = Some (k, v) ->
  loadRecipients_step m record = inr (map_set k v m).
Proof.
  unfold record_entry, loadRecipients_step.
  destruct (nth_error record 0) as [a|]; [|discriminate].
  destruct (nth_error record 1) as [c|]; [|discriminate].
  destruct (BigInt (remove_all is_comma c)); [|discriminate].
  now intros [= <- <-].
Qed.

Lemma loadRecipients_from_app (m : Map Z) (l1 l2 : list CsvRecord) :
  loadRecipients_from m (l1 ++ l2)
  = match loadRecipients_from m l1 with
    | inr m' => loadRecipients_from m' l2
    | inl e => inl e
    end.
Proof.
  revert m; induction l1 as [|r l1 IH]; intros m; simpl; [reflexivity|].
  destruct (loadRecipients_step m r); [reflexivity | apply IH].
Qed.

(** Well-formed records always load; keys stay unique; a key that no
    record mentions keeps its entry. *)
Lemma loadRecipients_from_total (records : list CsvRecord) :
  Forall well_formed records ->
  forall m, exists m',
    loadRecipients_from m records = inr m'
    /\ (unique_keys m -> unique_keys m')
    /\ forall k, Forall (fun r => ~ has_key k r) records ->
         map_get k m' = map_get k m /\ entries_for k m' = entries_for k m.
Proof.
  induction 1 as [|r records (k & v & Hr) _ IH]; intros m.
  - exists m. simpl. repeat split; auto.
  - simpl. rewrite (loadRecipients_step_entry m r k v Hr).
    destruct (IH (map_set k v m)) as (m' & Hrun & Huniq & Hkeep).
    exists m'. split; [exact Hrun|]. split.
    + intros Hu. now apply Huniq, unique_keys_set.
    + intros k0 Hno. inversion Hno as [|? ? Hr0 Hrest]; subst.
      destruct (Hkeep k0 Hrest) as [Hg He].
      assert (Hne : k0 <> k) by (intros ->; apply Hr0; now exists v).
      rewrite Hg, He. split.
      * now apply map_get_set_other.
      * now apply entries_for_set_other.
Qed.

Lemma filter_results (s e m : Map Z) (k : jsstring) :
  filter (fun r => str_eqb k (vr_address r)) (verifyTransfers s e m)
  = map (verifyTransfers_entry s e) (filter (fun kv => str_eqb k (fst kv)) m).
Proof.
  unfold verifyTransfers.
  induction m as [|[a x] m IH]; simpl; [reflexivity|].
  destruct (str_eqb k a); simpl; now rewrite IH.
Qed.

Lemma single_entry (m : Map Z) (k : jsstring) (v : Z) :
  map_get k m = Some v -> entries_for k m = 1%nat ->
  filter (fun kv => str_eqb k (fst kv)) m = [(k, v)].
Proof.
  unfold entries_for.
  induction m as [|[a x] m IH]; simpl; [discriminate|].
  destruct (str_eqb_spec k a) as [->|Hne]; simpl.
  - intros [= ->] Hlen.
    destruct (filter (fun kv => str_eqb a (fst kv)) m); [reflexivity|].
    simpl in Hlen. lia.
  - apply IH.
Qed.

Lemma combine_app {A B} (l1 l2 : list A) (r1 r2 : list B) :
  length l1 = length r1 ->
  combine (l1 ++ l2) (r1 ++ r2) = combine l1 r1 ++ combine l2 r2.
Proof.
  revert r1; induction l1 as [|a l1 IH]; intros [|b r1]; simpl;
    try discriminate; [reflexivity|].
  intros [= Hlen]. now rewrite IH.
Qed.

Lemma distribute_transfers (recipients amounts : list Z) calls (x : Z) :
  distribute recipients amounts = inr calls ->
  transfers_to x calls
  = map snd (filter (fun ra => fst ra =? x) (combine recipients amounts)).
Proof.
  revert amounts calls.
  induction recipients as [|r recipients IH]; intros [|a amounts] calls; simpl;
    try (intros [= <-]; reflexivity).
  destruct (r =? 0); [discriminate|].
  destruct (distribute recipients amounts) as [|calls'] eqn:Hd; [discriminate|].
  intros [= <-]. simpl. rewrite (IH amounts calls' Hd).
  destruct (r =? x); reflexivity.
Qed.

Lemma bulkSendERC20Different_transfers c sender token allowance senderBalance
    recipients amounts calls (x : Z) :
  bulkSendERC20Different c sender token allowance senderBalance
    recipients amounts = inr calls ->
  transfers_to x calls
  = map snd (filter (fun ra => fst ra =? x) (combine recipients amounts)).
Proof.
  unfold bulkSendERC20Different.
  repeat match goal with
         | |- context [if ?b then _ else _] => destruct b; [discriminate|]
         | |- context [match sum_amounts ?a ?t with _ => _ end] =>
             destruct (sum_amounts a t); [discriminate|]
         end.
  destruct (distribute recipients amounts) as [|calls'] eqn:Hd; [discriminate|].
  intros [= <-]. simpl. now apply distribute_transfers.
Qed.

(** C9.  When two rows of the expected-transfer source carry addresses
    that are equal up to letter case (or equal), and the second is the
    last row with that address, the recipient loader returns a map with
    exactly one entry under the lowercased address, holding the amount of
    the last row; the amounts are not added up.  The reconciliation
    engine then yields exactly one result for the address, expecting the
    last amount.  On chain it is otherwise: a successful
    [bulkSendERC20Different] makes one transfer per position, so an
    account that occupies two positions is sent both amounts. *)
Theorem loadRecipients_last_row_wins
    (before between after : list CsvRecord)
    (a1 a2 c1 c2 : jsstring) (more1 more2 : list jsstring) (v1 v2 : Z) :
  toLowerCase a1 = toLowerCase a2 ->
  BigInt (remove_all is_comma c1) = Some v1 ->
  BigInt (remove_all is_comma c2) = Some v2 ->
  Forall well_formed (before ++ between ++ after) ->
  Forall (fun r => ~ has_key (toLowerCase a1) r) after ->
  (exists m,
     loadRecipients (before ++ (a1 :: c1 :: more1) :: between
                     ++ (a2 :: c2 :: more2) :: after) = inr m
     /\ map_get (toLowerCase a1) m = Some v2
     /\ entries_for (toLowerCase a1) m = 1%nat
     /\ forall startBalances endBalances,
          filter (fun r => str_eqb (toLowerCase a1) (vr_address r))
                 (verifyTransfers startBalances endBalances m)
          = [verifyTransfers_entry startBalances endBalances
               (toLowerCase a1, v2)])
  /\ (forall c sender token allowance senderBalance x pre mid post
             amounts_pre amounts_mid amounts_post calls,
        length pre = length amounts_pre ->
        length mid = length amounts_mid ->
        ~ In x pre -> ~ In x mid -> ~ In x post ->
        bulkSendERC20Different c sender token allowance senderBalance
          (pre ++ x :: mid ++ x :: post)
          (amounts_pre ++ v1 :: amounts_mid ++ v2 :: amounts_post) = inr calls ->
        transfers_to x calls = [v1; v2] /\ credited x calls = v1 + v2).
Proof.
  intros Hcase Hv1 Hv2 Hwf Hlast. split.
  - set (k := toLowerCase a1) in *.
    assert (Hr1 : record_entry (a1 :: c1 :: more1) = Some (k, v1))
      by (unfold record_entry; simpl; now rewrite Hv1).
    assert (Hr2 : record_entry (a2 :: c2 :: more2) = Some (k, v2))
      by (unfold record_entry; simpl; rewrite Hv2; subst k; now rewrite Hcase).
    apply Forall_app in Hwf. destruct Hwf as [Hwf1 Hwf].
    apply Forall_app in Hwf. destruct Hwf as [Hwf2 Hwf3].
    unfold loadRecipients.
    destruct (loadRecipients_from_total before Hwf1 [])
      as (m1 & Hrun1 & Hu1 & _).
    specialize (Hu1 unique_keys_nil).
    destruct (loadRecipients_from_total between Hwf2 (map_set k v1 m1))
      as (m3 & Hrun3 & Hu3 & _).
    specialize (Hu3 (unique_keys_set k v1 m1 Hu1)).
    destruct (loadRecipients_from_total after Hwf3 (map_set k v2 m3))
      as (m5 & Hrun5 & Hu5 & Hkeep).
    destruct (Hkeep k Hlast) as [Hget Hent].
    exists m5.
    assert (Hg : map_get k m5 = Some v2)
      by (rewrite Hget; apply map_get_set_same).
    assert (He : entries_for k m5 = 1%nat)
      by (rewrite Hent; now apply entries_for_set_same).
    split; [|split; [exact Hg | split; [exact He|]]].
    + rewrite loadRecipients_from_app, Hrun1. simpl.
      rewrite (loadRecipients_step_entry m1 _ k v1 Hr1).
      rewrite loadRecipients_from_app, Hrun3. simpl.
      rewrite (loadRecipients_step_entry m3 _ k v2 Hr2).
      exact Hrun5.
    + intros s e. rewrite filter_results.
      now rewrite (single_entry m5 k v2 Hg He).
  - intros c sender token allowance senderBalance x pre mid post
           ap am apost calls Hlp Hlm Hpre Hmid Hpost Hrun.
    assert (Hnone : forall (l : list Z) (al : list Z), ~ In x l ->
              filter (fun ra : Z * Z => fst ra =? x) (combine l al) = []).
    { induction l as [|y l IHl]; intros [|b al] Hn; simpl; try reflexivity.
      destruct (Z.eqb_spec y x) as [->|_]; [exfalso; apply Hn; now left|].
      apply IHl. intros Hin; apply Hn; now right. }
    assert (Ht : transfers_to x calls = [v1; v2]).
    { rewrite (bulkSendERC20Different_transfers _ _ _ _ _ _ _ _ x Hrun).
      rewrite combine_app by assumption. rewrite filter_app, Hnone by assumption.
      simpl. rewrite Z.eqb_refl.
      rewrite combine_app by assumption. rewrite filter_app, Hnone by assumption.
      simpl. rewrite Z.eqb_refl. now rewrite Hnone. }
    split; [exact Ht|]. unfold credited. rewrite Ht. simpl. lia.
Qed.

Lemma loadRecipients_last_row_wins_witness :
  let calls := [SafeTransferFrom 1 9 157; SafeTransfer 7 100; SafeTransfer 8 7;
                SafeTransfer 7 50] in
  (exists m,
     loadRecipients [[js "0xAbC"; js "100"]; [js "0xdef"; js "7"];
                     [js "0xabc"; js "50"]] = inr m
     /\ map_get (js "0xabc") m = Some 50
     /\ entries_for (js "0xabc") m = 1%nat)
  /\ bulkSendERC20Different (deployed 9) 1 4 157 157 [7; 8; 7] [100; 7; 50]
     = inr calls
  /\ transfers_to 7 calls = [100; 50]
  /\ credited 7 calls = 100 + 50.
Proof.
  intros calls.
  assert (Hwf : Forall well_formed ([] ++ [[js "0xdef"; js "7"]] ++ [])).
  { repeat constructor. exists (js "0xdef"), 7. reflexivity. }
  assert (Hsent : bulkSendERC20Different (deployed 9) 1 4 157 157
                    ([] ++ 7 :: [8] ++ 7 :: [])
                    ([] ++ 100 :: [7] ++ 50 :: [])
                  = inr calls) by reflexivity.
  destruct (loadRecipients_last_row_wins
              [] [[js "0xdef"; js "7"]] []
              (js "0xAbC") (js "0xabc") (js "100") (js "50") [] [] 100 50
              eq_refl eq_refl eq_refl Hwf (Forall_nil _))
    as [(m & Hload & Hget & Hone & _) Hchain].
  split; [exists m; repeat split; assumption|].
  split; [exact Hsent|].
  apply (Hchain (deployed 9) 1 4 157 157 7 [] [8] [] [] [7] [] calls);
    [reflexivity | reflexivity | intros []
     | intros [Heq | []]; discriminate | intros [] | exact Hsent].
Defined.

(** ** The amount parser: [parseWeiAmount] *)

Lemma digit_cases (c : jschar) :
  is_digit c = true ->
  (c = 48 \/ c = 49 \/ c = 50 \/ c = 51 \/ c = 52 \/ c = 53 \/ c = 54
   \/ c = 55 \/ c = 56 \/ c = 57)%N.
Proof.
  unfold is_digit, in_range. rewrite andb_true_iff, !N.leb_le. lia.
Qed.

Ltac by_digit_cases H :=
  apply digit_cases in H;
  repeat (destruct H as [H|H]; [subst; reflexivity|]); subst; reflexivity.

Lemma digit_not_space (c : jschar) :
  is_digit c = true -> is_js_whitespace c = false.
Proof. intros H. by_digit_cases H. Qed.

Lemma digit_not_stripped (c : jschar) :
  is_digit c = true -> is_quote_or_space c = false /\ is_comma c = false.
Proof. intros H. split; by_digit_cases H. Qed.

Lemma digit_not_prefix_letter (c : jschar) :
  is_digit c = true ->
  (N.eqb c 120 || N.eqb c 88)%bool = false
  /\ (N.eqb c 111 || N.eqb c 79)%bool = false
  /\ (N.eqb c 98 || N.eqb c 66)%bool = false
  /\ N.eqb c ch_minus = false /\ N.eqb c ch_plus = false.
Proof.
  intros H. apply digit_cases in H.
  repeat (destruct H as [H|H]; [subst; repeat split; reflexivity|]).
  subst; repeat split; reflexivity.
Qed.

Lemma digit_char_spec (d : Z) :
  0 <= d < 10 ->
  is_digit (digit_char d) = true /\ digit_value 10 (digit_char d) = Some d.
Proof.
  intros Hd.
  assert (H : d = 0 \/ d = 1 \/ d = 2 \/ d = 3 \/ d = 4 \/ d = 5 \/ d = 6
              \/ d = 7 \/ d = 8 \/ d = 9) by lia.
  repeat (destruct H as [H|H]; [subst; split; reflexivity|]).
  subst; split; reflexivity.
Qed.

Lemma digits_value_snoc (radix acc : Z) (s : jsstring) (c : jschar) :
  digits_value radix acc (s ++ [c])
  = match digits_value radix acc s with
    | Some v => match digit_value radix c with
                | Some d => Some (v * radix + d)
                | None => None
                end
    | None => None
    end.
Proof.
  revert acc; induction s as [|x s IH]; intros acc; simpl.
  - now destruct (digit_value radix c).
  - destruct (digit_value radix x); [apply IH | reflexivity].
Qed.

(** The decimal text of [n] is a non-empty run of digits whose value is
    [n]. *)
Lemma decimal_fuel_spec (fuel : nat) :
  forall n, 0 <= n -> Z.log2 n < Z.of_nat fuel ->
    decimal_fuel fuel n <> []
    /\ forallb is_digit (decimal_fuel fuel n) = true
    /\ digits_value 10 0 (decimal_fuel fuel n) = Some n.
Proof.
  induction fuel as [|fuel IH]; intros n Hn Hlog.
  - pose proof (Z.log2_nonneg n). lia.
  - simpl. destruct (Z.ltb_spec n 10) as [Hlt|Hge].
    + destruct (digit_char_spec n ltac:(lia)) as [Hd Hv].
      simpl. rewrite Hd, Hv. repeat split. discriminate.
    + assert (Hq : 0 <= n / 10) by (apply Z.div_pos; lia).
      assert (Hqlog : Z.log2 (n / 10) < Z.of_nat fuel).
      { assert (Hpos : 0 < n / 10) by (apply Z.div_str_pos; lia).
        destruct (Z.log2_spec n ltac:(lia)) as [_ Hup].
        rewrite Z.pow_succ_r in Hup by apply Z.log2_nonneg.
        pose proof (Z.mul_div_le n 10 ltac:(lia)) as Hmul.
        assert (Hlt : n / 10 < 2 ^ Z.log2 n) by lia.
        apply Z.log2_lt_pow2 in Hlt; lia. }
      destruct (IH (n / 10) Hq Hqlog) as (Hne & Hall & Hval).
      destruct (digit_char_spec (n mod 10)
                  ltac:(apply Z.mod_pos_bound; lia)) as [Hd Hv].
      repeat split.
      * intros Hnil. apply app_eq_nil in Hnil. destruct Hnil; discriminate.
      * rewrite forallb_app, Hall. simpl. now rewrite Hd.
      * rewrite digits_value_snoc, Hval, Hv. f_equal.
        pose proof (Z.div_mod n 10 ltac:(lia)). lia.
Qed.

Lemma decimal_spec (n : Z) :
  0 <= n ->
  matches_digits (decimal n) = true
  /\ digits_value 10 0 (decimal n) = Some n.
Proof.
  intros Hn. unfold decimal.
  destruct (decimal_fuel_spec (S (Z.to_nat (Z.log2 n))) n Hn) as (Hne & Hall & Hv).
  { pose proof (Z.log2_nonneg n). lia. }
  split; [|exact Hv].
  unfold matches_digits.
  destruct (decimal_fuel (S (Z.to_nat (Z.log2 n))) n); [congruence | exact Hall].
Qed.

Lemma forallb_rev {A} (p : A -> bool) (l : list A) :
  forallb p (rev l) = forallb p l.
Proof.
  induction l as [|x l IH]; simpl; [reflexivity|].
  rewrite forallb_app, IH. simpl. now rewrite andb_true_r, andb_comm.
Qed.

Lemma trim_digits (s : jsstring) : forallb is_digit s = true -> trim s = s.
Proof.
  intros Hall. unfold trim.
  assert (Hdrop : forall t, forallb is_digit t = true ->
                            drop_while is_js_whitespace t = t).
  { intros [|c t] Ht; [reflexivity|]. simpl in *.
    apply andb_true_iff in Ht. destruct Ht as [Hc _].
    now rewrite (digit_not_space c Hc). }
  rewrite (Hdrop s Hall), Hdrop by now rewrite forallb_rev.
  apply rev_involutive.
Qed.

(** On a run of digits [BigInt] is the decimal value. *)
Lemma BigInt_digits (s : jsstring) :
  matches_digits s = true -> BigInt s = digits_value 10 0 s.
Proof.
  unfold matches_digits, BigInt. destruct s as [|c0 rest]; [discriminate|].
  intros Hall. rewrite (trim_digits _ Hall).
  destruct rest as [|c1 body]; [reflexivity|].
  simpl in Hall. apply andb_true_iff in Hall. destruct Hall as [H0 Hall].
  apply andb_true_iff in Hall. destruct Hall as [H1 _].
  destruct (digit_not_prefix_letter c1 H1) as (Hx & Ho & Hb & _ & _).
  destruct (digit_not_prefix_letter c0 H0) as (_ & _ & _ & Hminus & Hplus).
  rewrite Hx, Ho, Hb, Hminus, Hplus, !andb_false_r. reflexivity.
Qed.

(** Whatever is written around and between the digits, if stripping
    quotes, whitespace and commas leaves the decimal text of [n], the
    parser returns [n]. *)
Lemma parseWeiAmount_stripped (s : jsstring) (n : Z) :
  0 <= n ->
  remove_all is_comma (remove_all is_quote_or_space s) = decimal n ->
  parseWeiAmount s = inr n.
Proof.
  intros Hn Hs. unfold parseWeiAmount. rewrite Hs.
  destruct (decimal_spec n Hn) as [Hm Hv].
  rewrite Hm. simpl. now rewrite (BigInt_digits _ Hm), Hv.
Qed.

Lemma remove_all_app (p : jschar -> bool) (s t : jsstring) :
  remove_all p (s ++ t) = remove_all p s ++ remove_all p t.
Proof. apply filter_app. Qed.

Lemma remove_all_none (p : jschar -> bool) (s : jsstring) :
  forallb (fun c => negb (p c)) s = true -> remove_all p s = s.
Proof.
  induction s as [|c s IH]; simpl; [reflexivity|].
  intros H. apply andb_true_iff in H. destruct H as [Hc Hs].
  rewrite Hc. now rewrite IH.
Qed.

Lemma remove_all_every (p : jschar -> bool) (s : jsstring) :
  forallb p s = true -> remove_all p s = [].
Proof.
  induction s as [|c s IH]; simpl; [reflexivity|].
  intros H. apply andb_true_iff in H. destruct H as [Hc Hs].
  rewrite Hc. simpl. now apply IH.
Qed.

Lemma forallb_impl {A} (p q : A -> bool) (l : list A) :
  (forall x, p x = true -> q x = true) ->
  forallb p l = true -> forallb q l = true.
Proof.
  intros Hpq. rewrite !forallb_forall. auto.
Qed.

Lemma group3_rev_commas (digits : jsstring) :
  forallb is_digit digits = true ->
  forall k,
    remove_all is_comma (group3_rev k digits) = digits
    /\ remove_all is_quote_or_space (group3_rev k digits) = group3_rev k digits.
Proof.
  induction digits as [|c digits IH]; intros Hall k; simpl; [split; reflexivity|].
  simpl in Hall. apply andb_true_iff in Hall. destruct Hall as [Hc Hall].
  destruct (digit_not_stripped c Hc) as [Hq Hcomma].
  destruct (IH Hall 1%nat) as [Hc1 Hq1].
  destruct (IH Hall (S k)) as [Hck Hqk].
  destruct (k =? 3)%nat; simpl; rewrite ?Hcomma, ?Hq; simpl;
    rewrite ?Hc1, ?Hq1, ?Hck, ?Hqk; split; reflexivity.
Qed.

Lemma with_thousands_stripped (digits : jsstring) :
  forallb is_digit digits = true ->
  remove_all is_comma (remove_all is_quote_or_space (with_thousands digits))
  = digits.
Proof.
  intros Hall. unfold with_thousands, remove_all.
  rewrite !filter_rev.
  destruct (group3_rev_commas (rev digits)
              ltac:(now rewrite forallb_rev) 0%nat) as [Hc Hq].
  unfold remove_all in Hc, Hq. rewrite Hq, Hc. apply rev_involutive.
Qed.

Lemma padded_stripped (pre body post : jsstring) :
  forallb is_quote_or_space pre = true ->
  forallb is_quote_or_space post = true ->
  remove_all is_comma (remove_all is_quote_or_space (pre ++ body ++ post))
  = remove_all is_comma (remove_all is_quote_or_space body).
Proof.
  intros Hpre Hpost. rewrite !remove_all_app.
  rewrite (remove_all_every _ pre Hpre), (remove_all_every _ post Hpost).
  simpl. now rewrite app_nil_r.
Qed.

(** C7.  For every non-negative integer [n], its decimal text, written
    plainly or with thousands separators, and with any whitespace and
    quote characters before and after it, parses back to [n].  Every
    string that, once quotes, whitespace and commas are stripped, still
    holds a letter, a minus sign or a decimal point (or any other
    character that is not a digit) is rejected with the format error that
    carries the raw text. *)
Theorem parseWeiAmount_roundtrip_and_rejection :
  (forall (n : Z) (pre post : jsstring),
      0 <= n ->
      forallb is_quote_or_space pre = true ->
      forallb is_quote_or_space post = true ->
      parseWeiAmount (pre ++ decimal n ++ post) = inr n
      /\ parseWeiAmount (pre ++ with_thousands (decimal n) ++ post) = inr n)
  /\ (forall (s : jsstring) (c : jschar),
        In c (remove_all is_comma (remove_all is_quote_or_space s)) ->
        is_ascii_letter c = true \/ c = ch_minus \/ c = ch_dot
        \/ is_digit c = false ->
        parseWeiAmount s = inl (InvalidAmountFormat s)).
Proof.
  split.
  - intros n pre post Hn Hpre Hpost.
    destruct (decimal_spec n Hn) as [Hm _].
    assert (Hall : forallb is_digit (decimal n) = true).
    { unfold matches_digits in Hm. destruct (decimal n); [discriminate | exact Hm]. }
    split; apply parseWeiAmount_stripped; try assumption;
      rewrite padded_stripped by assumption.
    + rewrite (remove_all_none is_quote_or_space), (remove_all_none is_comma);
        [reflexivity| |].
      * revert Hall. apply forallb_impl. intros x Hx.
        now destruct (digit_not_stripped x Hx) as [_ ->].
      * revert Hall. apply forallb_impl. intros x Hx.
        now destruct (digit_not_stripped x Hx) as [-> _].
    + now apply with_thousands_stripped.
  - intros s c Hin Hc. unfold parseWeiAmount.
    assert (Hnd : is_digit c = false).
    { destruct Hc as [Hl|[->|[->|Hd]]]; try reflexivity; try assumption.
      destruct (is_digit c) eqn:Hd; [|reflexivity].
      apply digit_cases in Hd.
      repeat (destruct Hd as [Hd|Hd]; [subst; discriminate|]).
      subst; discriminate. }
    assert (Hm : matches_digits
                   (remove_all is_comma (remove_all is_quote_or_space s)) = false).
    { unfold matches_digits.
      destruct (remove_all is_comma (remove_all is_quote_or_space s)) as [|x l] eqn:E;
        [reflexivity|].
      destruct (forallb is_digit (x :: l)) eqn:Hf; [|reflexivity].
      rewrite forallb_forall in Hf. specialize (Hf c Hin). congruence. }
    now rewrite Hm.
Qed.

Lemma parseWeiAmount_roundtrip_and_rejection_witness :
  parseWeiAmount ([32; 34]%N ++ with_thousands (decimal 1234567) ++ [34; 32]%N)
  = inr 1234567
  /\ parseWeiAmount (js "-5") = inl (InvalidAmountFormat (js "-5")).
Proof.
  split.
  - apply (proj1 parseWeiAmount_roundtrip_and_rejection 1234567
             [32; 34]%N [34; 32]%N); [lia | reflexivity | reflexivity].
  - apply (proj2 parseWeiAmount_roundtrip_and_rejection (js "-5") ch_minus).
    + left. reflexivity.
    + right. left. reflexivity.
Defined.

Example with_thousands_examples :
  with_thousands (decimal 1234567) = js "1,234,567"
  /\ with_thousands (decimal 999) = js "999"
  /\ with_thousands (decimal 1000) = js "1,000"
  /\ decimal 0 = js "0".
Proof. repeat split; reflexivity. Qed.

(** ** Running monadic code *)

Section Running.
Context {W : Type} `{Chain W}.

Lemma bind_returned {A B} (c : M W A) (k : A -> M W B) st a st' :
  c st = (Returned a, st') -> bind c k st = k a st'.
Proof. intros Hc. unfold bind. now rewrite Hc. Qed.

Lemma bind_thrown {A B} (c : M W A) (k : A -> M W B) st e st' :
  c st = (Thrown e, st') -> bind c k st = (Thrown e, st').
Proof. intros Hc. unfold bind. now rewrite Hc. Qed.

Lemma bind_running {A B} (c : M W A) (k : A -> M W B) st st' :
  c st = (Running, st') -> bind c k st = (Running, st').
Proof. intros Hc. unfold bind. now rewrite Hc. Qed.

Lemma bind_console {B} level template args (k : unit -> M W B) st :
  bind (console level template args) k st
  = k tt (mkState (world st) (trace st ++ [Console level template args])).
Proof. reflexivity. Qed.

Lemma call_returned {A} (c : ChainCall) (op : W -> (Error + A) * W) st a w' :
  op (world st) = (inr a, w') ->
  call c op st = (Returned a, mkState w' (trace st ++ [Call c])).
Proof. intros Hop. unfold call. now rewrite Hop. Qed.

Lemma call_thrown {A} (c : ChainCall) (op : W -> (Error + A) * W) st e w' :
  op (world st) = (inl e, w') ->
  call c op st = (Thrown e, mkState w' (trace st ++ [Call c])).
Proof. intros Hop. unfold call. now rewrite Hop. Qed.

Lemma calls_of_app (t1 t2 : list Event) :
  calls_of (t1 ++ t2) = calls_of t1 ++ calls_of t2.
Proof. apply flat_map_app. Qed.

Lemma waitForTransactionConfirmation_confirmed hash st receipt w' :
  waitForTransactionReceipt hash (world st) = (inr receipt, w') ->
  status receipt = success ->
  exists st',
    waitForTransactionConfirmation hash st = (Returned receipt, st')
    /\ world st' = w'
    /\ calls_of (trace st') = calls_of (trace st) ++ [CallWaitReceipt hash].
Proof.
  intros Hw Hs. unfold waitForTransactionConfirmation.
  rewrite bind_console. unfold waitReceipt.
  erewrite bind_returned by (apply call_returned; exact Hw).
  rewrite Hs. rewrite bind_console. unfold ret. eexists. split; [reflexivity|].
  split; [reflexivity|]. simpl.
  rewrite !calls_of_app. simpl. now rewrite !app_nil_r.
Qed.

End Running.

(** ** The allowance guard: [checkTokenAllowance] *)

Ltac run_guard :=
  unfold checkTokenAllowance, waitForTransactionConfirmation, bind, allowance,
    approve, waitReceipt, call, console, emit, ret, throw; simpl.

Ltac calls_of_trace :=
  simpl; rewrite ?calls_of_app; simpl; rewrite ?app_nil_r, <- ?app_assoc;
  reflexivity.

(** C5.  Let the allowance read at the start be [A] and the required
    total be [R].  When [A >= R] the guard makes no write: its only chain
    call is that read, and it returns [A].  When [A = 0] and [R > 0] it
    makes exactly one approve write, of [R], waits for its confirmation
    and reads the allowance again.  When [0 < A < R] it makes exactly two
    approve writes: first of 0, whose confirmation it waits for, then of
    [R], whose confirmation it waits for, and then it reads the allowance
    again.  On both write paths the run fails with [ApprovalFailed] when
    the allowance read again is below [R]. *)
Theorem checkTokenAllowance_sequencing {W} `{Chain W}
    (signer spender : Address) (R : Z) (st : State W) (A : Z) (w1 : W) :
  reads_allowance signer spender (world st) A w1 ->
  let run := checkTokenAllowance signer spender R st in
  (R <= A ->
     fst run = Returned A
     /\ calls_of (trace (snd run))
        = calls_of (trace st) ++ [CallAllowance signer spender])
  /\ (A = 0 -> 0 < R ->
      forall h w2 A' w3,
        accepted_and_confirmed spender R w1 h w2 ->
        reads_allowance signer spender w2 A' w3 ->
        calls_of (trace (snd run))
        = calls_of (trace st)
          ++ [CallAllowance signer spender; CallApprove spender R;
              CallWaitReceipt h; CallAllowance signer spender]
        /\ fst run = if A' <? R then Thrown (ApprovalFailed R A')
                     else Returned A)
  /\ (0 < A < R ->
      forall h0 w2 h w3 A' w4,
        accepted_and_confirmed spender 0 w1 h0 w2 ->
        accepted_and_confirmed spender R w2 h w3 ->
        reads_allowance signer spender w3 A' w4 ->
        calls_of (trace (snd run))
        = calls_of (trace st)
          ++ [CallAllowance signer spender; CallApprove spender 0;
              CallWaitReceipt h0; CallApprove spender R;
              CallWaitReceipt h; CallAllowance signer spender]
        /\ fst run = if A' <? R then Thrown (ApprovalFailed R A')
                     else Returned A).
Proof.
  intros Hread run. unfold reads_allowance in Hread. subst run.
  split; [|split].
  - intros HA. run_guard. rewrite Hread. simpl.
    destruct (Z.ltb_spec A R); [lia|]. simpl. split; [reflexivity|].
    calls_of_trace.
  - intros -> HR h w2 A' w3 (wa & receipt & Hwrite & Hwait & Hstatus) Hre.
    unfold reads_allowance in Hre.
    run_guard. rewrite Hread. simpl.
    destruct (Z.ltb_spec 0 R); [|lia]. simpl.
    rewrite Hwrite. simpl. rewrite Hwait. simpl. rewrite Hstatus. simpl.
    rewrite Hre. simpl.
    destruct (A' <? R); simpl; (split; [calls_of_trace | reflexivity]).
  - intros HA h0 w2 h w3 A' w4
           (wa & receipt0 & Hwrite0 & Hwait0 & Hstatus0)
           (wb & receipt & Hwrite & Hwait & Hstatus) Hre.
    unfold reads_allowance in Hre.
    run_guard. rewrite Hread. simpl.
    destruct (Z.ltb_spec A R); [|lia]. simpl.
    destruct (Z.gtb_spec A 0); [|lia]. simpl.
    rewrite Hwrite0. simpl. rewrite Hwait0. simpl. rewrite Hstatus0. simpl.
    rewrite Hwrite. simpl. rewrite Hwait. simpl. rewrite Hstatus. simpl.
    rewrite Hre. simpl.
    destruct (A' <? R); simpl; (split; [calls_of_trace | reflexivity]).
Qed.

Lemma checkTokenAllowance_sequencing_witness :
  let st := fresh (mkStub [] [inr 5; inr 20] [] [] [] [] [] []) in
  approve_writes
    (calls_of (trace (snd (checkTokenAllowance (js "0x51") (js "0x5b") 20 st))))
  = [(js "0x5b", 0); (js "0x5b", 20)].
Proof.
  intros st.
  edestruct (checkTokenAllowance_sequencing (js "0x51") (js "0x5b") 20 st 5)
    as (_ & _ & Htwo); [reflexivity|].
  edestruct Htwo as [Hcalls _];
    [lia
    | do 2 eexists; repeat split; reflexivity
    | do 2 eexists; repeat split; reflexivity
    | reflexivity
    | ].
  rewrite Hcalls. reflexivity.
Defined.

(** The three cases on scripted worlds: the allowance already suffices;
    nothing was approved before; a smaller allowance exists and the
    approval does not take effect. *)
Example checkTokenAllowance_examples :
  let run allowances :=
    checkTokenAllowance (js "0x51") (js "0x5b") 20
      (fresh (mkStub [] allowances [] [] [] [] [] [])) in
  (fst (run [inr 20]) = Returned 20
   /\ approve_writes (calls_of (trace (snd (run [inr 20])))) = [])
  /\ (fst (run [inr 0; inr 20]) = Returned 0
      /\ approve_writes (calls_of (trace (snd (run [inr 0; inr 20]))))
         = [(js "0x5b", 20)])
  /\ (fst (run [inr 5; inr 7]) = Thrown (ApprovalFailed 20 7)
      /\ approve_writes (calls_of (trace (snd (run [inr 5; inr 7]))))
         = [(js "0x5b", 0); (js "0x5b", 20)]).
Proof. repeat split; reflexivity. Qed.

(** ** The sample count: [Math.ceil(n * 0.1)] in double arithmetic *)

(** Rounding to 53 bits loses less than one part in [2^52]. *)
Lemma round_to_53_bits_lower (p : Z) :
  0 <= p -> p * (2 ^ 52 - 1) <= round_to_53_bits p * 2 ^ 52.
Proof.
  intros Hp. unfold round_to_53_bits.
  destruct (Z.leb_spec (Z.log2 p + 1) 53) as [Hsmall|Hbig]; [lia|].
  set (s := Z.log2 p + 1 - 53) in *.
  assert (Hs : 0 < s) by lia.
  assert (Hpos : 0 < p).
  { destruct (Z.eq_dec p 0) as [->|]; [simpl in Hbig; lia | lia]. }
  destruct (Z.log2_spec p Hpos) as [Hlow _].
  replace (Z.log2 p) with (s + 52) in Hlow by lia.
  rewrite Z.pow_add_r in Hlow by lia.
  rewrite Z.shiftr_div_pow2 by lia.
  set (E := 2 ^ s) in *.
  assert (HE : 0 < E) by (apply Z.pow_pos_nonneg; lia).
  set (q := p / E).
  pose proof (Z.mul_div_le p E HE) as Hle.
  pose proof (Z.mul_succ_div_gt p E HE) as Hgt.
  fold q in Hle, Hgt.
  match goal with
  | |- context [Z.shiftl ?x s] =>
      assert (Hq' : q <= x) by (destruct (_ || _)%bool; lia);
      rewrite (Z.shiftl_mul_pow2 x s) by lia; fold E;
      set (q' := x) in *
  end.
  assert (q * E <= q' * E) by nia.
  change (2 ^ 52) with 4503599627370496 in *. lia.
Qed.

(** On the first two thousand lengths the product computed here is the
    one the IEEE 754 specification gives. *)
Example times_tenth_is_binary64 :
  forallb (fun k => match binary64_times_tenth (Z.of_nat k) with
                    | Some v => v =? times_tenth (Z.of_nat k) * 2 ^ 145
                    | None => false
                    end) (seq 0 2000) = true.
Proof. vm_compute. reflexivity. Qed.

Lemma Math_ceil_tenth_large (n : Z) : 100 <= n -> 10 <= Math_ceil_tenth n.
Proof.
  intros Hn. unfold Math_ceil_tenth, ceil_over_2_55, times_tenth.
  pose proof (round_to_53_bits_lower (n * tenth_numerator)
                ltac:(unfold tenth_numerator; lia)) as Hround.
  set (v := round_to_53_bits (n * tenth_numerator)) in *.
  unfold tenth_numerator in Hround.
  change (2 ^ 52) with 4503599627370496 in Hround.
  assert (Hv : 9 * 2 ^ 55 < v).
  { change (2 ^ 55) with 36028797018963968. lia. }
  assert (- v / 2 ^ 55 < - 9).
  { apply Z.div_lt_upper_bound; [reflexivity | lia]. }
  lia.
Qed.

Lemma Math_ceil_tenth_small (n : Z) :
  0 <= n <= 100 -> Math_ceil_tenth n = ceil_div n 10.
Proof.
  intros Hn.
  assert (Hall : forallb (fun k => Math_ceil_tenth (Z.of_nat k)
                                   =? ceil_div (Z.of_nat k) 10)
                         (seq 0 101) = true) by (vm_compute; reflexivity).
  rewrite forallb_forall in Hall.
  specialize (Hall (Z.to_nat n)).
  rewrite Z2Nat.id in Hall by lia.
  apply Z.eqb_eq, Hall, in_seq. lia.
Qed.

Lemma samplesToCheck_clamp (len : nat) :
  samplesToCheck len = clamp 1 10 (ceil_div (Z.of_nat len) 10).
Proof.
  unfold samplesToCheck, clamp.
  destruct (Z.le_gt_cases (Z.of_nat len) 100) as [Hsmall|Hbig].
  - now rewrite Math_ceil_tenth_small by lia.
  - pose proof (Math_ceil_tenth_large (Z.of_nat len) ltac:(lia)).
    assert (10 <= ceil_div (Z.of_nat len) 10).
    { unfold ceil_div. apply Z.div_le_lower_bound; lia. }
    lia.
Qed.

Lemma samplesToCheck_bounds (len : nat) :
  1 <= samplesToCheck len <= 10
  /\ ((1 <= len)%nat -> samplesToCheck len <= Z.of_nat len).
Proof.
  rewrite samplesToCheck_clamp. unfold clamp, ceil_div.
  split; [lia|]. intros Hlen.
  assert ((Z.of_nat len + 10 - 1) / 10 <= Z.of_nat len).
  { apply Z.lt_succ_r, Z.div_lt_upper_bound; lia. }
  lia.
Qed.

(** ** The sampling verifier: selection of the sample indexes *)

Lemma existsb_eqb_In (i : nat) (s : list nat) :
  existsb (Nat.eqb i) s = true <-> In i s.
Proof.
  rewrite existsb_exists. split.
  - intros (x & Hx & Heq). apply Nat.eqb_eq in Heq. now subst.
  - intros Hin. exists i. split; [assumption | apply Nat.eqb_refl].
Qed.

Lemma set_add_In (i x : nat) (s : list nat) :
  In x (set_add i s) <-> x = i \/ In x s.
Proof.
  unfold set_add. destruct (existsb (Nat.eqb i) s) eqn:E.
  - apply existsb_eqb_In in E. split; [auto | intros [->|]; assumption].
  - rewrite in_app_iff. simpl. intuition.
Qed.

Lemma set_add_NoDup (i : nat) (s : list nat) : NoDup s -> NoDup (set_add i s).
Proof.
  intros Hs. unfold set_add. destruct (existsb (Nat.eqb i) s) eqn:E;
    [assumption|].
  apply NoDup_app; [assumption | repeat constructor; intros [] |].
  intros x Hx [<-|[]].
  apply existsb_eqb_In in Hx. congruence.
Qed.

Lemma set_add_length (i : nat) (s : list nat) :
  (length (set_add i s) <= S (length s))%nat.
Proof.
  unfold set_add. destruct (existsb (Nat.eqb i) s); [lia|].
  rewrite length_app. simpl. lia.
Qed.


Section Sampling.
Context {W : Type} `{Chain W}.

Lemma random_index_run (len : nat) (st : State W) :
  exists i st',
    random_index len st = (Returned i, st')
    /\ ((0 < len)%nat -> (i < len)%nat)
    /\ trace st' = trace st ++ [Call CallRandom].
Proof.
  unfold random_index. destruct (Math_random (world st)) as [raw w'].
  do 2 eexists. split; [reflexivity|]. split; [|reflexivity].
  destruct len as [|len]; [lia|]. intros _. apply Nat.mod_upper_bound. lia.
Qed.

(** When the loop returns, the set has exactly [samples] members, all
    different, all positions of the array. *)
Lemma selectIndexes_sound (len : nat) (samples : Z) :
  (0 < len)%nat ->
  forall fuel sel st sel' st',
    NoDup sel -> Forall (fun i => (i < len)%nat) sel ->
    Z.of_nat (length sel) <= samples ->
    TransferHelpers.selectIndexes fuel len samples sel st = (Returned sel', st') ->
    Z.of_nat (length sel') = samples
    /\ NoDup sel' /\ Forall (fun i => (i < len)%nat) sel'.
Proof.
  intros Hlen. induction fuel as [|fuel IH];
    intros sel st sel' st' Hnd Hall Hsize; simpl;
    destruct (Z.ltb_spec (Z.of_nat (length sel)) samples) as [Hlt|Hge];
    try (intros [= <- <-]; repeat split; (lia || assumption));
    try discriminate.
  destruct (random_index_run len st) as (i & st1 & Hrun & Hi & _).
  rewrite (bind_returned _ _ _ _ _ Hrun). apply IH.
  - now apply set_add_NoDup.
  - apply Forall_forall. intros x Hx. apply set_add_In in Hx.
    destruct Hx as [->|Hx]; [now apply Hi|].
    rewrite Forall_forall in Hall. now apply Hall.
  - pose proof (set_add_length i sel). lia.
Qed.


(** With a world whose draws repeat the same index the loop never gets
    a second member. *)
Lemma selectIndexes_running (len : nat) (samples : Z) (i0 : nat) :
  2 <= samples ->
  forall fuel st,
    (forall k, Forall (eq i0) (draws k len st)) ->
    exists st',
      TransferHelpers.selectIndexes fuel len samples [i0] st = (Running, st').
Proof.
  intros Hs. induction fuel as [|fuel IH]; intros st Hconst; simpl;
    (destruct (Z.ltb_spec 1 samples) as [_|]; [|lia]).
  - eexists. reflexivity.
  - destruct (random_index_run len st) as (i & st1 & Hrun & _ & _).
    rewrite (bind_returned _ _ _ _ _ Hrun).
    assert (Hi : i = i0).
    { specialize (Hconst 1%nat). simpl in Hconst. rewrite Hrun in Hconst.
      inversion Hconst; subst. reflexivity. }
    subst i. unfold set_add. simpl. rewrite Nat.eqb_refl. simpl.
    apply IH. intros k. specialize (Hconst (S k)). simpl in Hconst.
    rewrite Hrun in Hconst. now inversion Hconst.
Qed.

End Sampling.



Example selectIndexes_example :
  fst (TransferHelpers.selectIndexes 4 25 (samplesToCheck 25) []
         (fresh (mkStub [] [] [] [] [] [] [] [7; 7; 30; 2]%N)))
  = Returned [7; 5; 2]%nat
  /\ fst (TransferHelpers.selectIndexes 1000 25 (samplesToCheck 25) []
            (fresh (mkStub [] [] [] [] [] [] [] [7; 7; 7]%N)))
     = Running.
Proof. split; vm_compute; reflexivity. Qed.

Example samplesToCheck_examples :
  map samplesToCheck [1; 9; 10; 11; 20; 21; 30; 99; 100; 101; 600]%nat
  = [1; 1; 1; 2; 2; 3; 3; 10; 10; 10; 10].
Proof. vm_compute. reflexivity. Qed.

(** ** What a computation appends to the trace *)

Section Emits.
Context {W : Type} `{Chain W}.
Variable P : Event -> Prop.

Lemma emits_ret {A} (a : A) : emits P (ret (W := W) a).
Proof.
  intros st r st' [= <- <-]. exists []. now rewrite app_nil_r.
Qed.

Lemma emits_throw {A} (e : Error) : emits P (throw (W := W) (A := A) e).
Proof.
  intros st r st' [= <- <-]. exists []. now rewrite app_nil_r.
Qed.

Lemma emits_running {A} : emits P (running (W := W) (A := A)).
Proof.
  intros st r st' [= <- <-]. exists []. now rewrite app_nil_r.
Qed.

Lemma emits_bind {A B} (c : M W A) (k : A -> M W B) :
  emits P c -> (forall a, emits P (k a)) -> emits P (bind c k).
Proof.
  intros Hc Hk st r st'. unfold bind.
  destruct (c st) as [[a|e|] st1] eqn:Hrun;
    destruct (Hc _ _ _ Hrun) as (evs1 & Ht1 & Hp1).
  - intros Hrun2. destruct (Hk a _ _ _ Hrun2) as (evs2 & Ht2 & Hp2).
    exists (evs1 ++ evs2). rewrite Ht2, Ht1, app_assoc.
    split; [reflexivity | now apply Forall_app].
  - intros [= <- <-]. now exists evs1.
  - intros [= <- <-]. now exists evs1.
Qed.

Lemma emits_try_catch {A} (body : M W A) (handler : Error -> M W A) :
  emits P body -> (forall e, emits P (handler e)) ->
  emits P (try_catch body handler).
Proof.
  intros Hb Hh st r st'. unfold try_catch.
  destruct (body st) as [[a|e|] st1] eqn:Hrun;
    destruct (Hb _ _ _ Hrun) as (evs1 & Ht1 & Hp1).
  - intros [= <- <-]. now exists evs1.
  - intros Hrun2. destruct (Hh e _ _ _ Hrun2) as (evs2 & Ht2 & Hp2).
    exists (evs1 ++ evs2). rewrite Ht2, Ht1, app_assoc.
    split; [reflexivity | now apply Forall_app].
  - intros [= <- <-]. now exists evs1.
Qed.

Lemma emits_console level template args :
  P (Console level template args) ->
  emits P (console (W := W) level template args).
Proof.
  intros Hp st r st' [= <- <-]. eexists. split; [reflexivity|].
  now constructor.
Qed.

Lemma emits_call {A} (c : ChainCall) (op : W -> (Error + A) * W) :
  P (Call c) -> emits P (call c op).
Proof.
  intros Hp st r st'. unfold call.
  destruct (op (world st)) as [[e|a] w']; intros [= <- <-];
    (eexists; split; [reflexivity | now constructor]).
Qed.

Lemma emits_random_index (n : nat) :
  P (Call CallRandom) -> emits P (random_index n).
Proof.
  intros Hp st r st'. unfold random_index.
  destruct (Math_random (world st)) as [raw w']. intros [= <- <-].
  eexists; split; [reflexivity | now constructor].
Qed.
End Emits.

(** Breaks a computation into its parts; what is left are the conditions
    on single events and the calls of other procedures. *)
Ltac emits_steps :=
  repeat match goal with
    | |- emits _ (bind _ _) => apply emits_bind; [|intros]
    | |- emits _ (try_catch _ _) => apply emits_try_catch; [|intros]
    | |- emits _ (ret _) => apply emits_ret
    | |- emits _ (throw _) => apply emits_throw
    | |- emits _ running => apply emits_running
    | |- emits _ (console _ _ _) => apply emits_console
    | |- emits _ (call _ _) => apply emits_call
    | |- emits _ (random_index _) => apply emits_random_index
    | |- emits _ (if ?b then _ else _) => destruct b
    | |- emits _ (match ?x with _ => _ end) => destruct x
    end.

(** ** The batch driver of scripts/helpers/transferHelpers.ts *)

Section Driver.
Context {W : Type} `{Chain W}.

Lemma selectIndexes_emits fuel len samples :
  forall sel, emits inner_event (TransferHelpers.selectIndexes fuel len samples sel).
Proof.
  induction fuel as [|fuel IH]; intros sel; simpl;
    destruct (Z.of_nat (length sel) <? samples); emits_steps;
    solve [repeat apply conj; reflexivity | apply IH].
Qed.

Lemma readInitialBalances_emits recipients amounts :
  forall indexes acc,
    emits inner_event
      (TransferHelpers.readInitialBalances recipients amounts indexes acc).
Proof.
  induction indexes as [|index rest IH]; intros acc; simpl;
    unfold balanceOf; emits_steps; solve [repeat apply conj; reflexivity | apply IH].
Qed.

Lemma prepareVerificationData_emits fuel recipients amounts :
  emits inner_event
    (TransferHelpers.prepareVerificationData fuel recipients amounts).
Proof.
  unfold TransferHelpers.prepareVerificationData. emits_steps.
  - repeat apply conj; reflexivity.
  - apply selectIndexes_emits.
  - apply readInitialBalances_emits.
Qed.

Lemma verifyEntries_emits :
  forall data, emits inner_event (TransferHelpers.verifyEntries data).
Proof.
  induction data as [|entry rest IH]; simpl; unfold balanceOf;
    emits_steps; solve [repeat apply conj; reflexivity | apply IH].
Qed.

Lemma tryBlock_emits recipients amounts data batchNumber :
  emits inner_event
    (TransferHelpers.tryBlock recipients amounts data batchNumber).
Proof.
  unfold TransferHelpers.tryBlock, TransferHelpers.verifyBatchTransfers,
    simulate, estimateGas.
  emits_steps;
    solve [repeat apply conj; reflexivity | apply verifyEntries_emits].
Qed.


(** The driver of this file never submits a transfer and never waits
    for a receipt. *)
Lemma processSingleBatch_emits fuel (batch : Batch) (batchNumber : Z) :
  emits (fun ev => is_submission ev = false /\ is_receipt_wait ev = false)
    (TransferHelpers.processSingleBatch fuel batch batchNumber).
Proof.
  assert (Hweak : forall A (c : M W A),
             emits inner_event c ->
             emits (fun ev => is_submission ev = false
                              /\ is_receipt_wait ev = false) c).
  { intros A c Hc st r st' Hrun. destruct (Hc _ _ _ Hrun) as (evs & Ht & Hp).
    exists evs. split; [assumption|].
    eapply Forall_impl; [|exact Hp]. now intros ev (_ & ? & ?). }
  unfold TransferHelpers.processSingleBatch.
  emits_steps; try (split; reflexivity).
  - apply Hweak, prepareVerificationData_emits.
  - apply Hweak, tryBlock_emits.
Qed.
End Driver.

(** ** The loop over the batches *)

Section Loop.
Context {W : Type}.
Variable single : Batch -> Z -> M W unit.

Lemma forBatches_app (pre post : list Batch) (i : Z) (st : State W) :
  forBatches single (pre ++ post) i st
  = match forBatches single pre i st with
    | (Returned _, st1) =>
        forBatches single post (i + Z.of_nat (length pre)) st1
    | other => other
    end.
Proof.
  revert i st; induction pre as [|batch pre IH]; intros i st; simpl.
  - now rewrite Z.add_0_r.
  - unfold bind. destruct (single batch (i + 1) st) as [[[]|e|] st1];
      try reflexivity.
    rewrite IH. replace (i + 1 + Z.of_nat (length pre))
      with (i + Z.pos (Pos.of_succ_nat (length pre))) by lia.
    reflexivity.
Qed.

(** A batch that throws ends the loop: the batches after it are not
    processed, the error is the one the batch threw, and the state is the
    one the batch left. *)
Lemma forBatches_stops (pre post : list Batch) (batch : Batch) (i : Z)
    (st st1 st2 : State W) (e : Error) :
  forBatches single pre i st = (Returned tt, st1) ->
  single batch (i + Z.of_nat (length pre) + 1) st1 = (Thrown e, st2) ->
  forBatches single (pre ++ batch :: post) i st = (Thrown e, st2).
Proof.
  intros Hpre Hfail. rewrite forBatches_app, Hpre. simpl.
  unfold bind. now rewrite Hfail.
Qed.
End Loop.

(** ** Failure of a batch *)




(** The console does tell: the two runs end with the failure line of
    batch 1 and of batch 2. *)
Example failure_is_reported_on_the_console :
  last (trace (snd (TransferHelpers.processTransferBatches 4
                      [to_bob; to_carol] the_signer the_spender
                      (fresh first_simulation_refused))))
       (batch_header 0 0)
  = batch_failed 1 execution_reverted
  /\ last (trace (snd (TransferHelpers.processTransferBatches 4
                         [to_alice; to_bob; to_carol] the_signer the_spender
                         (fresh second_simulation_refused))))
          (batch_header 0 0)
     = batch_failed 2 execution_reverted.
Proof. split; vm_compute; reflexivity. Qed.

(** ** Failure of the gas estimation *)

(** C4 (as the code has it).  The stand-alone helper [estimateGasCosts]
    returns the estimate when there is one and treats a failed
    estimation as non-fatal: it prints a warning and returns no
    estimate.  The batch driver does not go through that
    helper.  In [processSingleBatch] a failed estimation is thrown inside
    the [try] block: the driver prints the failure line of the batch and
    throws the error again, without any call after the failed one (no
    submission, no verification), and the run of [processTransferBatches]
    ends there with that error. *)
Theorem gas_estimation_failure {W} `{Chain W} (e : Error) :
  (forall recipients amounts (st : State W) g w',
      estimateGas_bulkSend recipients amounts (world st) = (inr g, w') ->
      fst (estimateGasCosts recipients amounts st) = Returned (Some g))
  /\ (forall recipients amounts (st : State W) w',
      estimateGas_bulkSend recipients amounts (world st) = (inl e, w') ->
      estimateGasCosts recipients amounts st
      = (Returned None,
         mkState w'
           (trace st
            ++ [Call (CallEstimateGas recipients amounts);
                Console WarnLevel "Could not estimate gas:" [ArgE e]])))
  /\ (forall fuel (batch : Batch) batchNumber (st : State W) data st1 w2 w3,
        sample_taken fuel batch batchNumber st data st1 ->
        simulate_bulkSend (map address batch) (map amount batch) (world st1)
        = (inr tt, w2) ->
        estimateGas_bulkSend (map address batch) (map amount batch) w2
        = (inl e, w3) ->
        TransferHelpers.processSingleBatch fuel batch batchNumber st
        = (Thrown e,
           mkState w3
             (trace st1
              ++ [Console LogLevel "Simulating transaction..." [];
                  Call (CallSimulate (map address batch) (map amount batch));
                  Console LogLevel "Simulation successful" [];
                  Console LogLevel "Estimating gas..." [];
                  Call (CallEstimateGas (map address batch) (map amount batch));
                  batch_failed batchNumber e])))
  /\ (forall fuel pre post (batch : Batch) signer spender
             (st st0 st1 st2 : State W),
        precheck (pre ++ batch :: post) signer spender st = (Returned tt, st0) ->
        forBatches (TransferHelpers.processSingleBatch fuel) pre 0 st0
        = (Returned tt, st1) ->
        TransferHelpers.processSingleBatch fuel batch
          (Z.of_nat (length pre) + 1) st1 = (Thrown e, st2) ->
        TransferHelpers.processTransferBatches fuel (pre ++ batch :: post)
          signer spender st = (Thrown e, st2)).
Proof.
  split; [|split; [|split]].
  - intros recipients amounts st g w' Hest.
    unfold estimateGasCosts, try_catch, estimateGas, bind, call.
    now rewrite Hest.
  - intros recipients amounts st w' Hest.
    unfold estimateGasCosts, try_catch, estimateGas, bind, call.
    rewrite Hest. simpl. unfold console, emit, ret. simpl.
    now rewrite <- app_assoc.
  - intros fuel batch batchNumber st data st1 w2 w3 Hsample Hsim Hest.
    unfold sample_taken in Hsample.
    unfold TransferHelpers.processSingleBatch.
    rewrite !bind_console. simpl. rewrite <- app_assoc. simpl.
    unfold batch_header in Hsample.
    rewrite (bind_returned _ _ _ _ _ Hsample).
    unfold try_catch, TransferHelpers.tryBlock, simulate, estimateGas,
      bind, call, console, emit, throw. simpl.
    rewrite Hsim. simpl. rewrite Hest. simpl.
    unfold batch_failed. repeat (rewrite <- ?app_assoc; simpl). reflexivity.
  - intros fuel pre post batch signer spender st st0 st1 st2 Hcheck Hpre Hfail.
    unfold TransferHelpers.processTransferBatches.
    rewrite (bind_returned _ _ _ _ _ Hcheck).
    apply bind_thrown.
    now apply (forBatches_stops _ pre post batch 0 st0 st1 st2 e Hpre).
Qed.

(** The claim as stated fails: with a failing gas estimation both copies
    of the driver throw out of the batch without submitting it, and the
    run stops before the second batch. *)
Lemma gas_estimation_failure_aborts :
  let st := fresh estimation_fails in
  let batch_run := TransferHelpers.processSingleBatch 4 to_alice 1 st in
  let earlier_copy := Part001.processSingleBatch to_alice 1 st in
  let run :=
    TransferHelpers.processTransferBatches 4 [to_alice; to_bob]
      the_signer the_spender st in
  (fst batch_run = Thrown cannot_estimate
   /\ submissions (calls_of (trace (snd batch_run))) = [])
  /\ (fst earlier_copy = Thrown cannot_estimate
      /\ submissions (calls_of (trace (snd earlier_copy))) = [])
  /\ (fst run = Thrown cannot_estimate
      /\ submissions (calls_of (trace (snd run))) = []
      /\ existsb (fun ev => match ev with
                            | Console _ _ (ArgZ 2 :: _) => is_batch_header ev
                            | _ => false
                            end) (trace (snd run)) = false).
Proof. vm_compute. repeat apply conj; reflexivity. Qed.

Lemma gas_estimation_failure_witness :
  fst (estimateGasCosts [alice] [5] (fresh estimation_fails)) = Returned None
  /\ fst (TransferHelpers.processSingleBatch 4 to_alice 1
            (fresh estimation_fails)) = Thrown cannot_estimate.
Proof.
  destruct (gas_estimation_failure (W := Stub) cannot_estimate)
    as (_ & Hhelper & Hdriver & _).
  set (st := fresh estimation_fails).
  split.
  - rewrite (Hhelper [alice] [5] st
               (snd (estimateGas_bulkSend [alice] [5] (world st))))
      by (vm_compute; reflexivity).
    reflexivity.
  - set (r := TransferHelpers.prepareVerificationData 4
                (map address to_alice) (map amount to_alice)
                (mkState (world st)
                   (trace st
                    ++ [batch_header 1 (length to_alice);
                        Console LogLevel "Batch total: {}"
                          [ArgZ (fold_left Z.add (map amount to_alice) 0)]]))).
    set (data := match fst r with Returned d => d | _ => [] end).
    set (w2 := snd (simulate_bulkSend (map address to_alice)
                      (map amount to_alice) (world (snd r)))).
    set (w3 := snd (estimateGas_bulkSend (map address to_alice)
                      (map amount to_alice) w2)).
    rewrite (Hdriver 4%nat to_alice 1 st data (snd r) w2 w3);
      [reflexivity | vm_compute; reflexivity | vm_compute; reflexivity
       | vm_compute; reflexivity].
Defined.

(** ** Submission of a batch *)

Lemma submissions_app (c1 c2 : list ChainCall) :
  submissions (c1 ++ c2) = submissions c1 ++ submissions c2.
Proof. apply flat_map_app. Qed.

Lemma submissions_none (evs : list Event) :
  Forall (fun ev => is_submission ev = false) evs ->
  submissions (calls_of evs) = [].
Proof.
  induction 1 as [|ev evs Hev _ IH]; [reflexivity|].
  destruct ev as [c|level template args]; simpl; [|exact IH].
  destruct c; simpl in *; try exact IH. discriminate.
Qed.

Section EarlierCopy.
Context {W : Type} `{Chain W}.

Lemma verifyLoop_emits recipients :
  forall samples, emits (fun _ => True) (Part001.verifyLoop recipients samples).
Proof.
  induction samples as [|samples IH]; simpl; unfold balanceOf;
    emits_steps; solve [exact I | apply IH].
Qed.

(** In the earlier copy of the driver a batch whose simulation and gas
    estimation succeed is submitted with its recipient and amount arrays
    and with the estimate plus a tenth of it as gas limit. *)
Lemma earlier_copy_submits_padded (batch : Batch) (batchNumber : Z)
    (st : State W) (w1 w2 : W) (g : Z) :
  simulate_bulkSend (map address batch) (map amount batch) (world st)
  = (inr tt, w1) ->
  estimateGas_bulkSend (map address batch) (map amount batch) w1
  = (inr g, w2) ->
  exists later,
    calls_of (trace (snd (Part001.processSingleBatch batch batchNumber st)))
    = calls_of (trace st)
      ++ CallSimulate (map address batch) (map amount batch)
      :: CallEstimateGas (map address batch) (map amount batch)
      :: CallBulkSend (map address batch) (map amount batch)
           (g + Z.quot g 10)
      :: later.
Proof.
  intros Hsim Hest.
  unfold Part001.processSingleBatch, try_catch, Part001.tryBlock.
  rewrite !bind_console. simpl. unfold simulate.
  erewrite bind_returned by (apply call_returned; exact Hsim).
  rewrite bind_console. unfold estimateGas.
  erewrite bind_returned by (apply call_returned; exact Hest).
  rewrite !bind_console. simpl.
  unfold bulkSend, bind at 1, call at 1. simpl.
  destruct (write_bulkSend _ _ _ w2) as [[e|hash] w3].
  - destruct (includes _ _); simpl; eexists;
      rewrite !calls_of_app; simpl; rewrite ?app_nil_r, <- ?app_assoc;
      reflexivity.
  - rewrite bind_console. simpl.
    match goal with
    | |- context [Part001.verifyBatchTransfers ?r ?s] =>
        destruct (Part001.verifyBatchTransfers r s) as [[[]|e|] st4] eqn:Hv;
        destruct (verifyLoop_emits _ _ _ _ _ Hv) as (evs & Ht & _)
    end; simpl in Ht.
    + exists (calls_of evs). simpl. rewrite Ht.
      rewrite !calls_of_app. simpl. rewrite ?app_nil_r, <- ?app_assoc.
      reflexivity.
    + destruct (includes _ _); simpl; exists (calls_of evs); rewrite Ht;
        rewrite !calls_of_app; simpl; rewrite ?app_nil_r, <- ?app_assoc;
        reflexivity.
    + exists (calls_of evs). simpl. rewrite Ht.
      rewrite !calls_of_app. simpl. rewrite ?app_nil_r, <- ?app_assoc.
      reflexivity.
Qed.
End EarlierCopy.

(** C8 (where the code departs from it).  The driver of
    scripts/helpers/transferHelpers.ts never submits the bulk transfer:
    whatever the batch and the world, processing a batch adds no
    submission to the trace.  For the batch that sends 5 to one recipient,
    in a world where the simulation succeeds and the gas estimate is
    21000, its chain calls are the draw of the sample, the initial
    balance, the simulation, the estimation and the balance read for
    verification, which then fails since nothing was transferred.  On the
    same input the earlier copy of the driver submits the batch with gas
    limit 21000 + 21000 / 10 = 23100. *)
Theorem processSingleBatch_submission :
  (forall W (H : Chain W) fuel (batch : Batch) batchNumber (st : State W),
      submissions
        (calls_of (trace (snd (TransferHelpers.processSingleBatch
                                 fuel batch batchNumber st))))
      = submissions (calls_of (trace st)))
  /\ (let run := TransferHelpers.processSingleBatch 4 to_alice 1 (fresh quiet) in
      calls_of (trace (snd run))
      = [CallRandom; CallBalanceOf alice; CallSimulate [alice] [5];
         CallEstimateGas [alice] [5]; CallBalanceOf alice]
      /\ fst run = Thrown (TransferVerificationFailed alice))
  /\ (let run := Part001.processSingleBatch to_alice 1 (fresh quiet) in
      submissions (calls_of (trace (snd run))) = [([alice], [5], 23100)]
      /\ fst run = Returned tt).
Proof.
  split; [|split].
  - intros W H fuel batch batchNumber st.
    destruct (TransferHelpers.processSingleBatch fuel batch batchNumber st)
      as [r st'] eqn:Hrun.
    destruct (processSingleBatch_emits _ _ _ _ _ _ Hrun) as (evs & Ht & Hp).
    simpl. rewrite Ht, calls_of_app, submissions_app.
    rewrite (submissions_none evs); [apply app_nil_r|].
    eapply Forall_impl; [|exact Hp]. now intros ev [? _].
  - vm_compute. split; reflexivity.
  - vm_compute. split; reflexivity.
Qed.

(** ** Further facts *)

(** X24.  Whatever the world answers (reads, writes and receipts may
    succeed or fail in any way), the allowance guard makes at most two
    approve writes, always for the given spender: none, or one of the
    required amount, or one of 0, or one of 0 followed by one of the
    required amount. *)
Lemma checkTokenAllowance_writes {W} `{Chain W}
    (signer spender : Address) (R : Z) (st : State W) :
  exists calls,
    calls_of (trace (snd (checkTokenAllowance signer spender R st)))
    = calls_of (trace st) ++ calls
    /\ (approve_writes calls = []
        \/ approve_writes calls = [(spender, R)]
        \/ approve_writes calls = [(spender, 0)]
        \/ approve_writes calls = [(spender, 0); (spender, R)]).
Proof.
  run_guard.
  repeat match goal with
         | |- context [match ?x with _ => _ end] =>
             match x with
             | context [match _ with _ => _ end] => fail 1
             | _ => destruct x eqn:?
             end; simpl
         end;
    eexists;
    (split;
     [etransitivity;
      [repeat (rewrite ?calls_of_app, ?app_nil_r, <- ?app_assoc; simpl);
       reflexivity
      | reflexivity]
     |]);
    simpl; auto.
Qed.

(** X25.  The loop of the earlier copy of the driver stops at a failed
    batch: when the checks before the loop pass, the batches before a
    batch are processed and that batch throws, the run throws the same
    error and ends in the very state that the failing batch left, so no
    later batch is started. *)
Lemma earlier_copy_stops_at_failed_batch {W} `{Chain W}
    (pre post : list Batch) (batch : Batch) (signer spender : Address)
    (st st0 st1 st2 : State W) (e : Error) :
  precheck (pre ++ batch :: post) signer spender st = (Returned tt, st0) ->
  forBatches Part001.processSingleBatch pre 0 st0 = (Returned tt, st1) ->
  Part001.processSingleBatch batch (Z.of_nat (length pre) + 1) st1
  = (Thrown e, st2) ->
  Part001.processTransferBatches (pre ++ batch :: post) signer spender st
  = (Thrown e, st2).
Proof.
  intros Hcheck Hpre Hfail. unfold Part001.processTransferBatches.
  rewrite (bind_returned _ _ _ _ _ Hcheck). apply bind_thrown.
  now apply (forBatches_stops _ pre post batch 0 st0 st1 st2 e Hpre).
Qed.

Lemma earlier_copy_stops_at_failed_batch_witness :
  Part001.processTransferBatches ([to_alice] ++ to_bob :: [to_carol])
    the_signer the_spender (fresh second_simulation_refused)
  = (Thrown execution_reverted,
     snd (Part001.processSingleBatch to_bob 2
            (snd (forBatches Part001.processSingleBatch [to_alice] 0
                    (snd (precheck ([to_alice] ++ to_bob :: [to_carol])
                            the_signer the_spender
                            (fresh second_simulation_refused))))))).
Proof.
  set (st := fresh second_simulation_refused).
  set (st0 := snd (precheck ([to_alice] ++ to_bob :: [to_carol])
                     the_signer the_spender st)).
  set (st1 := snd (forBatches Part001.processSingleBatch [to_alice] 0 st0)).
  set (st2 := snd (Part001.processSingleBatch to_bob 2 st1)).
  apply (earlier_copy_stops_at_failed_batch [to_alice] [to_carol] to_bob
           the_signer the_spender st st0 st1 st2 execution_reverted);
    vm_compute; reflexivity.
Defined.

(** X26.  The earlier copy of the driver never waits for the receipt of
    what it submitted: whatever the batch and the world, processing a
    batch adds no wait for a receipt to the trace, so whether the
    transaction is later reverted is not looked at. *)
Lemma earlier_copy_never_waits {W} `{Chain W} (batch : Batch) (batchNumber : Z) :
  emits (fun ev => is_receipt_wait ev = false)
    (Part001.processSingleBatch batch batchNumber).
Proof.
  assert (Hloop : forall recipients samples,
             emits (fun ev => is_receipt_wait ev = false)
               (Part001.verifyLoop recipients samples)).
  { intros recipients. induction samples as [|samples IH]; simpl;
      unfold balanceOf; emits_steps; solve [reflexivity | apply IH]. }
  unfold Part001.processSingleBatch, Part001.tryBlock,
    Part001.verifyBatchTransfers, simulate, estimateGas, bulkSend.
  emits_steps; solve [reflexivity | apply Hloop].
Qed.

(** A world in which the receipt of every transaction would say
    "reverted": the earlier copy still processes all three batches. *)
Example earlier_copy_goes_on_after_a_revert :
  let w := mkStub [inr 100] [inr 100] []
             [inr (mkReceipt reverted 1); inr (mkReceipt reverted 2);
              inr (mkReceipt reverted 3)] [] [] [] [] in
  let run :=
    Part001.processTransferBatches [to_alice; to_bob; to_carol]
      the_signer the_spender (fresh w) in
  fst run = Returned tt
  /\ map (fun s => fst (fst s)) (submissions (calls_of (trace (snd run))))
     = [[alice]; [bob]; [carol]].
Proof. vm_compute. split; reflexivity. Qed.

Example earlier_copy_keeps_submitted_batches :
  let run :=
    Part001.processTransferBatches [to_alice; to_bob; to_carol]
      the_signer the_spender (fresh second_simulation_refused) in
  fst run = Thrown execution_reverted
  /\ submissions (calls_of (trace (snd run))) = [([alice], [5], 23100)].
Proof. vm_compute. split; reflexivity. Qed.

(* ================================================================== *)
(** * Part III — further properties of the code                         *)
(* ================================================================== *)

(** ** The rows of the recipient file: [validateAndParseRow] and
    [loadCSVData] *)

Lemma is_address_length (s : jsstring) :
  is_address s = true -> length s = 42%nat.
Proof.
  destruct s as [|c0 [|c1 body]]; try discriminate. simpl.
  rewrite !andb_true_iff, Nat.eqb_eq. intros [[[_ _] Hlen] _]. now rewrite Hlen.
Qed.

Lemma validateAndParseRow_accepts (row : list jsstring) (index : Z)
    (entry : TransferData) :
  validateAndParseRow row index = inr entry -> accepted_row row entry.
Proof.
  unfold validateAndParseRow, accepted_row.
  destruct (nth_error row 0) as [a|]; [|discriminate].
  destruct (nth_error row 1) as [s|]; cbn [option_map];
    [|rewrite orb_true_r; discriminate].
  destruct (is_falsy (Some (trim a)) || is_falsy (Some (trim s)))%bool;
    [discriminate|].
  destruct (is_address (trim a)) eqn:Ha; [|discriminate]. cbn [negb].
  destruct (parseWeiAmount (trim s)) as [e|v] eqn:Hv; [discriminate|].
  destruct (Z.leb_spec v 0); [discriminate|].
  intros [= <-]. exists a, s. simpl. repeat split; assumption || reflexivity.
Qed.

Lemma validateAndParseRow_rejects (row : list jsstring) (index : Z)
    (e : RowError) :
  validateAndParseRow row index = inl e -> row_number e = index + 1.
Proof.
  unfold validateAndParseRow.
  destruct (is_falsy _ || is_falsy _)%bool; [now intros [= <-]|].
  destruct (option_map trim (nth_error row 0)) as [a|];
    [|now intros [= <-]].
  destruct (option_map trim (nth_error row 1)) as [s|];
    [|now intros [= <-]].
  destruct (is_address a); simpl; [|now intros [= <-]].
  destruct (parseWeiAmount s) as [err|v]; [now intros [= <-]|].
  destruct (v <=? 0); [now intros [= <-] | discriminate].
Qed.

Lemma loadCSVData_from_app (rows1 rows2 : list (list jsstring)) (index : Z) :
  loadCSVData_from (rows1 ++ rows2) index
  = match loadCSVData_from rows1 index with
    | inl e => inl e
    | inr entries1 =>
        match loadCSVData_from rows2 (index + Z.of_nat (length rows1)) with
        | inl e => inl e
        | inr entries2 => inr (entries1 ++ entries2)
        end
    end.
Proof.
  revert index; induction rows1 as [|row rows1 IH]; intros index; simpl.
  - rewrite Z.add_0_r. now destruct (loadCSVData_from rows2 index).
  - destruct (validateAndParseRow row index); [reflexivity|].
    rewrite IH. destruct (loadCSVData_from rows1 (index + 1)); [reflexivity|].
    replace (index + 1 + Z.of_nat (length rows1))
      with (index + Z.pos (Pos.of_succ_nat (length rows1))) by lia.
    now destruct (loadCSVData_from rows2 _).
Qed.

Lemma loadCSVData_from_entries (rows : list (list jsstring)) (index : Z)
    (entries : list TransferData) :
  loadCSVData_from rows index = inr entries ->
  length entries = length rows
  /\ Forall2 accepted_row rows entries
  /\ Forall (fun entry => length (address entry) = 42%nat /\ 0 < amount entry)
            entries.
Proof.
  revert entries index.
  induction rows as [|row rows IH]; intros entries index; simpl.
  - intros [= <-]. repeat split; constructor.
  - destruct (validateAndParseRow row index) as [e|entry] eqn:Hrow;
      [discriminate|].
    destruct (loadCSVData_from rows (index + 1)) as [e|rest] eqn:Hrest;
      [discriminate|].
    intros [= <-]. destruct (IH rest (index + 1) Hrest) as (Hlen & Hall & Hinv).
    pose proof (validateAndParseRow_accepts _ _ _ Hrow) as Hacc.
    split; [simpl; now rewrite Hlen|]. split; [now constructor|].
    constructor; [|assumption].
    destruct Hacc as (a & s & _ & _ & _ & Haddr & _ & Hpos).
    split; [now apply is_address_length | assumption].
Qed.

(** [loadCSVData] returns only for a file that exists and that the parser
    read without error; its entries are then those of the rows. *)
Lemma loadCSVData_returns (file : option ParseResult)
    (entries : list TransferData) :
  loadCSVData file = inr entries <->
  exists parsed,
    file = Some parsed /\ parsed_errors parsed = []
    /\ loadCSVData_from (parsed_data parsed) 0 = inr entries.
Proof.
  unfold loadCSVData. split.
  - destruct file as [parsed|]; [|discriminate].
    destruct (parsed_errors parsed) as [|error errors] eqn:Herrors;
      [|discriminate].
    simpl.
    destruct (loadCSVData_from (parsed_data parsed) 0) as [e|loaded]
      eqn:Hrows; [discriminate|].
    intros [= <-]. exists parsed. rewrite Herrors. auto.
  - intros (parsed & -> & Herrors & Hrows). now rewrite Herrors, Hrows.
Qed.

(** X1.  When the recipient file loads, the file exists, the parser
    reported no error, and the load gives one entry per row, in the
    order of the rows; the address of an entry is the trimmed first
    column and has the shape 0x followed by 40 hexadecimal digits (42
    characters), and its amount is what the amount parser reads in the
    trimmed second column and is greater than 0. *)
Theorem loadCSVData_entries (file : option ParseResult)
    (entries : list TransferData) :
  loadCSVData file = inr entries ->
  exists parsed,
    file = Some parsed
    /\ parsed_errors parsed = []
    /\ length entries = length (parsed_data parsed)
    /\ Forall2 accepted_row (parsed_data parsed) entries
    /\ Forall (fun entry => length (address entry) = 42%nat
                            /\ 0 < amount entry)
              entries.
Proof.
  intros Hload. apply loadCSVData_returns in Hload.
  destruct Hload as (parsed & Hfile & Herrors & Hrows).
  exists parsed. split; [assumption|]. split; [assumption|].
  now apply (loadCSVData_from_entries _ 0).
Qed.

Lemma loadCSVData_entries_witness :
  let rows := [[js " 0x00000000000000000000000000000000000000A1 "; js "1,000"];
               [js "0x00000000000000000000000000000000000000b2"; js "7"]] in
  let entries :=
    [mkTransferData (js "0x00000000000000000000000000000000000000A1") 1000;
     mkTransferData (js "0x00000000000000000000000000000000000000b2") 7] in
  loadCSVData (Some (mkParseResult rows [])) = inr entries
  /\ exists parsed,
       Some (mkParseResult rows []) = Some parsed
       /\ parsed_errors parsed = []
       /\ length entries = length (parsed_data parsed)
       /\ Forall2 accepted_row (parsed_data parsed) entries
       /\ Forall (fun entry => length (address entry) = 42%nat
                               /\ 0 < amount entry)
                 entries.
Proof.
  intros rows entries.
  assert (Hload : loadCSVData (Some (mkParseResult rows [])) = inr entries)
    by (vm_compute; reflexivity).
  split; [exact Hload|]. exact (loadCSVData_entries _ entries Hload).
Defined.

(** X2.  The order of the failures of a load.  When the parser reports
    errors, the load fails with them before any row is validated,
    whatever the rows are.  When it reports none, loading fails fast:
    if the rows before a row are all accepted and that row is refused,
    the load fails with the error of that row, whatever rows follow it,
    and the error carries the number of the row counted from 1. *)
Theorem loadCSVData_first_bad_row (good rest : list (list jsstring))
    (bad : list jsstring) (entries : list TransferData) (e : RowError) :
  loadCSVData (Some (mkParseResult good [])) = inr entries ->
  validateAndParseRow bad (Z.of_nat (length good)) = inl e ->
  loadCSVData (Some (mkParseResult (good ++ bad :: rest) []))
  = inl (RowRefused e)
  /\ row_number e = Z.of_nat (length good) + 1
  /\ forall error errors,
       loadCSVData (Some (mkParseResult (good ++ bad :: rest)
                            (error :: errors)))
       = inl (CsvParsingErrors (error :: errors)).
Proof.
  intros Hgood Hbad. apply loadCSVData_returns in Hgood.
  destruct Hgood as (parsed & [= <-] & _ & Hgood). simpl in Hgood.
  split; [|split].
  - unfold loadCSVData. simpl.
    rewrite loadCSVData_from_app, Hgood. simpl. now rewrite Hbad.
  - now apply validateAndParseRow_rejects in Hbad.
  - reflexivity.
Qed.

Lemma loadCSVData_first_bad_row_witness :
  loadCSVData
    (Some (mkParseResult
             [[js "0x00000000000000000000000000000000000000a1"; js "5"];
              [js "0x00000000000000000000000000000000000000b2"; js "0"];
              [js "not an address"; js "1"]] []))
  = inl (RowRefused (AmountNotPositive 2 0)).
Proof.
  apply (loadCSVData_first_bad_row
           [[js "0x00000000000000000000000000000000000000a1"; js "5"]]
           [[js "not an address"; js "1"]]
           [js "0x00000000000000000000000000000000000000b2"; js "0"]
           [mkTransferData (js "0x00000000000000000000000000000000000000a1") 5]
           (AmountNotPositive 2 0)); reflexivity.
Defined.

(** ** The two recipient loaders side by side *)

Lemma filter_fixed {A} (f : A -> bool) (l : list A) :
  filter f l = l -> forallb f l = true.
Proof.
  induction l as [|x l IH]; simpl; [reflexivity|].
  destruct (f x) eqn:Hx.
  - intros [= Hl]. now rewrite IH.
  - intros Hl. pose proof (filter_length_le f l) as Hle.
    rewrite Hl in Hle. simpl in Hle. lia.
Qed.

Lemma trim_no_space (s : jsstring) :
  forallb (fun c => negb (is_js_whitespace c)) s = true -> trim s = s.
Proof.
  intros Hall. unfold trim.
  assert (Hdrop : forall t,
             forallb (fun c => negb (is_js_whitespace c)) t = true ->
             drop_while is_js_whitespace t = t).
  { intros [|c t] Ht; [reflexivity|]. simpl in *.
    apply andb_true_iff in Ht. destruct Ht as [Hc _].
    apply negb_true_iff in Hc. now rewrite Hc. }
  rewrite (Hdrop s Hall), Hdrop by now rewrite forallb_rev.
  apply rev_involutive.
Qed.

Lemma plain_amount_trim (s : jsstring) :
  remove_all is_quote_or_space s = s -> trim s = s.
Proof.
  intros Hs. apply trim_no_space. apply filter_fixed in Hs.
  eapply forallb_impl; [|exact Hs]. intros c Hc. simpl in Hc.
  apply negb_true_iff in Hc. unfold is_quote_or_space in Hc.
  apply orb_false_iff in Hc. destruct Hc as [_ Hc]. now rewrite Hc.
Qed.

Lemma plain_row_step (row : list jsstring) (index : Z) (entry : TransferData)
    (m : Map Z) :
  plain_row row ->
  validateAndParseRow row index = inr entry ->
  loadRecipients_step m row
  = inr (map_set (toLowerCase (address entry)) (amount entry) m).
Proof.
  intros (a & s & Ha & Hs & Htrim & Hplain) Hrow.
  destruct (validateAndParseRow_accepts _ _ _ Hrow)
    as (a' & s' & Ha' & Hs' & Haddr & _ & Hparse & _).
  rewrite Ha in Ha'. injection Ha' as <-. rewrite Hs in Hs'. injection Hs' as <-.
  rewrite (plain_amount_trim s Hplain) in Hparse.
  unfold parseWeiAmount in Hparse. rewrite Hplain in Hparse.
  destruct (matches_digits (remove_all is_comma s)); [|discriminate].
  simpl in Hparse.
  unfold loadRecipients_step. rewrite Hs, Ha.
  destruct (BigInt (remove_all is_comma s)) as [v|]; [|discriminate].
  injection Hparse as ->. now rewrite Haddr, Htrim.
Qed.

Lemma plain_rows_load (rows : list (list jsstring)) :
  Forall plain_row rows ->
  forall index entries m,
    loadCSVData_from rows index = inr entries ->
    loadRecipients_from m rows = inr (recipient_map entries m).
Proof.
  induction 1 as [|row rows Hrow _ IH]; intros index entries m; simpl.
  - now intros [= <-].
  - destruct (validateAndParseRow row index) as [e|entry] eqn:Hentry;
      [discriminate|].
    destruct (loadCSVData_from rows (index + 1)) as [e|rest] eqn:Hrest;
      [discriminate|].
    intros [= <-]. rewrite (plain_row_step row index entry m Hrow Hentry).
    simpl. now apply (IH (index + 1)).
Qed.

(** X3.  The transfer script reads the recipient file through one
    parser and [loadCSVData], the verification script through another
    parser and [loadRecipients]; the two parsers need not split a file
    into the same rows.  Whenever they do give the same rows, and these
    are plain (no white space around the address, neither quotes nor
    white space in the amount), and the transfer loader accepts them,
    the verification loader succeeds too, and its map is the one built
    from the transfer entries: under each lowercased address the amount
    of the last entry with that address. *)
Theorem loaders_agree_on_plain_rows (parsed : ParseResult)
    (records : list CsvRecord) (entries : list TransferData) :
  records = parsed_data parsed ->
  Forall plain_row records ->
  loadCSVData (Some parsed) = inr entries ->
  loadRecipients records = inr (recipient_map entries []).
Proof.
  intros -> Hplain Hload. apply loadCSVData_returns in Hload.
  destruct Hload as (parsed' & [= <-] & _ & Hrows).
  now apply (plain_rows_load _ Hplain 0).
Qed.

Lemma loaders_agree_on_plain_rows_witness :
  loadRecipients
    [[js "0x00000000000000000000000000000000000000A1"; js "1,000"];
     [js "0x00000000000000000000000000000000000000a1"; js "7"]]
  = inr [(js "0x00000000000000000000000000000000000000a1", 7)].
Proof.
  apply (loaders_agree_on_plain_rows
           (mkParseResult
              [[js "0x00000000000000000000000000000000000000A1"; js "1,000"];
               [js "0x00000000000000000000000000000000000000a1"; js "7"]] [])
           [[js "0x00000000000000000000000000000000000000A1"; js "1,000"];
            [js "0x00000000000000000000000000000000000000a1"; js "7"]]
           [mkTransferData (js "0x00000000000000000000000000000000000000A1")
                           1000;
            mkTransferData (js "0x00000000000000000000000000000000000000a1")
                           7]).
  - reflexivity.
  - repeat constructor; do 2 eexists; repeat split; reflexivity.
  - vm_compute. reflexivity.
Defined.

(** ** Decimal text and [BigInt] *)

Lemma decimal_digits (n : Z) :
  0 <= n -> decimal n <> [] /\ forallb is_digit (decimal n) = true.
Proof.
  intros Hn. destruct (decimal_spec n Hn) as [Hm _].
  unfold matches_digits in Hm.
  destruct (decimal n); [discriminate|]. split; [discriminate | exact Hm].
Qed.

Lemma digit_not_minus (c : jschar) : is_digit c = true -> N.eqb c ch_minus = false.
Proof. intros H. by_digit_cases H. Qed.

Lemma bigint_to_string_no_space (z : Z) :
  forallb (fun c => negb (is_js_whitespace c)) (bigint_to_string z) = true.
Proof.
  unfold bigint_to_string. destruct (Z.ltb_spec z 0).
  - destruct (decimal_digits (- z) ltac:(lia)) as [_ Hd]. simpl.
    eapply forallb_impl; [|exact Hd].
    intros c Hc. now rewrite (digit_not_space c Hc).
  - destruct (decimal_digits z ltac:(lia)) as [_ Hd].
    eapply forallb_impl; [|exact Hd].
    intros c Hc. now rewrite (digit_not_space c Hc).
Qed.

(** X4.  Decimal text round trip: [BigInt] reads back every integer,
    negative ones included, from the text that [toString] gives for it.
    (The balance files are written with [toString] and read with
    [BigInt].) *)
Theorem BigInt_of_bigint_to_string (z : Z) :
  BigInt (bigint_to_string z) = Some z.
Proof.
  pose proof (bigint_to_string_no_space z) as Hspace.
  unfold BigInt. rewrite (trim_no_space _ Hspace).
  unfold bigint_to_string. destruct (Z.ltb_spec z 0) as [Hneg|Hpos].
  - destruct (decimal_spec (- z) ltac:(lia)) as [Hm Hv].
    destruct (decimal (- z)) as [|c1 body] eqn:Hd; [discriminate|].
    change (N.eqb ch_minus 48) with false. simpl andb. cbv iota.
    change (N.eqb ch_minus ch_minus) with true. cbv iota.
    unfold parse_radix. rewrite Hv. simpl. f_equal. lia.
  - destruct (decimal_spec z Hpos) as [Hm Hv].
    pose proof (BigInt_digits _ Hm) as HB. unfold BigInt in HB.
    destruct (decimal_digits z Hpos) as [_ Hd].
    rewrite (trim_digits _ Hd) in HB. now rewrite HB.
Qed.

Lemma bigint_to_string_no_comma (z : Z) :
  remove_all is_comma (bigint_to_string z) = bigint_to_string z.
Proof.
  apply remove_all_none. unfold bigint_to_string. destruct (Z.ltb_spec z 0).
  - destruct (decimal_digits (- z) ltac:(lia)) as [_ Hd]. simpl.
    eapply forallb_impl; [|exact Hd].
    intros c Hc. now destruct (digit_not_stripped c Hc) as [_ ->].
  - destruct (decimal_digits z ltac:(lia)) as [_ Hd].
    eapply forallb_impl; [|exact Hd].
    intros c Hc. now destruct (digit_not_stripped c Hc) as [_ ->].
Qed.

Lemma parseWeiAmount_negative (z : Z) :
  z < 0 ->
  parseWeiAmount (bigint_to_string z)
  = inl (InvalidAmountFormat (bigint_to_string z)).
Proof.
  intros Hz. unfold parseWeiAmount.
  assert (Hq : remove_all is_quote_or_space (bigint_to_string z)
               = bigint_to_string z).
  { apply remove_all_none. unfold bigint_to_string.
    destruct (Z.ltb_spec z 0); [|lia].
    destruct (decimal_digits (- z) ltac:(lia)) as [_ Hd]. simpl.
    eapply forallb_impl; [|exact Hd].
    intros c Hc. now destruct (digit_not_stripped c Hc) as [-> _]. }
  rewrite Hq, bigint_to_string_no_comma.
  unfold bigint_to_string. destruct (Z.ltb_spec z 0); [|lia]. reflexivity.
Qed.

(** X5.  The verification loader validates nothing: for any address
    text and any integer that is zero or negative, written in decimal, it
    stores the amount under the lowercased text, while the transfer
    loader refuses the same row and reports its number. *)
Theorem loaders_differ_on_nonpositive (a : jsstring) (z index : Z) (m : Map Z) :
  z <= 0 ->
  loadRecipients_step m [a; bigint_to_string z]
  = inr (map_set (toLowerCase a) z m)
  /\ exists e,
       validateAndParseRow [a; bigint_to_string z] index = inl e
       /\ row_number e = index + 1.
Proof.
  intros Hz. split.
  - unfold loadRecipients_step. simpl.
    now rewrite bigint_to_string_no_comma, BigInt_of_bigint_to_string.
  - destruct (validateAndParseRow [a; bigint_to_string z] index)
      as [e|entry] eqn:Hrow.
    + exists e. split; [reflexivity|].
      now apply validateAndParseRow_rejects in Hrow.
    + exfalso.
      destruct (validateAndParseRow_accepts _ _ _ Hrow)
        as (a' & s' & _ & Hs & _ & _ & Hparse & Hpos).
      injection Hs as <-.
      rewrite (trim_no_space _ (bigint_to_string_no_space z)) in Hparse.
      destruct (Z.ltb_spec z 0) as [Hneg|Hnn].
      * rewrite (parseWeiAmount_negative z Hneg) in Hparse. discriminate.
      * assert (z = 0) by lia. subst z.
        change (parseWeiAmount (bigint_to_string 0)) with (@inr Error Z 0)
          in Hparse.
        injection Hparse as Hzero. lia.
Qed.

Lemma loaders_differ_on_nonpositive_witness :
  loadRecipients_step [] [js "nobody"; bigint_to_string (-5)]
  = inr (map_set (toLowerCase (js "nobody")) (-5) [])
  /\ exists e,
       validateAndParseRow [js "nobody"; bigint_to_string (-5)] 0 = inl e
       /\ row_number e = 0 + 1.
Proof. apply (loaders_differ_on_nonpositive (js "nobody") (-5) 0 []). lia. Defined.

(** ** The balance snapshots: written by the reader script, read by the
    verification script *)






(** X7.  The header line is left out by its position, not by what it
    is.  The loader of the start balances leaves out no line, so on
    every file that the reader script saves it fails at the header line,
    whose second column is not a number.  The loader of the end balances
    leaves out the first line only, so on a saved file that an empty
    line precedes, what it leaves out is the empty line, and it fails at
    the header line in the same way. *)
Theorem header_is_skipped_by_position (balances : list BalanceEntry) :
  loadStartBalances (saveToCSV balances) = inl SyntaxError
  /\ loadEndBalances (None :: saveToCSV balances) = inl SyntaxError.
Proof. split; reflexivity. Qed.

(** ** The report of the verification script *)

Lemma totalDiscrepancy_from (results : list VerificationResult) (sum : Z) :
  fold_left (fun sum result => sum + or_0n (difference result)) results sum
  = sum + totalDiscrepancy results.
Proof.
  unfold totalDiscrepancy. revert sum.
  induction results as [|r results IH]; intros sum; simpl; [lia|].
  rewrite IH, (IH (or_0n (difference r))). lia.
Qed.

(** X8.  The total discrepancy that the report prints, summed over the
    mismatches only, is the sum over all expected transfers of end
    balance minus start balance minus expected amount (a missing balance
    counting as zero): the matching entries add nothing, and opposite
    discrepancies cancel.  Matches and mismatches together are all the
    results. *)
Theorem report_total_discrepancy (startBalances endBalances recipients : Map Z) :
  let results := verifyTransfers startBalances endBalances recipients in
  totalDiscrepancy (report_mismatches results)
  = sum_list
      (map (fun entry =>
              balance_or_zero (fst entry) endBalances
              - (balance_or_zero (fst entry) startBalances + snd entry))
           recipients)
  /\ (length (report_matches results) + length (report_mismatches results)
      = length recipients)%nat.
Proof.
  unfold verifyTransfers, report_mismatches, report_matches.
  induction recipients as [|[a x] rest [IHsum IHlen]]; simpl;
    [split; reflexivity|].
  rewrite !or_0n_default.
  set (s := balance_or_zero a startBalances) in *.
  set (e := balance_or_zero a endBalances) in *.
  destruct (Z.eqb_spec e (s + x)) as [Heq|Hne]; simpl.
  - split; [rewrite IHsum; lia | now rewrite IHlen].
  - unfold totalDiscrepancy in *. simpl.
    rewrite totalDiscrepancy_from. unfold totalDiscrepancy. rewrite IHsum.
    split.
    + destruct (Z.eqb_spec (e - (s + x)) 0); lia.
    + rewrite <- IHlen. lia.
Qed.

(** ** The contract: [bulkSendERC20Different] and [bulkSendERC20Equal] *)

Lemma sum_list_positive (amounts : list Z) :
  forallb (fun a => a >? 0) amounts = true -> 0 <= sum_list amounts.
Proof.
  induction amounts as [|a amounts IH]; simpl; [lia|].
  rewrite andb_true_iff. intros [Ha Hrest]. specialize (IH Hrest). lia.
Qed.

Lemma sum_amounts_returns (amounts : list Z) (totalAmount total : Z) :
  sum_amounts amounts totalAmount = inr total <->
  forallb (fun a => a >? 0) amounts = true
  /\ total = totalAmount + sum_list amounts
  /\ (amounts <> [] -> total <= uint256_max).
Proof.
  revert totalAmount; induction amounts as [|a amounts IH]; intros totalAmount;
    simpl.
  - split.
    + intros [= <-]. repeat split; [lia | congruence].
    + intros (_ & -> & _). f_equal. lia.
  - destruct (Z.gtb_spec a 0) as [Ha|Ha]; simpl.
    + destruct (Z.gtb_spec (totalAmount + a) uint256_max) as [Hover|Hok].
      * split; [discriminate|]. intros (Hpos & -> & Hmax).
        pose proof (sum_list_positive amounts Hpos).
        specialize (Hmax ltac:(discriminate)). lia.
      * rewrite IH. split.
        -- intros (Hpos & -> & Hmax). repeat split; [assumption | lia |].
           intros _. destruct amounts as [|a' amounts'].
           ++ simpl. lia.
           ++ apply Hmax. discriminate.
        -- intros (Hpos & -> & Hmax). repeat split; [assumption | lia |].
           intros _. apply Hmax. discriminate.
    + split; [discriminate | intros ([=] & _)].
Qed.

Lemma sum_amounts_reason (amounts : list Z) (totalAmount : Z) (reason : string) :
  sum_amounts amounts totalAmount = inl reason ->
  reason = "BulkSender: Amount must be greater than 0"%string
  \/ reason = "panic: arithmetic overflow"%string.
Proof.
  revert totalAmount; induction amounts as [|a amounts IH]; intros totalAmount;
    simpl; [discriminate|].
  destruct (a >? 0); simpl; [|intros [= <-]; now left].
  destruct (totalAmount + a >? uint256_max); [intros [= <-]; now right|].
  apply IH.
Qed.

Lemma distribute_returns (recipients amounts : list Z) (calls : list TokenCall) :
  length recipients = length amounts ->
  (distribute recipients amounts = inr calls <->
   forallb (fun r => negb (r =? 0)) recipients = true
   /\ calls = transfers recipients amounts).
Proof.
  revert amounts calls.
  induction recipients as [|r recipients IH]; intros [|a amounts] calls Hlen;
    try discriminate; simpl.
  - unfold transfers. simpl. split; [intros [= <-] | intros [_ ->]]; auto.
  - injection Hlen as Hlen. destruct (r =? 0); simpl.
    + split; [discriminate | intros [[=] _]].
    + destruct (distribute recipients amounts) as [reason|calls'] eqn:Hd.
      * split; [discriminate|]. intros [Hall ->].
        pose proof (proj2 (IH amounts _ Hlen) (conj Hall eq_refl)) as Hgood.
        rewrite Hd in Hgood. discriminate.
      * destruct (proj1 (IH amounts calls' Hlen) Hd) as [Hall ->].
        split; [intros [= <-] | intros [_ ->]]; auto.
Qed.

Lemma sent_values_transfers (recipients amounts : list Z) :
  length recipients = length amounts ->
  sent_values (transfers recipients amounts) = amounts.
Proof.
  revert amounts; induction recipients as [|r recipients IH];
    intros [|a amounts]; try discriminate; [reflexivity|].
  intros [= Hlen]. unfold transfers in *. simpl. now rewrite IH.
Qed.

Lemma pulled_values_transfers (recipients amounts : list Z) :
  pulled_values (transfers recipients amounts) = [].
Proof.
  unfold transfers. induction (combine recipients amounts); [reflexivity|].
  assumption.
Qed.

(** X9.  What a successful call needs.  Whenever
    [bulkSendERC20Different] succeeds, the contract is not paused, the
    recipient array is not empty and not longer than the recipient limit,
    the two arrays have the same length, every amount is greater than 0,
    the sum of the amounts fits 256 bits and is covered by the allowance
    and by the balance that the token reports for the sender, the token
    address is not zero and no recipient is the zero address.  (The
    conditions are necessary, not sufficient: the token may still revert
    a call.) *)
Theorem bulkSendERC20Different_success_conditions (c : BulkSender)
    (sender token allowance senderBalance : Z) (recipients amounts : list Z)
    (calls : list TokenCall) :
  bulkSendERC20Different c sender token allowance senderBalance
    recipients amounts = inr calls ->
  paused c = false
  /\ (0 < length recipients)%nat
  /\ Z.of_nat (length recipients) <= recipientLimit c
  /\ length recipients = length amounts
  /\ Forall (fun a => 0 < a) amounts
  /\ sum_list amounts <= uint256_max
  /\ token <> 0
  /\ sum_list amounts <= allowance
  /\ sum_list amounts <= senderBalance
  /\ Forall (fun r => r <> 0) recipients.
Proof.
  unfold bulkSendERC20Different. intros Hrun.
  destruct (paused c); [discriminate|].
  destruct (Z.gtb_spec (Z.of_nat (length recipients)) 0) as [Hne|];
    [|discriminate].
  destruct (Z.leb_spec (Z.of_nat (length recipients)) (recipientLimit c));
    [|discriminate].
  destruct (Nat.eqb_spec (length recipients) (length amounts)) as [Hlen|];
    [|discriminate].
  simpl in Hrun.
  destruct (sum_amounts amounts 0) as [|total] eqn:Hsum; [discriminate|].
  apply sum_amounts_returns in Hsum. destruct Hsum as (Hpos & -> & Hmax).
  simpl in Hrun.
  destruct (Z.eqb_spec token 0); [discriminate|].
  destruct (Z.gtb_spec (sum_list amounts) 0); [|discriminate].
  destruct (Z.geb_spec allowance (sum_list amounts)); [|discriminate].
  destruct (Z.geb_spec senderBalance (sum_list amounts)); [|discriminate].
  simpl in Hrun.
  destruct (distribute recipients amounts) as [|calls'] eqn:Hd;
    [discriminate|].
  apply (distribute_returns _ _ _ Hlen) in Hd. destruct Hd as [Hrec _].
  repeat split; try assumption; try lia.
  - apply Forall_forall. intros a Ha.
    rewrite forallb_forall in Hpos. specialize (Hpos a Ha). lia.
  - apply Hmax. intros ->. simpl in Hlen. lia.
  - apply Forall_forall. intros r Hr.
    rewrite forallb_forall in Hrec. specialize (Hrec r Hr).
    apply negb_true_iff in Hrec. lia.
Qed.

Lemma bulkSendERC20Different_success_conditions_witness :
  bulkSendERC20Different (deployed 9) 1 4 20 15 [2; 3] [5; 7]
  = inr [SafeTransferFrom 1 9 12; SafeTransfer 2 5; SafeTransfer 3 7]
  /\ sum_list [5; 7] <= 20
  /\ sum_list [5; 7] <= 15.
Proof.
  assert (Hrun : bulkSendERC20Different (deployed 9) 1 4 20 15 [2; 3] [5; 7]
                 = inr [SafeTransferFrom 1 9 12; SafeTransfer 2 5;
                        SafeTransfer 3 7]) by reflexivity.
  split; [exact Hrun|].
  destruct (bulkSendERC20Different_success_conditions _ _ _ _ _ _ _ _ Hrun)
    as (_ & _ & _ & _ & _ & _ & _ & Hallow & Hbal & _).
  split; assumption.
Defined.

(** X10.  A successful [bulkSendERC20Different] makes exactly these token
    calls, in this order: it pulls the sum of the amounts from the sender
    to the contract, then sends each recipient its amount, position by
    position.  What it sends adds up to what it pulled: the call leaves
    nothing of the sender's tokens at the contract and spends none of
    the tokens that were there before. *)
Theorem bulkSendERC20Different_conservation (c : BulkSender)
    (sender token allowance senderBalance : Z) (recipients amounts : list Z)
    (calls : list TokenCall) :
  bulkSendERC20Different c sender token allowance senderBalance
    recipients amounts = inr calls ->
  calls = SafeTransferFrom sender (this c) (sum_list amounts)
          :: transfers recipients amounts
  /\ sent_values calls = amounts
  /\ pulled_values calls = [sum_list amounts]
  /\ sum_list (sent_values calls) = sum_list (pulled_values calls).
Proof.
  unfold bulkSendERC20Different.
  destruct (paused c); [discriminate|].
  destruct (Z.of_nat (length recipients) >? 0); [|discriminate].
  destruct (Z.of_nat (length recipients) <=? recipientLimit c); [|discriminate].
  destruct (Nat.eqb_spec (length recipients) (length amounts)) as [Hlen|];
    [|discriminate].
  simpl.
  destruct (sum_amounts amounts 0) as [|total] eqn:Hsum; [discriminate|].
  apply sum_amounts_returns in Hsum. destruct Hsum as (_ & -> & _). simpl.
  destruct (token =? 0); [discriminate|].
  destruct (sum_list amounts >? 0); [|discriminate].
  destruct (allowance >=? sum_list amounts); [|discriminate].
  destruct (senderBalance >=? sum_list amounts); [|discriminate].
  simpl.
  destruct (distribute recipients amounts) as [|calls'] eqn:Hd; [discriminate|].
  apply (distribute_returns _ _ _ Hlen) in Hd. destruct Hd as [_ ->].
  intros [= <-]. simpl.
  rewrite (sent_values_transfers _ _ Hlen), pulled_values_transfers.
  simpl. repeat split. lia.
Qed.

Lemma bulkSendERC20Different_conservation_witness :
  sent_values [SafeTransferFrom 1 9 12; SafeTransfer 2 5; SafeTransfer 3 7]
  = [5; 7].
Proof.
  apply (bulkSendERC20Different_conservation (deployed 9) 1 4 12 12
           [2; 3] [5; 7]
           [SafeTransferFrom 1 9 12; SafeTransfer 2 5; SafeTransfer 3 7]).
  reflexivity.
Defined.

Lemma sum_list_repeat (amount : Z) (n : nat) :
  sum_list (repeat amount n) = amount * Z.of_nat n.
Proof.
  induction n as [|n IH]; [simpl; lia|].
  cbn [repeat sum_list fold_right]. fold (sum_list (repeat amount n)).
  rewrite IH. lia.
Qed.

Lemma sum_amounts_repeat (amount : Z) (n : nat) (totalAmount : Z) :
  amount > 0 -> totalAmount <= uint256_max ->
  sum_amounts (repeat amount n) totalAmount
  = if totalAmount + amount * Z.of_nat n >? uint256_max
    then inl "panic: arithmetic overflow"%string
    else inr (totalAmount + amount * Z.of_nat n).
Proof.
  intros Ha. revert totalAmount.
  induction n as [|n IH]; intros totalAmount Hmax.
  - simpl. replace (totalAmount + amount * 0) with totalAmount by lia.
    destruct (Z.gtb_spec totalAmount uint256_max); [lia | reflexivity].
  - cbn [repeat sum_amounts].
    destruct (Z.gtb_spec amount 0); [|lia]. cbn [negb].
    destruct (Z.gtb_spec (totalAmount + amount) uint256_max) as [Hover|Hok].
    + destruct (Z.gtb_spec (totalAmount + amount * Z.of_nat (S n)) uint256_max);
        [reflexivity | nia].
    + rewrite IH by lia.
      replace (totalAmount + amount + amount * Z.of_nat n)
        with (totalAmount + amount * Z.of_nat (S n)) by lia.
      reflexivity.
Qed.

Lemma distribute_repeat (recipients : list Z) (amount : Z) :
  distribute recipients (repeat amount (length recipients))
  = distributeEqual recipients amount.
Proof.
  induction recipients as [|r recipients IH]; simpl; [reflexivity|].
  now rewrite IH.
Qed.

Lemma bulkSendERC20Equal_repeat (c : BulkSender)
    (sender token allowance senderBalance : Z) (recipients : list Z)
    (amount : Z) :
  bulkSendERC20Equal c sender token allowance senderBalance recipients amount
  = bulkSendERC20Different c sender token allowance senderBalance recipients
      (repeat amount (length recipients)).
Proof.
  unfold bulkSendERC20Equal, bulkSendERC20Different.
  destruct (paused c); [reflexivity|].
  destruct (Z.gtb_spec (Z.of_nat (length recipients)) 0) as [Hne|];
    [|reflexivity].
  destruct (Z.of_nat (length recipients) <=? recipientLimit c); [|reflexivity].
  rewrite repeat_length, Nat.eqb_refl. cbn [negb].
  destruct (Z.gtb_spec amount 0) as [Hpos|Hnot]; cbn [negb].
  - rewrite sum_amounts_repeat by (unfold uint256_max; lia). simpl Z.add.
    destruct (amount * Z.of_nat (length recipients) >? uint256_max);
      [reflexivity|].
    now rewrite distribute_repeat.
  - destruct recipients as [|r recipients]; [simpl in Hne; lia|].
    cbn [length repeat sum_amounts].
    destruct (Z.gtb_spec amount 0); [lia | reflexivity].
Qed.

(** X11.  The equal-amount call is the different-amount call on an
    amount array that repeats the amount once per recipient: the two give
    the same token calls, and when they revert they revert with the same
    reason, for every state of the contract and every input. *)
Theorem bulkSendERC20Equal_as_Different (c : BulkSender)
    (sender token allowance senderBalance : Z) (recipients : list Z)
    (amount : Z) :
  bulkSendERC20Equal c sender token allowance senderBalance recipients amount
  = bulkSendERC20Different c sender token allowance senderBalance recipients
      (repeat amount (length recipients)).
Proof. apply bulkSendERC20Equal_repeat. Qed.

(** X12.  Dead check: neither bulk call can ever revert with "Total
    amount must be greater than 0".  When that check is reached the array
    is not empty and every amount is positive, so the total is
    positive. *)
Theorem total_amount_check_never_fires (c : BulkSender)
    (sender token allowance senderBalance : Z) (recipients amounts : list Z)
    (amount : Z) :
  bulkSendERC20Different c sender token allowance senderBalance
    recipients amounts
  <> inl "BulkSender: Total amount must be greater than 0"%string
  /\ bulkSendERC20Equal c sender token allowance senderBalance
       recipients amount
     <> inl "BulkSender: Total amount must be greater than 0"%string.
Proof.
  assert (Hdiff : forall amounts,
             bulkSendERC20Different c sender token allowance senderBalance
               recipients amounts
             <> inl "BulkSender: Total amount must be greater than 0"%string).
  { clear amounts. intros amounts. unfold bulkSendERC20Different.
    destruct (paused c); [discriminate|].
    destruct (Z.gtb_spec (Z.of_nat (length recipients)) 0) as [Hne|];
      [|discriminate].
    destruct (Z.of_nat (length recipients) <=? recipientLimit c);
      [|discriminate].
    destruct (Nat.eqb_spec (length recipients) (length amounts)) as [Hlen|];
      [|discriminate].
    cbn [negb].
    destruct (sum_amounts amounts 0) as [reason|total] eqn:Hsum.
    - destruct (sum_amounts_reason _ _ _ Hsum) as [-> | ->]; discriminate.
    - apply sum_amounts_returns in Hsum. destruct Hsum as (Hpos & -> & _).
      destruct (token =? 0); [discriminate|].
      assert (0 < sum_list amounts).
      { destruct amounts as [|a amounts]; [simpl in Hlen; lia|].
        simpl in *. apply andb_true_iff in Hpos. destruct Hpos as [Ha Hrest].
        pose proof (sum_list_positive amounts Hrest). lia. }
      destruct (Z.gtb_spec (0 + sum_list amounts) 0); [|lia]. cbn [negb].
      destruct (allowance >=? _); [|discriminate].
      destruct (senderBalance >=? _); [|discriminate]. cbn [negb].
      destruct (distribute recipients amounts) as [reason|calls] eqn:Hd;
        [|discriminate].
      assert (Hreason : forall rs xs reason,
                 distribute rs xs = inl reason ->
                 reason = "BulkSender: Invalid recipient"%string).
      { induction rs as [|r rs IH]; intros [|x xs] reason'; simpl;
          try discriminate.
        destruct (r =? 0); [now intros [= <-]|].
        destruct (distribute rs xs) eqn:Hrest; [|discriminate].
        intros [= <-]. now apply (IH xs). }
      rewrite (Hreason _ _ _ Hd). discriminate. }
  split; [apply Hdiff|]. rewrite bulkSendERC20Equal_repeat.
  apply Hdiff.
Qed.

(** ** The owner's functions *)

Lemma admin_keeps_limit_positive (owner caller : Z) (call : AdminCall)
    (c c' : BulkSender) :
  admin owner caller call c = inr c' ->
  0 < recipientLimit c -> 0 < recipientLimit c' /\ this c' = this c.
Proof.
  unfold admin. destruct (caller =? owner); [|discriminate]. cbn [negb].
  destruct call as [newLimit|[|]].
  - destruct (Z.gtb_spec newLimit 0); [|discriminate]. cbn [negb].
    intros [= <-] _. simpl. split; [lia | reflexivity].
  - destruct (paused c); [discriminate|]. intros [= <-] Hc. now split.
  - destruct (paused c); [|discriminate]. intros [= <-] Hc. now split.
Qed.

Lemma after_calls_keeps_limit_positive (owner : Z)
    (calls : list (Z * AdminCall)) :
  forall c, 0 < recipientLimit c ->
    0 < recipientLimit (after_calls owner calls c)
    /\ this (after_calls owner calls c) = this c.
Proof.
  induction calls as [|[caller call] calls IH]; intros c Hc; simpl;
    [now split|].
  destruct (admin owner caller call c) as [reason|c'] eqn:Hcall.
  - now apply IH.
  - destruct (admin_keeps_limit_positive _ _ _ _ _ Hcall Hc) as [Hc' Hthis].
    destruct (IH c' Hc') as [Hlimit Hsame]. split; [assumption | congruence].
Qed.

(** X13.  The recipient limit is positive in every state that the
    contract can reach from its deployment by calls of [setRecipientLimit]
    and [setPaused], whoever makes them and whether they revert or not
    (the other functions do not write the limit).  So a call with a
    single recipient is never refused for exceeding the limit. *)
Theorem recipientLimit_stays_positive (owner address_of_contract : Z)
    (calls : list (Z * AdminCall))
    (sender token allowance senderBalance recipient amount : Z) :
  let c := after_calls owner calls (deployed address_of_contract) in
  0 < recipientLimit c
  /\ this c = address_of_contract
  /\ bulkSendERC20Different c sender token allowance senderBalance
       [recipient] [amount]
     <> inl "BulkSender: Exceeds recipient limit"%string.
Proof.
  intros c.
  destruct (after_calls_keeps_limit_positive owner calls
              (deployed address_of_contract)) as [Hlimit Hthis];
    [simpl; lia|].
  fold c in Hlimit, Hthis. repeat split; [assumption | assumption |].
  unfold bulkSendERC20Different.
  destruct (paused c); [discriminate|]. simpl length.
  destruct (Z.leb_spec (Z.of_nat 1) (recipientLimit c)); [|lia]. simpl.
  repeat match goal with
         | |- context [if ?b then _ else _] => destruct b; simpl
         end; discriminate.
Qed.

(** X14.  Only the owner changes the state: a sequence of calls of
    [setRecipientLimit] and [setPaused] none of which comes from the
    owner leaves the pause flag and the recipient limit as they were. *)
Theorem only_owner_changes_state (owner : Z) (calls : list (Z * AdminCall))
    (c : BulkSender) :
  Forall (fun call => fst call <> owner) calls ->
  after_calls owner calls c = c.
Proof.
  induction 1 as [|[caller call] calls Hcaller _ IH]; simpl; [reflexivity|].
  unfold admin. simpl in Hcaller.
  destruct (Z.eqb_spec caller owner); [contradiction|]. exact IH.
Qed.

Lemma only_owner_changes_state_witness :
  after_calls 1 [(2, SetRecipientLimit 5); (3, SetPaused true)] (deployed 9)
  = deployed 9.
Proof.
  apply (only_owner_changes_state 1
           [(2, SetRecipientLimit 5); (3, SetPaused true)] (deployed 9)).
  repeat constructor; simpl; lia.
Defined.

(** ** From the recipient file to the contract call *)

Lemma sum_amounts_positive_reason (amounts : list Z) :
  forallb (fun a => a >? 0) amounts = true ->
  forall totalAmount reason,
    sum_amounts amounts totalAmount = inl reason ->
    reason = "panic: arithmetic overflow"%string.
Proof.
  induction amounts as [|a amounts IH]; simpl; [discriminate|].
  rewrite andb_true_iff. intros [Ha Hrest] totalAmount reason.
  rewrite Ha. cbn [negb].
  destruct (totalAmount + a >? uint256_max); [now intros [= <-]|].
  now apply IH.
Qed.

Lemma distribute_reason (recipients amounts : list Z) (reason : string) :
  distribute recipients amounts = inl reason ->
  reason = "BulkSender: Invalid recipient"%string.
Proof.
  revert amounts reason.
  induction recipients as [|r recipients IH]; intros [|a amounts] reason; simpl;
    try discriminate.
  destruct (r =? 0); [now intros [= <-]|].
  destruct (distribute recipients amounts) eqn:Hrest; [|discriminate].
  intros [= <-]. now apply (IH amounts).
Qed.

Lemma fold_left_amounts (entries : list TransferData) (sum : Z) :
  fold_left (fun sum entry => sum + amount entry) entries sum
  = sum + sum_list (map amount entries).
Proof.
  revert sum; induction entries as [|entry entries IH]; intros sum; simpl;
    [lia|].
  rewrite IH. lia.
Qed.

Lemma batch_at_In {T} (b : nat) (array : list T) (k : nat) (x : T) :
  In x (batch_at b array k) -> In x array.
Proof.
  unfold batch_at. intros Hin.
  rewrite <- (firstn_skipn (k * b) array). apply in_or_app. right.
  rewrite <- (firstn_skipn b (skipn (k * b) array)). apply in_or_app.
  now left.
Qed.

(** X15.  The whole way from the file to the call: when the recipient
    file loads and its entries are cut into batches of a size between 1
    and the recipient limit of the contract, the total that the driver
    checks against the balance and the allowance is the sum of all
    amounts of the file, whatever the batch size; and no batch can be
    refused by the array checks of [bulkSendERC20Different] (empty array,
    recipient limit, length mismatch, amount not positive), however the
    addresses are encoded and whatever the sender, the token, the
    allowance and the balance. *)
Theorem loaded_batches_pass_array_checks (file : option ParseResult)
    (entries : list TransferData) (B : Z) (fuel : nat)
    (batches : list Batch) (c : BulkSender) :
  loadCSVData file = inr entries ->
  0 < B <= recipientLimit c ->
  (length entries <= fuel)%nat ->
  createBatches fuel entries B = Some batches ->
  total_amount batches = sum_list (map amount entries)
  /\ Forall
       (fun batch =>
          forall (encode : Address -> Z)
                 (sender token allowance senderBalance : Z) (reason : string),
            bulkSendERC20Different c sender token allowance senderBalance
              (map encode (map address batch)) (map amount batch)
            = inl reason ->
            ~ In reason array_check_reasons)
       batches.
Proof.
  intros Hload [HB Hlimit] Hfuel Hbatches.
  replace B with (Z.of_nat (Z.to_nat B)) in Hbatches by lia.
  rewrite createBatches_closed in Hbatches by lia.
  injection Hbatches as <-.
  set (b := Z.to_nat B) in *.
  assert (Hb : (0 < b)%nat) by (subst b; lia).
  apply loadCSVData_returns in Hload.
  destruct Hload as (parsed & _ & _ & Hload).
  destruct (loadCSVData_from_entries _ _ _ Hload) as (_ & _ & Hentries).
  split.
  - unfold total_amount.
    rewrite concat_batches_prefix,
      (firstn_all2 _ (batch_count_covers b entries Hb)).
    rewrite fold_left_amounts. lia.
  - apply Forall_forall. intros batch Hin.
    apply in_map_iff in Hin. destruct Hin as (k & <- & Hk).
    apply in_seq in Hk. destruct Hk as [_ Hk]. simpl in Hk.
    pose proof (batch_at_length b entries k Hb Hk) as Hlen.
    assert (Hsize : (0 < length (batch_at b entries k) <= b)%nat).
    { rewrite Hlen.
      destruct (S k <? batch_count b entries)%nat; [lia|].
      destruct (Nat.eqb_spec (length entries mod b) 0); [lia|].
      pose proof (Nat.mod_upper_bound (length entries) b). lia. }
    assert (Hpos : forallb (fun a => a >? 0)
                     (map amount (batch_at b entries k)) = true).
    { apply forallb_forall. intros a Ha.
      apply in_map_iff in Ha. destruct Ha as (entry & <- & Hentry).
      apply batch_at_In in Hentry.
      rewrite Forall_forall in Hentries.
      destruct (Hentries entry Hentry) as [_ Hamount]. lia. }
    intros encode sender token allowance senderBalance reason.
    unfold bulkSendERC20Different, array_check_reasons.
    rewrite !length_map.
    destruct (paused c); [intros [= <-]; simpl; intuition discriminate|].
    destruct (Z.gtb_spec (Z.of_nat (length (batch_at b entries k))) 0);
      [|lia].
    destruct (Z.leb_spec (Z.of_nat (length (batch_at b entries k)))
                (recipientLimit c)); [|lia].
    rewrite Nat.eqb_refl. cbn [negb].
    destruct (sum_amounts _ 0) as [why|total] eqn:Hsum.
    + rewrite (sum_amounts_positive_reason _ Hpos _ _ Hsum).
      intros [= <-]; simpl; intuition discriminate.
    + destruct (token =? 0); [intros [= <-]; simpl; intuition discriminate|].
      destruct (total >? 0); cbn [negb];
        [|intros [= <-]; simpl; intuition discriminate].
      destruct (allowance >=? total); cbn [negb];
        [|intros [= <-]; simpl; intuition discriminate].
      destruct (senderBalance >=? total); cbn [negb];
        [|intros [= <-]; simpl; intuition discriminate].
      destruct (distribute _ _) as [why|calls] eqn:Hd; [|discriminate].
      rewrite (distribute_reason _ _ _ Hd).
      intros [= <-]; simpl; intuition discriminate.
Qed.

Lemma loaded_batches_pass_array_checks_witness :
  total_amount
    [[mkTransferData (js "0x00000000000000000000000000000000000000a1") 5];
     [mkTransferData (js "0x00000000000000000000000000000000000000b2") 7]]
  = sum_list
      (map amount
         [mkTransferData (js "0x00000000000000000000000000000000000000a1") 5;
          mkTransferData (js "0x00000000000000000000000000000000000000b2") 7]).
Proof.
  apply (loaded_batches_pass_array_checks
           (Some (mkParseResult
                    [[js "0x00000000000000000000000000000000000000a1"; js "5"];
                     [js "0x00000000000000000000000000000000000000b2"; js "7"]]
                    []))
           [mkTransferData (js "0x00000000000000000000000000000000000000a1") 5;
            mkTransferData (js "0x00000000000000000000000000000000000000b2") 7]
           1 2
           [[mkTransferData (js "0x00000000000000000000000000000000000000a1") 5];
            [mkTransferData (js "0x00000000000000000000000000000000000000b2") 7]]
           (deployed 9)).
  - vm_compute. reflexivity.
  - simpl. lia.
  - simpl. lia.
  - vm_compute. reflexivity.
Defined.

(** ** The checks before the first batch *)

(** X16.  When the balance read at the start is below the total of all
    batches, both copies of the driver stop there: the run throws
    [InsufficientTokenBalance] with the total and the balance, and the
    balance read is its only chain call; the allowance is not read,
    nothing is approved and no batch is started. *)
Theorem insufficient_balance_stops_before_allowance {W} `{Chain W}
    (fuel : nat) (batches : list Batch) (signer spender : Address)
    (st : State W) (balance : Z) (w1 : W) :
  read_balanceOf signer (world st) = (inr balance, w1) ->
  balance < total_amount batches ->
  let stopped :=
    (Thrown (InsufficientTokenBalance (total_amount batches) balance),
     mkState w1
       (trace st
        ++ [Console LogLevel "Total amount to transfer: {}"
              [ArgZ (total_amount batches)];
            Call (CallBalanceOf signer)])) in
  TransferHelpers.processTransferBatches fuel batches signer spender st
  = stopped
  /\ Part001.processTransferBatches batches signer spender st = stopped.
Proof.
  intros Hread Hlow stopped.
  assert (Hcheck : precheck batches signer spender st = stopped).
  { unfold precheck. rewrite bind_console.
    apply bind_thrown. unfold checkTokenBalance, balanceOf.
    erewrite bind_returned by (apply call_returned; exact Hread).
    destruct (Z.ltb_spec balance (total_amount batches)); [|lia].
    unfold throw. subst stopped. simpl. now rewrite <- app_assoc. }
  split.
  - unfold TransferHelpers.processTransferBatches. now apply bind_thrown.
  - unfold Part001.processTransferBatches. now apply bind_thrown.
Qed.

Lemma insufficient_balance_stops_before_allowance_witness :
  calls_of
    (trace
       (snd (TransferHelpers.processTransferBatches 4 [to_alice; to_bob]
               the_signer the_spender
               (fresh (mkStub [inr 11] [] [] [] [] [] [] [])))))
  = [CallBalanceOf the_signer].
Proof.
  destruct (insufficient_balance_stops_before_allowance 4 [to_alice; to_bob]
              the_signer the_spender
              (fresh (mkStub [inr 11] [] [] [] [] [] [] [])) 11 quiet)
    as [Hlive _]; [reflexivity | vm_compute; reflexivity |].
  rewrite Hlive. reflexivity.
Defined.

(** X17.  A reverted receipt stops the allowance guard at once.  When an
    allowance below the required amount exists and the receipt of the
    reset to 0 says "reverted", the guard throws [TransactionReverted]
    with the hash of the reset, and the approval of the required amount
    is never sent: its chain calls are the allowance read, the reset and
    the wait for its receipt. *)
Theorem reverted_reset_stops_guard {W} `{Chain W}
    (signer spender : Address) (R : Z) (st : State W) (A : Z)
    (w1 w2 w3 : W) (h0 : Hash) (receipt : Receipt) :
  reads_allowance signer spender (world st) A w1 ->
  0 < A < R ->
  write_approve spender 0 w1 = (inr h0, w2) ->
  waitForTransactionReceipt h0 w2 = (inr receipt, w3) ->
  status receipt = reverted ->
  let run := checkTokenAllowance signer spender R st in
  fst run = Thrown (TransactionReverted h0)
  /\ world (snd run) = w3
  /\ calls_of (trace (snd run))
     = calls_of (trace st)
       ++ [CallAllowance signer spender; CallApprove spender 0;
           CallWaitReceipt h0].
Proof.
  intros Hread HA Hwrite Hwait Hstatus run. subst run.
  unfold reads_allowance in Hread.
  run_guard. rewrite Hread. simpl.
  destruct (Z.ltb_spec A R); [|lia]. simpl.
  destruct (Z.gtb_spec A 0); [|lia]. simpl.
  rewrite Hwrite. simpl. rewrite Hwait. simpl. rewrite Hstatus. simpl.
  repeat split. calls_of_trace.
Qed.

Lemma reverted_reset_stops_guard_witness :
  let st := fresh (mkStub [] [inr 5] [inr (js "0xb1")]
                     [inr (mkReceipt reverted 3)] [] [] [] []) in
  fst (checkTokenAllowance the_signer the_spender 20 st)
  = Thrown (TransactionReverted (js "0xb1")).
Proof.
  intros st.
  edestruct (reverted_reset_stops_guard the_signer the_spender 20 st 5)
    as [Hthrown _];
    [reflexivity | lia | reflexivity | reflexivity | reflexivity |].
  exact Hthrown.
Defined.

(** ** A completed run of the earlier copy of the driver *)

Section Completed.
Context {W : Type} `{Chain W}.

Lemma bind_returned_inv {A B} (c : M W A) (k : A -> M W B) st b st' :
  bind c k st = (Returned b, st') ->
  exists a st1, c st = (Returned a, st1) /\ k a st1 = (Returned b, st').
Proof.
  unfold bind. destruct (c st) as [[a|e|] st1]; try discriminate. eauto.
Qed.

Lemma precheck_submits_nothing (batches : list Batch)
    (signer spender : Address) :
  emits (fun ev => is_submission ev = false) (precheck batches signer spender).
Proof.
  unfold precheck, checkTokenBalance, checkTokenAllowance,
    waitForTransactionConfirmation, balanceOf, allowance, approve, waitReceipt.
  emits_steps; reflexivity.
Qed.

Lemma verifyLoop_submits_nothing recipients :
  forall samples,
    emits (fun ev => is_submission ev = false)
      (Part001.verifyLoop recipients samples).
Proof.
  induction samples as [|samples IH]; simpl; unfold balanceOf;
    emits_steps; solve [reflexivity | apply IH].
Qed.

Lemma call_answered_inv {A} (c : ChainCall) (op : W -> (Error + A) * W)
    st a st' :
  call c op st = (Returned a, st') ->
  exists w', op (world st) = (inr a, w')
             /\ st' = mkState w' (trace st ++ [Call c]).
Proof.
  unfold call. destruct (op (world st)) as [[e|a'] w']; [discriminate|].
  intros [= <- <-]. eauto.
Qed.

Lemma earlier_batch_returned (batch : Batch) (batchNumber : Z)
    (st st' : State W) :
  Part001.processSingleBatch batch batchNumber st = (Returned tt, st') ->
  exists g,
    estimated_and_sent batch (world st) g
    /\ submissions (calls_of (trace st'))
       = submissions (calls_of (trace st))
         ++ [(map address batch, map amount batch, g + Z.quot g 10)].
Proof.
  unfold Part001.processSingleBatch. rewrite !bind_console.
  cbv zeta. set (st_a := mkState _ _).
  assert (Ha : submissions (calls_of (trace st_a))
               = submissions (calls_of (trace st))).
  { subst st_a. simpl. rewrite <- app_assoc, calls_of_app. simpl.
    now rewrite app_nil_r. }
  assert (Hw : world st_a = world st) by reflexivity.
  rewrite <- Ha, <- Hw. clearbody st_a. clear Ha Hw.
  unfold try_catch.
  destruct (Part001.tryBlock _ _ batchNumber st_a) as [[[]|e|] st1] eqn:Htry;
    [|destruct (includes _ _); rewrite bind_console; discriminate
     |discriminate].
  intros [= <-]. unfold Part001.tryBlock in Htry.
  rewrite bind_console in Htry.
  apply bind_returned_inv in Htry. destruct Htry as ([] & st2 & Hsim & Htry).
  apply call_answered_inv in Hsim. destruct Hsim as (w1 & Hsim & ->).
  simpl in Hsim.
  rewrite bind_console in Htry.
  apply bind_returned_inv in Htry. destruct Htry as (g & st3 & Hest & Htry).
  apply call_answered_inv in Hest. destruct Hest as (w2 & Hest & ->).
  simpl in Hest.
  rewrite !bind_console in Htry.
  apply bind_returned_inv in Htry. destruct Htry as (hash & st4 & Hsend & Htry).
  apply call_answered_inv in Hsend. destruct Hsend as (w3 & Hsend & ->).
  simpl in Hsend.
  rewrite bind_console in Htry.
  destruct (verifyLoop_submits_nothing _ _ _ _ _ Htry) as (evs & Ht & Hquiet).
  simpl in Ht.
  exists g. split; [exists w1, w2, hash, w3; auto|].
  rewrite Ht.
  repeat (rewrite ?calls_of_app, ?submissions_app; simpl).
  rewrite (submissions_none evs Hquiet). now rewrite !app_nil_r.
Qed.

Lemma earlier_batches_returned (batches : list Batch) :
  forall (i : Z) (st st' : State W),
    forBatches Part001.processSingleBatch batches i st = (Returned tt, st') ->
    exists gases,
      estimated_in_turn batches i st gases st'
      /\ length gases = length batches
      /\ submissions (calls_of (trace st'))
         = submissions (calls_of (trace st))
           ++ map (fun bg => (map address (fst bg), map amount (fst bg),
                              snd bg + Z.quot (snd bg) 10))
                  (combine batches gases).
Proof.
  induction batches as [|batch batches IH]; intros i st st'; simpl.
  - intros [= <-]. exists []. simpl. now rewrite app_nil_r.
  - intros Hrun. apply bind_returned_inv in Hrun.
    destruct Hrun as ([] & st1 & Hbatch & Hrest).
    destruct (earlier_batch_returned _ _ _ _ Hbatch) as (g & Hworld & Hg).
    destruct (IH _ _ _ Hrest) as (gases & Hturn & Hlen & Hs).
    exists (g :: gases). split; [|split].
    + simpl. exists st1. auto.
    + simpl. now rewrite Hlen.
    + rewrite Hs, Hg, <- app_assoc. reflexivity.
Qed.
End Completed.

(** X18.  When a run of the earlier copy of the driver completes, it has
    submitted every batch exactly once, in the order of the batches, each
    with the addresses and the amounts of the batch, and it made no other
    submission.  The gas limit of each submission is [g + g / 10]
    (integer division), where [g] is the very value that the gas
    estimation of that batch returned, asked in the world as the
    simulation of that batch left it; the submission was made in the
    world as the estimation left it. *)
Theorem earlier_copy_submits_every_batch {W} `{Chain W}
    (batches : list Batch) (signer spender : Address) (st st' : State W) :
  Part001.processTransferBatches batches signer spender st
  = (Returned tt, st') ->
  exists st0 st1 gases,
    precheck batches signer spender st = (Returned tt, st0)
    /\ estimated_in_turn batches 0 st0 gases st1
    /\ length gases = length batches
    /\ submissions (calls_of (trace st'))
       = submissions (calls_of (trace st))
         ++ map (fun bg => (map address (fst bg), map amount (fst bg),
                            snd bg + Z.quot (snd bg) 10))
                (combine batches gases).
Proof.
  unfold Part001.processTransferBatches. intros Hrun.
  apply bind_returned_inv in Hrun. destruct Hrun as ([] & st0 & Hcheck & Hrun).
  apply bind_returned_inv in Hrun. destruct Hrun as ([] & st1 & Hloop & Hend).
  destruct (precheck_submits_nothing _ _ _ _ _ _ Hcheck) as (evs & Ht & Hquiet).
  destruct (earlier_batches_returned _ _ _ _ Hloop)
    as (gases & Hturn & Hlen & Hs).
  exists st0, st1, gases.
  split; [assumption|]. split; [assumption|]. split; [assumption|].
  injection Hend as <-. simpl.
  rewrite calls_of_app, submissions_app. simpl. rewrite app_nil_r.
  rewrite Hs, Ht, calls_of_app, submissions_app.
  now rewrite (submissions_none evs Hquiet), app_nil_r.
Qed.

Lemma earlier_copy_submits_every_batch_witness :
  let st := fresh (mkStub [inr 100] [inr 100] [] [] [] [inr 30000; inr 45] []
                     []) in
  let st' := snd (Part001.processTransferBatches [to_alice; to_bob]
                    the_signer the_spender st) in
  exists st0 st1 gases,
    precheck [to_alice; to_bob] the_signer the_spender st = (Returned tt, st0)
    /\ estimated_in_turn [to_alice; to_bob] 0 st0 gases st1
    /\ length gases = length [to_alice; to_bob]
    /\ submissions (calls_of (trace st'))
       = submissions (calls_of (trace st))
         ++ map (fun bg => (map address (fst bg), map amount (fst bg),
                            snd bg + Z.quot (snd bg) 10))
                (combine [to_alice; to_bob] gases).
Proof.
  intros st st'.
  apply (earlier_copy_submits_every_batch [to_alice; to_bob]
           the_signer the_spender st st').
  vm_compute. reflexivity.
Defined.

(** The same run, computed: the estimates are 30000 and 45, the gas
    limits 33000 and 49. *)
Example earlier_copy_gas_limits :
  submissions
    (calls_of
       (trace
          (snd (Part001.processTransferBatches [to_alice; to_bob]
                  the_signer the_spender
                  (fresh (mkStub [inr 100] [inr 100] [] [] []
                            [inr 30000; inr 45] [] []))))))
  = [([alice], [5], 33000); ([bob], [7], 49)].
Proof. vm_compute. reflexivity. Qed.

(** ** The balance snapshot of the tests: [storeInitialBalances] *)

Lemma map_has_get {V} (k : jsstring) (m : Map V) :
  map_has k m = false <-> map_get k m = None.
Proof. unfold map_has. destruct (map_get k m); split; congruence. Qed.

(** X19.  [storeInitialBalances] makes no chain call but balance reads,
    only of recipients that have no entry in the map yet, and of none of
    them twice, and it leaves every entry that the map had as it was,
    whether the run completes or a read fails on the way.  When it
    completes, it has read every recipient that had no entry, and every
    recipient has an entry. *)
Theorem storeInitialBalances_reads {W} `{Chain W} (recipients : list Address) :
  forall (balanceMap balanceMap' : Map Z) (st st' : State W)
         (outcome : Outcome unit),
    storeInitialBalances recipients balanceMap st
    = (outcome, balanceMap', st') ->
    exists reads,
      calls_of (trace st') = calls_of (trace st) ++ map CallBalanceOf reads
      /\ NoDup reads
      /\ (forall r, In r reads -> In r recipients /\ map_get r balanceMap = None)
      /\ (forall k v, map_get k balanceMap = Some v ->
                      map_get k balanceMap' = Some v)
      /\ (outcome = Returned tt ->
          (forall r, In r recipients -> map_has r balanceMap' = true)
          /\ (forall r, In r recipients -> map_get r balanceMap = None ->
                        In r reads)).
Proof.
  induction recipients as [|r rest IH]; intros m m' st st' outcome; simpl.
  - intros [= <- <- <-]. exists []. simpl. rewrite app_nil_r.
    split; [reflexivity|]. split; [constructor|].
    split; [intros r []|]. split; [auto|].
    intros _. split; intros r [].
  - destruct (map_has r m) eqn:Hhas; cbn [negb].
    + intros Hrun.
      destruct (IH _ _ _ _ _ Hrun) as (reads & Hcalls & Hnodup & Hnew & Hkeep
                                       & Hdone).
      exists reads.
      split; [assumption|]. split; [assumption|].
      split; [|split; [assumption|]].
      * intros r0 Hin. destruct (Hnew r0 Hin) as [Hrest Hnone].
        split; [now right | assumption].
      * intros Hret. destruct (Hdone Hret) as [Hall Hread]. split.
        -- intros r0 [<- | Hin]; [|now apply Hall].
           unfold map_has in Hhas |- *.
           destruct (map_get r m) as [v|] eqn:Hv; [|discriminate].
           now rewrite (Hkeep r v Hv).
        -- intros r0 [<- | Hin] Hnone; [|now apply Hread].
           apply map_has_get in Hnone. congruence.
    + apply map_has_get in Hhas. unfold balanceOf, call.
      destruct (read_balanceOf r (world st)) as [[e|balance] w1].
      * intros [= <- <- <-]. exists [r]. simpl. rewrite calls_of_app. simpl.
        split; [reflexivity|]. split; [repeat constructor; intros []|].
        split; [|split; [auto | discriminate]].
        intros r0 [<- | []]. split; [now left | assumption].
      * intros Hrun.
        destruct (IH _ _ _ _ _ Hrun) as (reads & Hcalls & Hnodup & Hnew
                                         & Hkeep & Hdone).
        assert (Hfresh : forall r', In r' reads -> r' <> r).
        { intros r' Hin ->. destruct (Hnew r Hin) as [_ Hnone].
          now rewrite map_get_set_same in Hnone. }
        exists (r :: reads). simpl in Hcalls.
        split; [|split; [|split; [|split]]].
        -- rewrite Hcalls, calls_of_app. simpl. now rewrite <- app_assoc.
        -- constructor; [|assumption]. intros Hin. now apply (Hfresh r Hin).
        -- intros r0 [<- | Hin]; [split; [now left | assumption]|].
           destruct (Hnew r0 Hin) as [Hrest Hnone]. split; [now right|].
           now rewrite map_get_set_other in Hnone by now apply Hfresh.
        -- intros k v Hk. apply Hkeep.
           rewrite map_get_set_other; [assumption|]. congruence.
        -- intros Hret. destruct (Hdone Hret) as [Hall Hread]. split.
           ++ intros r0 [<- | Hin]; [|now apply Hall].
              unfold map_has.
              now rewrite (Hkeep r balance (map_get_set_same _ _ _)).
           ++ intros r0 [<- | Hin] Hnone; [now left|].
              destruct (str_eqb_spec r0 r) as [->|Hne]; [now left|]. right.
              apply Hread; [assumption|].
              now rewrite map_get_set_other.
Qed.

Lemma storeInitialBalances_reads_witness :
  calls_of
    (trace
       (snd (storeInitialBalances [alice; bob; alice] [(bob, 3)]
               (fresh (mkStub [inr 8] [] [] [] [] [] [] [])))))
  = [CallBalanceOf alice]
  /\ snd (fst (storeInitialBalances [alice; bob; alice] [(bob, 3)]
                 (fresh (mkStub [inr 8] [] [] [] [] [] [] []))))
     = [(bob, 3); (alice, 8)].
Proof.
  destruct (storeInitialBalances_reads [alice; bob; alice] [(bob, 3)]
              [(bob, 3); (alice, 8)]
              (fresh (mkStub [inr 8] [] [] [] [] [] [] []))
              (mkState quiet [Call (CallBalanceOf alice)])
              (Returned tt))
    as (reads & Hcalls & _); [vm_compute; reflexivity|].
  split; vm_compute; reflexivity.
Defined.

(** ** The batch driver in a world where no balance moves *)

Section Static.
Context {W : Type} `{Chain W}.
Variable bal : Address -> Z.
Hypothesis Hstatic : static_balances bal.

Lemma balanceOf_static (a : Address) (st : State W) :
  exists st', balanceOf a st = (Returned (bal a), st').
Proof.
  unfold balanceOf, call. specialize (Hstatic a (world st)).
  destruct (read_balanceOf a (world st)) as [[e|b] w']; simpl in Hstatic;
    [discriminate|].
  injection Hstatic as ->. eauto.
Qed.

Lemma readInitialBalances_static (recipients : list Address) (amounts : list Z) :
  forall indexes acc st data st',
    Forall (read_in_place bal amounts) acc ->
    TransferHelpers.readInitialBalances recipients amounts indexes acc st
    = (Returned data, st') ->
    Forall (read_in_place bal amounts) data
    /\ length data = (length acc + length indexes)%nat.
Proof.
  induction indexes as [|index rest IH]; intros acc st data st' Hacc; simpl.
  - intros [= <- <-]. split; [assumption | lia].
  - destruct (nth_error recipients index) as [a|]; [|discriminate].
    destruct (balanceOf_static a st) as (st1 & Hread).
    rewrite (bind_returned _ _ _ _ _ Hread). intros Hrun.
    apply IH in Hrun.
    + destruct Hrun as [Hall Hlen]. split; [assumption|].
      rewrite Hlen, length_app. simpl. lia.
    + apply Forall_app. split; [assumption|]. constructor; [|constructor].
      split; [reflexivity|]. simpl. intros x Hx.
      now apply nth_error_In in Hx.
Qed.

Lemma verifyEntries_static (amounts : list Z)
    (entry : TransferHelpers.VerificationEntry)
    (rest : list TransferHelpers.VerificationEntry) (st : State W) :
  Forall (fun a => a <> 0) amounts ->
  read_in_place bal amounts entry ->
  exists st',
    TransferHelpers.verifyEntries (entry :: rest) st
    = (Thrown (TransferVerificationFailed (TransferHelpers.ve_address entry)),
       st').
Proof.
  intros Hamounts [Hinitial Hexpected]. simpl.
  destruct (balanceOf_static (TransferHelpers.ve_address entry) st)
    as (st1 & Hread).
  rewrite (bind_returned _ _ _ _ _ Hread). rewrite Hinitial, Z.sub_diag.
  destruct (TransferHelpers.ve_expectedAmount entry) as [x|].
  - destruct (Z.eqb_spec 0 x) as [<-|_].
    + rewrite Forall_forall in Hamounts.
      now destruct (Hamounts 0 (Hexpected 0 eq_refl)).
    + rewrite bind_console. eexists. reflexivity.
  - rewrite bind_console. eexists. reflexivity.
Qed.

Lemma processSingleBatch_static (fuel : nat) (batch : Batch) (batchNumber : Z)
    (st : State W) :
  batch <> [] ->
  Forall (fun entry => amount entry <> 0) batch ->
  fst (TransferHelpers.processSingleBatch fuel batch batchNumber st)
  <> Returned tt.
Proof.
  intros Hne Hamounts.
  assert (Hnonzero : Forall (fun a => a <> 0) (map amount batch)).
  { apply Forall_forall. intros a Ha. apply in_map_iff in Ha.
    destruct Ha as (entry & <- & Hentry).
    rewrite Forall_forall in Hamounts. now apply Hamounts. }
  unfold TransferHelpers.processSingleBatch. rewrite !bind_console.
  cbv zeta. set (st_a := mkState _ _). clearbody st_a.
  destruct (TransferHelpers.prepareVerificationData fuel (map address batch)
              (map amount batch) st_a) as [[data|e|] st1] eqn:Hprep;
    [|rewrite (bind_thrown _ _ _ _ _ Hprep); discriminate
     |rewrite (bind_running _ _ _ _ Hprep); discriminate].
  rewrite (bind_returned _ _ _ _ _ Hprep).
  unfold TransferHelpers.prepareVerificationData in Hprep.
  rewrite bind_console in Hprep.
  apply bind_returned_inv in Hprep. destruct Hprep as (sel & st2 & Hsel & Hread).
  apply selectIndexes_sound in Hsel;
    [|rewrite length_map; destruct batch; [congruence | simpl; lia]
     |constructor | constructor
     |pose proof (samplesToCheck_bounds (length (map address batch)));
      simpl; lia].
  destruct Hsel as (Hcount & _ & _).
  apply readInitialBalances_static in Hread; [|constructor].
  destruct Hread as [Hdata Hlen].
  destruct data as [|entry rest].
  { pose proof (samplesToCheck_bounds (length (map address batch))).
    simpl in Hlen. lia. }
  apply Forall_inv in Hdata.
  unfold try_catch.
  destruct (TransferHelpers.tryBlock _ _ _ batchNumber st1)
    as [[[]|e|] st3] eqn:Htry;
    [|rewrite bind_console; discriminate|discriminate].
  exfalso. unfold TransferHelpers.tryBlock in Htry.
  rewrite bind_console in Htry.
  apply bind_returned_inv in Htry. destruct Htry as ([] & st4 & _ & Htry).
  rewrite !bind_console in Htry.
  apply bind_returned_inv in Htry. destruct Htry as (g & st5 & _ & Htry).
  rewrite !bind_console in Htry.
  unfold TransferHelpers.verifyBatchTransfers in Htry.
  rewrite bind_console in Htry.
  apply bind_returned_inv in Htry. destruct Htry as ([] & st6 & Hverify & _).
  match type of Hverify with
  | TransferHelpers.verifyEntries _ ?s = _ =>
      destruct (verifyEntries_static (map amount batch) entry rest s
                  Hnonzero Hdata) as (st7 & Hthrown)
  end.
  rewrite Hthrown in Hverify. discriminate.
Qed.
End Static.

(** X20.  The driver of scripts/helpers/transferHelpers.ts cannot
    complete a batch by itself.  In a world where the balance reads
    always succeed and no balance ever changes, processing a batch that
    is not empty and has no zero amount never returns normally, whatever
    else the world answers (the simulation and the gas estimation may
    succeed or fail): since the driver submits nothing, the sampled
    balances have not moved when it verifies them.  So a run over
    batches of which the first is such a batch does not complete
    either. *)
Theorem live_driver_needs_balances_to_move {W} `{Chain W}
    (bal : Address -> Z) (fuel : nat) (batch : Batch) (rest : list Batch)
    (signer spender : Address) (batchNumber : Z) (st : State W) :
  static_balances bal ->
  batch <> [] ->
  Forall (fun entry => amount entry <> 0) batch ->
  fst (TransferHelpers.processSingleBatch fuel batch batchNumber st)
  <> Returned tt
  /\ fst (TransferHelpers.processTransferBatches fuel (batch :: rest)
            signer spender st)
     <> Returned tt.
Proof.
  intros Hstatic Hne Hamounts. split.
  - now apply (processSingleBatch_static bal Hstatic).
  - unfold TransferHelpers.processTransferBatches.
    destruct (precheck (batch :: rest) signer spender st)
      as [[[]|e|] st0] eqn:Hcheck;
      [|rewrite (bind_thrown _ _ _ _ _ Hcheck); discriminate
       |rewrite (bind_running _ _ _ _ Hcheck); discriminate].
    rewrite (bind_returned _ _ _ _ _ Hcheck). simpl forBatches.
    pose proof (processSingleBatch_static bal Hstatic fuel batch 1 st0
                  Hne Hamounts) as Hbatch.
    unfold bind.
    destruct (TransferHelpers.processSingleBatch fuel batch 1 st0)
      as [[[]|e|] st1];
      [exfalso; now apply Hbatch | simpl; discriminate | simpl; discriminate].
Qed.

Lemma live_driver_needs_balances_to_move_witness :
  fst (TransferHelpers.processSingleBatch 4 to_alice 1 (mkState tt []))
  <> Returned tt
  /\ fst (TransferHelpers.processTransferBatches 4 [to_alice; to_bob]
            the_signer the_spender (mkState tt []))
     <> Returned tt.
Proof.
  apply (live_driver_needs_balances_to_move (fun _ => 0) 4 to_alice [to_bob]
           the_signer the_spender 1 (mkState tt [])).
  - intros a w. reflexivity.
  - discriminate.
  - repeat constructor. discriminate.
Defined.

(** ** The verification of a batch: [verifyBatchTransfers] *)

Section Verification.
Context {W : Type} `{Chain W}.

Lemma verifyEntries_returns (data : list TransferHelpers.VerificationEntry) :
  forall (st : State W),
    (exists st', TransferHelpers.verifyEntries data st = (Returned tt, st'))
    <-> (exists currents w',
           answers_balances (map TransferHelpers.ve_address data) (world st)
             currents w'
           /\ Forall2 received_expected data currents).
Proof.
  induction data as [|entry rest IH]; intros st; simpl.
  - split.
    + intros _. exists [], (world st). split; [reflexivity | constructor].
    + intros _. eexists. reflexivity.
  - unfold balanceOf, bind at 1, call.
    destruct (read_balanceOf (TransferHelpers.ve_address entry) (world st))
      as [[e|current] w1] eqn:Hread.
    + split; [intros [st' [=]]|].
      intros ([|c currents] & w' & Hans & _); [contradiction|].
      destruct Hans as (w2 & [=] & _).
    + unfold received_expected at 1.
      destruct (TransferHelpers.ve_expectedAmount entry) as [expected|]
        eqn:Hexp.
      * destruct (Z.eqb_spec
                    (current - TransferHelpers.ve_initialBalance entry)
                    expected) as [Heq|Hne].
        -- rewrite bind_console. rewrite IH. simpl. split.
           ++ intros (currents & w' & Hans & Hall).
              exists (current :: currents), w'. split.
              ** exists w1. split; [reflexivity | assumption].
              ** constructor; [|assumption].
                 unfold received_expected. now rewrite Hexp, Heq.
           ++ intros ([|c currents] & w' & Hans & Hall); [contradiction|].
              destruct Hans as (w2 & [= <- <-] & Hans).
              inversion Hall; subst. eauto.
        -- rewrite bind_console. split; [intros [st' [=]]|].
           intros ([|c currents] & w' & Hans & Hall); [contradiction|].
           destruct Hans as (w2 & [= <- <-] & _).
           inversion Hall as [|? ? ? ? Hfirst]; subst.
           unfold received_expected in Hfirst. congruence.
      * rewrite bind_console. split; [intros [st' [=]]|].
        intros ([|c currents] & w' & Hans & Hall); [contradiction|].
        inversion Hall as [|? ? ? ? Hfirst]; subst.
        unfold received_expected in Hfirst. congruence.
Qed.
End Verification.

(** X21.  The verification of a batch returns normally exactly when the
    world answers the balance reads of the sampled entries, taken one
    after the other in the order of the sample, with balances each of
    which is the initial balance of its entry plus the amount expected
    for it; an entry without an expected amount, a balance that moved by
    any other amount, or a failed read makes it throw. *)
Theorem verifyBatchTransfers_returns_iff {W} `{Chain W}
    (verificationData : list TransferHelpers.VerificationEntry)
    (batchNumber : Z) (st : State W) :
  (exists st',
     TransferHelpers.verifyBatchTransfers verificationData batchNumber st
     = (Returned tt, st'))
  <-> (exists currents w',
         answers_balances (map TransferHelpers.ve_address verificationData)
           (world st) currents w'
         /\ Forall2 received_expected verificationData currents).
Proof.
  unfold TransferHelpers.verifyBatchTransfers. rewrite bind_console.
  set (st0 := mkState (world st) _).
  change (world st) with (world st0).
  rewrite <- (verifyEntries_returns verificationData st0).
  split.
  - intros (st' & Hrun). apply bind_returned_inv in Hrun.
    destruct Hrun as ([] & st1 & Hrun & _). eauto.
  - intros (st1 & Hrun). rewrite (bind_returned _ _ _ _ _ Hrun).
    unfold console, emit. eauto.
Qed.

(** ** What the driver knows when it enters the loop *)

(** X22.  The checks before the loop let the run go on only on the
    strength of what was read: when they return, the balance read at the
    start is at least the total of all batches, and the last thing done
    to the world is an allowance read that gave at least that total
    (the first read when the allowance sufficed, the read after the
    approval otherwise). *)
Theorem precheck_postcondition {W} `{Chain W} (batches : list Batch)
    (signer spender : Address) (st st' : State W) :
  precheck batches signer spender st = (Returned tt, st') ->
  (exists balance w0,
     read_balanceOf signer (world st) = (inr balance, w0)
     /\ total_amount batches <= balance)
  /\ (exists w allowed,
        read_allowance signer spender w = (inr allowed, world st')
        /\ total_amount batches <= allowed).
Proof.
  unfold precheck. generalize (total_amount batches) as R. intros R.
  rewrite bind_console. intros Hrun.
  apply bind_returned_inv in Hrun. destruct Hrun as (b & st1 & Hbal & Hrun).
  apply bind_returned_inv in Hrun. destruct Hrun as (a & st2 & Hallow & Hend).
  injection Hend as <-. simpl.
  split.
  - unfold checkTokenBalance, balanceOf, bind, call in Hbal. simpl in Hbal.
    destruct (read_balanceOf signer (world st)) as [[e|balance] w0];
      [discriminate|].
    destruct (Z.ltb_spec balance R); [discriminate|]. eauto.
  - clear Hbal. revert Hallow. generalize st1. clear. intros st.
    run_guard.
    destruct (read_allowance signer spender (world st)) as [[e|A] w1] eqn:Hfirst;
      [discriminate|]. simpl.
    destruct (Z.ltb_spec A R) as [Hlow|Hok]; simpl.
    + destruct (A >? 0); simpl.
      * destruct (write_approve spender 0 w1) as [[e|h0] w2]; [discriminate|].
        simpl.
        destruct (waitForTransactionReceipt h0 w2) as [[e|r0] w3];
          [discriminate|]. simpl.
        destruct (status r0); [|discriminate]. simpl.
        destruct (write_approve spender R w3) as [[e|h] w4]; [discriminate|].
        simpl.
        destruct (waitForTransactionReceipt h w4) as [[e|r] w5];
          [discriminate|]. simpl.
        destruct (status r); [|discriminate]. simpl.
        destruct (read_allowance signer spender w5) as [[e|A'] w6] eqn:Hlast;
          [discriminate|]. simpl.
        destruct (Z.ltb_spec A' R); [discriminate|]. simpl.
        intros [= _ <-]. simpl. eauto.
      * destruct (write_approve spender R w1) as [[e|h] w4]; [discriminate|].
        simpl.
        destruct (waitForTransactionReceipt h w4) as [[e|r] w5];
          [discriminate|]. simpl.
        destruct (status r); [|discriminate]. simpl.
        destruct (read_allowance signer spender w5) as [[e|A'] w6] eqn:Hlast;
          [discriminate|]. simpl.
        destruct (Z.ltb_spec A' R); [discriminate|]. simpl.
        intros [= _ <-]. simpl. eauto.
    + intros [= _ <-]. simpl. eauto.
Qed.

Lemma precheck_postcondition_witness :
  let st := fresh (mkStub [inr 12] [inr 12] [] [] [] [] [] []) in
  let st' := snd (precheck [to_alice; to_bob] the_signer the_spender st) in
  (exists balance w0,
     read_balanceOf the_signer (world st) = (inr balance, w0)
     /\ total_amount [to_alice; to_bob] <= balance)
  /\ (exists w allowed,
        read_allowance the_signer the_spender w = (inr allowed, world st')
        /\ total_amount [to_alice; to_bob] <= allowed).
Proof.
  intros st st'.
  apply (precheck_postcondition [to_alice; to_bob] the_signer the_spender
           st st').
  vm_compute. reflexivity.
Defined.

(** ** The verification of the earlier copy *)

(** X23.  The verification step of the earlier copy of the driver checks
    nothing: it reads the balance of at most three recipients and prints
    it.  In any world whose balance reads succeed it returns normally,
    whatever the balances are, after exactly min(3, number of
    recipients) balance reads. *)
Theorem earlier_copy_verification_checks_nothing {W} `{Chain W}
    (recipients : list Address) (st : State W) :
  balance_reads_succeed ->
  exists st',
    Part001.verifyBatchTransfers recipients st = (Returned tt, st')
    /\ exists calls,
         calls_of (trace st') = calls_of (trace st) ++ calls
         /\ length (balance_reads calls) = Nat.min 3 (length recipients).
Proof.
  intros Hreads. unfold Part001.verifyBatchTransfers.
  assert (Hbound : (Nat.min 3 (length recipients) <= length recipients)%nat)
    by lia.
  revert Hbound st. generalize (Nat.min 3 (length recipients)) as samples.
  induction samples as [|samples IH]; intros Hbound st; simpl.
  - eexists. split; [reflexivity|]. exists []. now rewrite app_nil_r.
  - destruct (random_index_run (length recipients) st)
      as (i & st1 & Hdraw & Hi & Ht1).
    rewrite (bind_returned _ _ _ _ _ Hdraw).
    destruct (nth_error recipients i) as [recipient|] eqn:Hnth;
      [|apply nth_error_None in Hnth; lia].
    destruct (Hreads recipient (world st1)) as (b & w2 & Hread).
    unfold balanceOf.
    erewrite bind_returned by (apply call_returned; exact Hread).
    rewrite bind_console.
    destruct (IH ltac:(lia) (mkState w2
                (((trace st1 ++ [Call (CallBalanceOf recipient)])
                  ++ [Console LogLevel "Verified {}: {} tokens"
                        [ArgS recipient; ArgZ b]]))))
      as (st' & Hrun & calls & Hcalls & Hlen).
    simpl in Hrun. exists st'. split; [exact Hrun|].
    exists (CallRandom :: CallBalanceOf recipient :: calls).
    split.
    + rewrite Hcalls. simpl. rewrite !calls_of_app, Ht1, calls_of_app. simpl.
      rewrite ?app_nil_r, <- ?app_assoc. reflexivity.
    + simpl. now rewrite Hlen.
Qed.

Lemma earlier_copy_verification_checks_nothing_witness :
  exists st',
    Part001.verifyBatchTransfers [alice; bob] (mkState tt []) = (Returned tt, st')
    /\ exists calls,
         calls_of (trace st') = calls_of (@nil Event) ++ calls
         /\ length (balance_reads calls) = Nat.min 3 (length [alice; bob]).
Proof.
  apply (earlier_copy_verification_checks_nothing [alice; bob] (mkState tt [])).
  intros a w. exists 0, w. reflexivity.
Defined.

(** ** The contract: the ERC721 and ERC1155 calls *)

Lemma _executeERC1155Transfers_repeat (sender : Z) (recipients : list Z)
    (tokenId : Z) (data : list N) :
  forall amounts,
    _executeERC1155DifferentTransfers sender recipients
      (repeat tokenId (length recipients)) amounts data
    = _executeERC1155Transfers sender recipients tokenId amounts data.
Proof.
  induction recipients as [|r recipients IH]; intros [|a amounts]; simpl;
    try reflexivity.
  now rewrite IH.
Qed.

(** X27.  The same-id ERC1155 call is the different-id call on a token id
    array that repeats the id once per recipient: for every state of the
    contract and every input the two make the same token calls and emit
    the same event, and when they revert they revert with the same
    reason. *)
Theorem bulkSendERC1155_as_Different (c : BulkSender) (sender token : Z)
    (recipients : list Z) (tokenId : Z) (amounts : list Z) (data : list N) :
  bulkSendERC1155 c sender token recipients tokenId amounts data
  = bulkSendERC1155Different c sender token recipients
      (repeat tokenId (length recipients)) amounts data.
Proof.
  unfold bulkSendERC1155, bulkSendERC1155Different.
  rewrite repeat_length, Nat.eqb_refl, _executeERC1155Transfers_repeat.
  reflexivity.
Qed.

Lemma transferERC721_returns (sender : Z) (recipients tokenIds : list Z)
    (calls : list NftCall) :
  length recipients = length tokenIds ->
  (transferERC721 sender recipients tokenIds = inr calls <->
   Forall (fun r => r <> 0) recipients
   /\ calls = map (fun rt => Erc721SafeTransferFrom sender (fst rt) (snd rt))
                  (combine recipients tokenIds)).
Proof.
  revert tokenIds calls.
  induction recipients as [|r recipients IH]; intros [|t tokenIds] calls Hlen;
    try discriminate; simpl.
  - split; [intros [= <-]; split; [constructor | reflexivity] | now intros [_ ->]].
  - injection Hlen as Hlen. destruct (Z.eqb_spec r 0) as [->|Hr].
    + split; [discriminate|]. intros [Hall _]. now inversion Hall.
    + destruct (transferERC721 sender recipients tokenIds) as [reason|calls']
        eqn:Hrest.
      * split; [discriminate|]. intros [Hall ->].
        apply Forall_inv_tail in Hall.
        pose proof (proj2 (IH tokenIds _ Hlen) (conj Hall eq_refl)) as Hgood.
        rewrite Hrest in Hgood. discriminate.
      * destruct (proj1 (IH tokenIds calls' Hlen) Hrest) as [Hall ->].
        split; [intros [= <-] | intros [_ ->]]; auto.
Qed.

(** X28.  Whenever [bulkSendERC721] succeeds, the contract is not paused,
    the recipient array is not empty and not longer than the recipient
    limit, the token address is not zero, there are as many token ids as
    recipients and no recipient is the zero address; the call has made
    exactly one transfer per position, from the sender straight to the
    recipient of that position with the token id of that position, and
    its event carries the two arrays: unlike the ERC20 calls, no token
    passes through the contract.  (Whether the call succeeds also rests
    with the token, which checks ownership and approval.) *)
Theorem bulkSendERC721_success (c : BulkSender) (sender token : Z)
    (recipients tokenIds : list Z) (calls : list NftCall) (event : BulkEvent) :
  bulkSendERC721 c sender token recipients tokenIds = inr (calls, event) ->
  (paused c = false
   /\ (0 < length recipients)%nat
   /\ Z.of_nat (length recipients) <= recipientLimit c
   /\ token <> 0
   /\ length recipients = length tokenIds
   /\ Forall (fun r => r <> 0) recipients)
  /\ calls = map (fun rt => Erc721SafeTransferFrom sender (fst rt) (snd rt))
                 (combine recipients tokenIds)
  /\ moves calls = map (fun r => (sender, r)) recipients
  /\ event = BulkERC721Transfer token sender tokenIds recipients.
Proof.
  unfold bulkSendERC721.
  destruct (paused c); [discriminate|].
  destruct (Z.gtb_spec (Z.of_nat (length recipients)) 0); [|discriminate].
  destruct (Z.leb_spec (Z.of_nat (length recipients)) (recipientLimit c));
    [|discriminate].
  destruct (Z.eqb_spec token 0); [discriminate|].
  destruct (Nat.eqb_spec (length recipients) (length tokenIds)) as [Hlen|];
    [|discriminate].
  simpl.
  destruct (transferERC721 sender recipients tokenIds) as [|calls'] eqn:Hloop;
    [discriminate|].
  apply (transferERC721_returns _ _ _ _ Hlen) in Hloop.
  destruct Hloop as [Hall ->]. intros [= <- <-].
  split; [repeat split; try assumption; lia|].
  split; [reflexivity|]. split; [|reflexivity].
  unfold moves. rewrite map_map. simpl. clear -Hlen.
  revert tokenIds Hlen.
  induction recipients as [|r recipients IH]; intros [|t tokenIds] Hlen;
    try discriminate; [reflexivity|].
  simpl. f_equal. apply IH. now injection Hlen.
Qed.

Lemma bulkSendERC721_success_witness :
  moves [Erc721SafeTransferFrom 1 2 70; Erc721SafeTransferFrom 1 3 71]
  = map (fun r => (1, r)) [2; 3].
Proof.
  apply (bulkSendERC721_success (deployed 9) 1 4 [2; 3] [70; 71]
           [Erc721SafeTransferFrom 1 2 70; Erc721SafeTransferFrom 1 3 71]
           (BulkERC721Transfer 4 1 [70; 71] [2; 3])).
  reflexivity.
Defined.
